(** * SODPEST: the SPARQL endpoint filter, [filter-sparql-portals.mjs]

    A shallow embedding of the response classifier, the endpoint prober,
    the selection policy and the bounded-concurrency verification engine,
    together with the properties the design document states about them;
    then the command line, the country filter and the candidates of a
    portal, with further properties of the script as a whole.

    Conventions of the embedding.
    - A JavaScript string that is inspected character by character (a
      content type, a response body) is a [list ascii]: a sequence of code
      units of the Latin-1 range.  URLs are only compared and used as map
      keys; they are [string]s.
    - [null] and [undefined] are [None].
    - A JavaScript [Map] iterates in insertion order: the per-portal map of
      verified endpoints is an association list; the outer maps keyed by
      the portal index are [gmap]s.
    - An [async] function is split at its [await]s.  Between two awaits
      JavaScript runs a worker to completion, so one step of the engine is
      the whole synchronous segment of one worker.
    - What the host provides ([fetch], [new URL], [JSON.parse]) is a
      variable of the section that uses it.
    - A JavaScript number that the script computes with (the value of
      [--concurrency]) is [NaN], an infinity or a finite value; the
      finite values are rationals, which covers every double.

    The embedding comes first, then the vocabulary of the statements
    (the history of a run, its invariant, concrete portals), then the
    properties with their proofs. *)

From Stdlib Require Import Ascii String QArith.
From stdpp Require Import gmap strings list relations.

Close Scope Q_scope.

#[local] Set Warnings "-abstract-large-number".

Local Open Scope list_scope.

(** ** JavaScript strings *)

Module Js.

Abbreviation text := (list ascii).

Definition str (s : string) : text := list_ascii_of_string s.

Definition code (c : ascii) : nat := nat_of_ascii c.

(** [String.prototype.toLowerCase] on one code unit of the Latin-1 range. *)
Definition lowerChar (c : ascii) : ascii :=
  let n := code c in
  if ((65 <=? n) && (n <=? 90)) || ((192 <=? n) && (n <=? 222) && negb (n =? 215))
  then ascii_of_nat (n + 32) else c.

Definition toLowerCase (s : text) : text := map lowerChar s.

(** White space as [trim] and the class [\s] see it. *)
Definition isWhiteSpace (c : ascii) : bool :=
  let n := code c in
  ((9 <=? n) && (n <=? 13)) || (n =? 32) || (n =? 160).

Fixpoint trimStart (s : text) : text :=
  match s with
  | c :: s' => if isWhiteSpace c then trimStart s' else s
  | [] => []
  end.

Definition trimEnd (s : text) : text := rev (trimStart (rev s)).

Definition trim (s : text) : text := trimEnd (trimStart s).

(** [s.slice(0, n)] *)
Definition slice0 (n : nat) (s : text) : text := firstn n s.

Definition eqChar (a b : ascii) : bool := Ascii.eqb a b.

Fixpoint startsWith (s p : text) : bool :=
  match p, s with
  | [], _ => true
  | a :: p', b :: s' => eqChar a b && startsWith s' p'
  | _ :: _, [] => false
  end.

Fixpoint includes (s sub : text) : bool :=
  startsWith s sub ||
  match s with
  | _ :: s' => includes s' sub
  | [] => false
  end.

(** [x ?? ""] *)
Definition orEmpty (x : option text) : text := default [] x.

(** What [Number(...)] can give. *)
Inductive Number : Type :=
| NaN
| NegInfinity
| Finite (q : Q)
| PosInfinity.

Definition ofZ (z : Z) : Number := Finite (inject_Z z).

(** [Math.max(a, b)]: [NaN] as soon as one argument is [NaN]. *)
Definition Math_max (a b : Number) : Number :=
  match a, b with
  | NaN, _ | _, NaN => NaN
  | PosInfinity, _ | _, PosInfinity => PosInfinity
  | NegInfinity, x | x, NegInfinity => x
  | Finite x, Finite y => if Qle_bool x y then Finite y else Finite x
  end.

(** [ToLength], which reads the [length] of an array-like object: [NaN]
    counts as 0, a fraction is cut off, and the result is kept between 0
    and 2^53 - 1. *)
Definition ToLength (x : Number) : Z :=
  match x with
  | NaN | NegInfinity => 0
  | Finite q => Z.min (Z.max (Z.quot (Qnum q) (Z.pos (Qden q))) 0) 9007199254740991
  | PosInfinity => 9007199254740991
  end%Z.

(** [a <= b] on numbers; it is false when one side is [NaN]. *)
Definition numLe (a b : Number) : Prop :=
  match a, b with
  | NaN, _ | _, NaN => False
  | NegInfinity, _ | _, PosInfinity => True
  | Finite x, Finite y => Qle x y
  | _, _ => False
  end.

End Js.

(** ** Regular expressions

    The fragment of ECMAScript patterns the classifier uses, with the
    backtracking matcher of the language definition: a matcher takes the
    character before the current position, the rest of the input and a
    continuation. *)

Module Regex.
Import Js.

Inductive regex : Type :=
| REmpty
| RChar (c : ascii)                 (* a pattern character, under the flag i *)
| RClass (p : ascii -> bool)        (* a class, one character *)
| RStarClass (p : ascii -> bool)    (* a class under a greedy star *)
| RWordB                            (* the assertion \b *)
| RSeq (r1 r2 : regex)
| RAlt (r1 r2 : regex).

(** Canonicalisation under the flag i (no flag u): a code unit and its
    upper-case form are identified, but a code unit at or above 128 is
    never identified with one below 128.  The patterns here are ASCII, so
    only the ASCII letters fold. *)
Definition canon (c : ascii) : ascii :=
  let n := code c in
  if (97 <=? n) && (n <=? 122) then ascii_of_nat (n - 32) else c.

Definition isWordChar (c : ascii) : bool :=
  let n := code c in
  ((48 <=? n) && (n <=? 57)) || ((65 <=? n) && (n <=? 90))
  || ((97 <=? n) && (n <=? 122)) || (n =? 95).

Definition isWordAt (c : option ascii) : bool :=
  match c with Some x => isWordChar x | None => false end.

Fixpoint starClass (p : ascii -> bool) (k : option ascii -> text -> bool)
    (prev : option ascii) (s : text) : bool :=
  match s with
  | x :: s' => (p x && starClass p k (Some x) s') || k prev s
  | [] => k prev s
  end.

Fixpoint rmatch (r : regex) (prev : option ascii) (s : text)
    (k : option ascii -> text -> bool) : bool :=
  match r with
  | REmpty => k prev s
  | RChar c =>
      match s with
      | x :: s' => eqChar (canon x) (canon c) && k (Some x) s'
      | [] => false
      end
  | RClass p =>
      match s with
      | x :: s' => p x && k (Some x) s'
      | [] => false
      end
  | RStarClass p => starClass p k prev s
  | RWordB => xorb (isWordAt prev) (isWordAt (head s)) && k prev s
  | RSeq r1 r2 => rmatch r1 prev s (fun prev' s' => rmatch r2 prev' s' k)
  | RAlt r1 r2 => rmatch r1 prev s k || rmatch r2 prev s k
  end.

(** [RegExp.prototype.test] for a pattern without the flags g and y: the
    first start position from which the pattern matches. *)
Fixpoint scanFrom (r : regex) (prev : option ascii) (s : text) : bool :=
  rmatch r prev s (fun _ _ => true) ||
  match s with
  | x :: s' => scanFrom r (Some x) s'
  | [] => false
  end.

Definition RegExp_test (r : regex) (s : text) : bool := scanFrom r None s.

(** A run of pattern characters. *)
Fixpoint lit (s : text) : regex :=
  match s with
  | [] => REmpty
  | c :: s' => RSeq (RChar c) (lit s')
  end.

Definition anyChar (c : ascii) : bool := isWhiteSpace c || negb (isWhiteSpace c).
Definition notGt (c : ascii) : bool := negb (eqChar c ">"%char).

(** The words a pattern matches, for the statements below: [denote r prev
    w rest] says that [r] matches the word [w] when [prev] is the
    character before it and [rest] is what follows. *)
Definition lastOr (prev : option ascii) (w : text) : option ascii :=
  match last w with Some x => Some x | None => prev end.

Definition ci (w l : text) : Prop := map canon w = map canon l.

Fixpoint denote (r : regex) (prev : option ascii) (w rest : text) : Prop :=
  match r with
  | REmpty => w = []
  | RChar c => exists x, w = [x] /\ canon x = canon c
  | RClass p => exists x, w = [x] /\ p x = true
  | RStarClass p => forallb p w = true
  | RWordB => w = [] /\ xorb (isWordAt prev) (isWordAt (head rest)) = true
  | RSeq r1 r2 => exists w1 w2, w = w1 ++ w2 /\ denote r1 prev w1 (w2 ++ rest)
                                /\ denote r2 (lastOr prev w1) w2 rest
  | RAlt r1 r2 => denote r1 prev w rest \/ denote r2 prev w rest
  end.

End Regex.

(** ** 4.1 Response classifier *)

Module Classifier.
Import Js Regex.

Definition looksLikeHtml (contentType text : option Js.text) : bool :=
  let ct := toLowerCase (orEmpty contentType) in
  if includes ct (str "text/html") then true
  else
    let t := toLowerCase (slice0 500 (trim (orEmpty text))) in
    if startsWith t (str "<!doctype html") then true
    else if startsWith t (str "<html") then true
    else false.

(** The values [JSON.parse] can produce. *)
#[local] Set Warnings "-register-all".
Inductive JsonValue : Type :=
| JNull
| JBool (b : bool)
| JNumber (n : Z)
| JString (s : Js.text)
| JArray (l : list JsonValue)
| JObject (fields : list (Js.text * JsonValue)).

(** [v?.boolean]: the property of an object; [undefined] on [null], and on
    a primitive or an array, which have no such property. *)
Definition getBooleanProp (v : JsonValue) : option JsonValue :=
  match v with
  | JObject fields =>
      snd <$> List.find (fun kv => bool_decide (fst kv = str "boolean")) fields
  | _ => None
  end.

Definition isBooleanTyped (v : option JsonValue) : bool :=
  match v with Some (JBool _) => true | _ => false end.

Section WithJsonParser.

(** [JSON.parse] is the host's; [None] is a thrown [SyntaxError]. *)
Variable JSON_parse : Js.text -> option JsonValue.

Definition looksLikeJsonAsk (text : Js.text) : bool :=
  match JSON_parse text with
  | Some v => isBooleanTyped (getBooleanProp v)
  | None => false
  end.

End WithJsonParser.

(** /<sparql\b[^>]*>[\s\S]*<boolean>(true|false)<\/boolean>[\s\S]*<\/sparql>/i *)
Definition xmlAskPattern : regex :=
  RSeq (lit (str "<sparql"))
  (RSeq RWordB
  (RSeq (RStarClass notGt)
  (RSeq (RChar ">")
  (RSeq (RStarClass anyChar)
  (RSeq (lit (str "<boolean>"))
  (RSeq (RAlt (lit (str "true")) (lit (str "false")))
  (RSeq (lit (str "</boolean>"))
  (RSeq (RStarClass anyChar)
        (lit (str "</sparql>")))))))))).

Definition looksLikeXmlAsk (text : option Js.text) : bool :=
  let t := slice0 200000 (orEmpty text) in
  RegExp_test xmlAskPattern t.

Definition isRdfContentType (ct : option Js.text) : bool :=
  let s := toLowerCase (orEmpty ct) in
  includes s (str "text/turtle")
  || includes s (str "application/rdf+xml")
  || includes s (str "application/ld+json")
  || includes s (str "application/n-triples")
  || includes s (str "application/n-quads")
  || includes s (str "text/n3")
  || includes s (str "application/trig").

Definition looksLikeServiceDescription (text : option Js.text) : bool :=
  let t := toLowerCase (slice0 300000 (orEmpty text)) in
  if includes t (str "http://www.w3.org/ns/sparql-service-description#") then true
  else if includes t (str "sd:service") then true
  else if includes t (str "sd:endpoint") then true
  else if includes t (str "void:sparqlendpoint") then true
  else false.

(** The classifier in the words of the design document (4.1,
    [isBooleanXmlAck]), written without the matcher and its helpers.
    A character reads a character of a tag written in lower case when
    it is that character or, for a letter, its capital.  A name
    character is a letter, a digit or the underscore. *)
Definition readsChar (x c : ascii) : Prop :=
  x = c \/ (97 <= nat_of_ascii c <= 122 /\ nat_of_ascii x + 32 = nat_of_ascii c).

Definition reads (w : text) (tag : string) : Prop :=
  Forall2 readsChar w (list_ascii_of_string tag).

Definition nameChar (c : ascii) : Prop :=
  48 <= nat_of_ascii c <= 57 \/ 65 <= nat_of_ascii c <= 90
  \/ 97 <= nat_of_ascii c <= 122 \/ nat_of_ascii c = 95.

(** Somewhere in the text an opening [sparql] tag, with or without
    attributes, later a [boolean] element holding [true] or [false],
    later the closing [sparql] tag, letters in either case.  The name
    [sparql] ends at the tag's name ([<sparqlx>] is another element),
    and the attributes end at the first [>]. *)
Definition isBooleanXmlAck (t : text) : Prop :=
  exists pre op attrs mid1 el mid2 cl post,
    t = pre ++ op ++ attrs ++ ">"%char :: mid1 ++ el ++ mid2 ++ cl ++ post
    /\ reads op "<sparql"
    /\ (forall c, head attrs = Some c -> ~ nameChar c)
    /\ Forall (fun c => c <> ">"%char) attrs
    /\ (reads el "<boolean>true</boolean>" \/ reads el "<boolean>false</boolean>")
    /\ reads cl "</sparql>".

(** The acknowledgment document of the end-to-end scenario. *)
Definition askDocument : text :=
  str "<sparql><results><boolean>true</boolean></results></sparql>".

End Classifier.

(** ** 4.2 Endpoint prober

    The prober talks to the network through [fetch].  A computation of the
    prober takes the list of the requests issued so far and returns a
    value or a raised exception, with the extended list. *)

Module Prober.
Import Js Classifier.

Inductive Exn : Type := TypeError | RangeError | NetworkError | AbortError | OtherError.

Inductive Outcome (A : Type) : Type :=
| Return (a : A)
| Raise (e : Exn).
Arguments Return {A} a.
Arguments Raise {A} e.

Inductive Method : Type := GET | POST.

Record Request : Type := mkRequest {
  req_method : Method;
  req_url : string;
  req_accept : text;
  req_contentType : option text;
  req_body : option text
}.

(** What [fetch] resolves to: [res.ok], the content-type header ([None]
    when the header is absent) and the text of the body ([None] when
    reading it fails). *)
Record Response : Type := mkResponse {
  res_ok : bool;
  res_contentType : option text;
  res_text : option text
}.

Definition M (A : Type) : Type := list Request -> Outcome A * list Request.

#[global] Instance M_ret : MRet M := fun A a log => (Return a, log).
#[global] Instance M_bind : MBind M := fun A B f m log =>
  match m log with
  | (Return a, log') => f a log'
  | (Raise e, log') => (Raise e, log')
  end.

Definition throw {A} (e : Exn) : M A := fun log => (Raise e, log).

(** [try { m } catch { h }] *)
Definition try_catch {A} (m : M A) (h : M A) : M A := fun log =>
  match m log with
  | (Return a, log') => (Return a, log')
  | (Raise _, log') => h log'
  end.

Inductive Mode : Type := ask_get | ask_post | service_description.

Record StrategyResult : Type := mkStrategy { s_ok : bool }.
Record ProbeResult : Type := mkProbe { ok : bool; mode : option Mode }.
Record FetchText : Type := mkFetchText {
  ft_res : option Response;
  ft_ct : text;
  ft_text : text
}.

Definition askAccept : text :=
  str "application/sparql-results+json, application/sparql-results+xml;q=0.9, application/json;q=0.8, application/xml;q=0.8, text/xml;q=0.8, */*;q=0.1".
Definition rdfAccept : text :=
  str "text/turtle, application/rdf+xml;q=0.9, application/ld+json;q=0.9, application/n-triples;q=0.8, text/n3;q=0.7, */*;q=0.1".

Section WithHost.

(** The host: the network, which may answer differently as requests
    accumulate and which sees the timeout ([None]: the request fails or
    is aborted by the timer); the URL parser with the query parameter
    set ([None]: [new URL] throws); form encoding; [JSON.parse]. *)
Variable fetch : list Request -> Request -> Z -> option Response.
Variable URL_withQuery : string -> text -> option string.
Variable URLSearchParams_toString : text -> text.
Variable JSON_parse : text -> option JsonValue.

Definition await_fetch (req : Request) (timeoutMs : Z) : M Response := fun log =>
  match fetch log req timeoutMs with
  | Some res => (Return res, log ++ [req])
  | None => (Raise NetworkError, log ++ [req])
  end.

Definition await_text (res : Response) : M text :=
  match res_text res with
  | Some t => mret t
  | None => throw TypeError
  end.

Definition fetchText (req : Request) (timeoutMs : Z) : M FetchText :=
  try_catch
    (res ← await_fetch req timeoutMs;
     let ct := orEmpty (res_contentType res) in
     text ← await_text res;
     mret (mkFetchText (Some res) ct text))
    (mret (mkFetchText None [] [])).

(** The checks both acknowledgment probes apply to a response. *)
Definition askChecks (r : FetchText) : StrategyResult :=
  match ft_res r with
  | None => mkStrategy false
  | Some res =>
    if negb (res_ok res) then mkStrategy false
    else if looksLikeHtml (Some (ft_ct r)) (Some (ft_text r)) then mkStrategy false
    else
      let cts := toLowerCase (ft_ct r) in
      if includes cts (str "application/sparql-results+json")
         && looksLikeJsonAsk JSON_parse (ft_text r) then mkStrategy true
      else if includes cts (str "application/sparql-results+xml")
         && looksLikeXmlAsk (Some (ft_text r)) then mkStrategy true
      else if looksLikeJsonAsk JSON_parse (ft_text r) then mkStrategy true
      else if looksLikeXmlAsk (Some (ft_text r)) then mkStrategy true
      else mkStrategy false
  end.

Definition new_URL_withQuery (endpoint : string) (ask : text) : M string :=
  match URL_withQuery endpoint ask with
  | Some u => mret u
  | None => throw TypeError
  end.

Definition tryAskGet (endpoint : string) (ask : text) (timeoutMs : Z)
    : M StrategyResult :=
  try_catch
    (u ← new_URL_withQuery endpoint ask;
     r ← fetchText (mkRequest GET u askAccept None None) timeoutMs;
     mret (askChecks r))
    (mret (mkStrategy false)).

Definition tryAskPost (endpoint : string) (ask : text) (timeoutMs : Z)
    : M StrategyResult :=
  let body := URLSearchParams_toString ask in
  r ← fetchText
        (mkRequest POST endpoint askAccept
           (Some (str "application/x-www-form-urlencoded")) (Some body))
        timeoutMs;
  mret (askChecks r).

Definition tryServiceDescription (endpoint : string) (timeoutMs : Z)
    : M StrategyResult :=
  r ← fetchText (mkRequest GET endpoint rdfAccept None None) timeoutMs;
  mret (match ft_res r with
        | None => mkStrategy false
        | Some res =>
          if negb (res_ok res) then mkStrategy false
          else if negb (isRdfContentType (Some (ft_ct r))) then mkStrategy false
          else if looksLikeHtml (Some (ft_ct r)) (Some (ft_text r)) then mkStrategy false
          else if negb (looksLikeServiceDescription (Some (ft_text r))) then mkStrategy false
          else mkStrategy true
        end).

Definition validateSparqlEndpoint (endpoint : string) (timeoutMs : Z)
    : M ProbeResult :=
  let ask := str "ASK {}" in
  r1 ← tryAskGet endpoint ask timeoutMs;
  if s_ok r1 then mret (mkProbe true (Some ask_get))
  else
    r2 ← tryAskPost endpoint ask timeoutMs;
    if s_ok r2 then mret (mkProbe true (Some ask_post))
    else
      r3 ← tryServiceDescription endpoint timeoutMs;
      if s_ok r3 then mret (mkProbe true (Some service_description))
      else mret (mkProbe false None).

(** What [fetchText] returns for an answer of the network. *)
Definition fetched (o : option Response) : FetchText :=
  match o with
  | Some res =>
      match res_text res with
      | Some t => mkFetchText (Some res) (orEmpty (res_contentType res)) t
      | None => mkFetchText None [] []
      end
  | None => mkFetchText None [] []
  end.

Definition getRequest (endpoint : string) : list Request :=
  match URL_withQuery endpoint (str "ASK {}") with
  | Some u => [mkRequest GET u askAccept None None]
  | None => []
  end.

Definition postRequest (endpoint : string) : Request :=
  mkRequest POST endpoint askAccept (Some (str "application/x-www-form-urlencoded"))
    (Some (URLSearchParams_toString (str "ASK {}"))).

Definition descriptionRequest (endpoint : string) : Request :=
  mkRequest GET endpoint rdfAccept None None.

End WithHost.

End Prober.

(** ** 3. Candidate model and 4.4 selection policy *)

Module Model.
Import Prober.

Inductive Source : Type := explicit | guessed.

#[global] Instance Source_eq_dec : EqDecision Source.
Proof. solve_decision. Defined.

(** [c.source === "explicit"] *)
Definition isExplicit (s : Source) : bool := bool_decide (s = explicit).

Record Candidate : Type := mkCandidate { url : string; source : Source }.

(** A prepared portal: [{ raw, sparqlCandidates }]. *)
Record Prepared (R : Type) : Type := mkPrepared {
  raw : R;
  sparqlCandidates : list Candidate
}.
Arguments mkPrepared {R} raw sparqlCandidates.
Arguments raw {R} p.
Arguments sparqlCandidates {R} p.

Record VerifiedEndpoint : Type := mkVerified {
  v_url : string;
  v_source : Source;
  v_mode : option Mode
}.

(** The selection reads only the field [source] of an entry. *)
Class HasSource (A : Type) : Type := source_of : A -> Source.
#[global] Instance Candidate_source : HasSource Candidate := source.
#[global] Instance Verified_source : HasSource VerifiedEndpoint := v_source.

Definition choosePreferred {A} `{HasSource A} (candidates : list A) : option A :=
  match List.find (fun c => isExplicit (source_of c)) candidates with
  | Some exp => Some exp
  | None => head candidates
  end.

(** [uniqueCandidates]: the loop with its set [seen]. *)
Definition trimUrl (u : string) : string :=
  string_of_list_ascii (Js.trim (list_ascii_of_string u)).

Fixpoint uniqueFrom (seen : gset string) (arr : list (option Candidate)) : list Candidate :=
  match arr with
  | [] => []
  | x :: arr' =>
      match x with
      | None => uniqueFrom seen arr'
      | Some c =>
          if bool_decide (url c = ""%string) then uniqueFrom seen arr'
          else
            let u := trimUrl (url c) in
            if bool_decide (u ∈ seen) then uniqueFrom seen arr'
            else mkCandidate u (source c) :: uniqueFrom ({[u]} ∪ seen) arr'
      end
  end.

Definition uniqueCandidates (arr : list (option Candidate)) : list Candidate :=
  uniqueFrom ∅ arr.

(** Derivation-only mode: the loop over the prepared portals. *)
Record CandidateRow (P : Type) : Type := mkCandidateRow {
  c_projected : P;
  c_sparqlEndpoint : option string;
  c_sparqlGuessed : option bool;
  c_sparqlCandidates : list Candidate
}.
Arguments mkCandidateRow {P} _ _ _ _.
Arguments c_projected {P} c.
Arguments c_sparqlEndpoint {P} c.
Arguments c_sparqlGuessed {P} c.
Arguments c_sparqlCandidates {P} c.

Section Derivation.
Context {R P : Type}.
Variable projectOutput : Prepared R -> P.
Variable strict : bool.

Definition deriveRow (p : Prepared R) : option (CandidateRow P) :=
  if length (sparqlCandidates p) =? 0 then None
  else
    let hasExplicit := existsb (fun c => isExplicit (source c)) (sparqlCandidates p) in
    if strict && negb hasExplicit then None
    else
      let chosen := choosePreferred (sparqlCandidates p) in
      Some (mkCandidateRow (projectOutput p)
              (url <$> chosen)
              ((fun c => negb (isExplicit (source c))) <$> chosen)
              (sparqlCandidates p)).

Definition deriveRows (prepared : list (Prepared R)) : list (CandidateRow P) :=
  omap deriveRow prepared.
End Derivation.

(** A JavaScript [Map] with string keys, in insertion order. *)
Section JsMap.
Context {V : Type}.

Definition Map_has (m : list (string * V)) (k : string) : bool :=
  existsb (fun kv => bool_decide (fst kv = k)) m.

Definition Map_get (m : list (string * V)) (k : string) : option V :=
  snd <$> List.find (fun kv => bool_decide (fst kv = k)) m.

Fixpoint Map_set (m : list (string * V)) (k : string) (v : V) : list (string * V) :=
  match m with
  | [] => [(k, v)]
  | kv :: m' => if bool_decide (fst kv = k) then (k, v) :: m' else kv :: Map_set m' k v
  end.

Definition Map_values (m : list (string * V)) : list V := map snd m.
End JsMap.

End Model.

(** ** 4.3 Verification engine *)

Module Engine.
Import Prober Model.

Record Task : Type := mkTask {
  portalIndex : nat;
  t_url : string;
  t_source : Source
}.

(** Where a worker stands between two steps: suspended in the [await] of
    the probe of the task it claimed, returned from its loop, or rejected
    by an exception that left it. *)
Inductive WorkerState : Type :=
| Awaiting (myIndex : nat)
| Finished
| Rejected (e : Exn).

(** The history of a run; it is not part of the program's state. *)
Inductive Event : Type :=
| Claimed (w myIndex : nat)
| Completed (w myIndex : nat)
| Faulted (w myIndex : nat) (e : Exn).

Record State : Type := mkState {
  cursor : nat;
  workers : list WorkerState;
  verifiedMap : gmap nat (list (string * VerifiedEndpoint));
  ticks : nat;
  history : list Event
}.

Record VerifiedRow (P : Type) : Type := mkVerifiedRow {
  projected : P;
  sparqlEndpoint : option string;
  sparqlGuessed : option bool;
  sparqlVerified : bool;
  sparqlVerifiedBy : option Mode;
  sparqlEndpointsVerified : list string;
  sparqlEndpointsVerifiedMeta : list VerifiedEndpoint
}.
Arguments mkVerifiedRow {P} _ _ _ _ _ _ _.
Arguments projected {P} v.
Arguments sparqlEndpoint {P} v.
Arguments sparqlGuessed {P} v.
Arguments sparqlVerified {P} v.
Arguments sparqlVerifiedBy {P} v.
Arguments sparqlEndpointsVerified {P} v.
Arguments sparqlEndpointsVerifiedMeta {P} v.

Section WithRun.
Context {R P : Type}.
Variable projectOutput : Prepared R -> P.
Variable items : list (Prepared R).
(** The outcome of [await validateSparqlEndpoint(t.url, timeoutMs)] for
    each task. *)
Variable probe : Task -> Outcome ProbeResult.
(** [concurrency] is [Number(getArgValue(args, "--concurrency") ?? 10)]. *)
Variable concurrency : Js.Number.
Variable progress : bool.
Variable strict : bool.

Definition tasksOf (i : nat) (p : Prepared R) : list Task :=
  map (fun c => mkTask i (url c) (source c)) (sparqlCandidates p).

Definition tasks : list Task := concat (imap tasksOf items).

Definition expSetOf (p : Prepared R) : gset string :=
  list_to_set (map url (List.filter (fun c => isExplicit (source c)) (sparqlCandidates p))).

Definition explicitByPortal : gmap nat (gset string) :=
  map_seq 0 (expSetOf <$> items).

Definition verifiedMap0 : gmap nat (list (string * VerifiedEndpoint)) :=
  map_seq 0 ((fun _ => []) <$> items).

(** The head of the worker's loop: [const myIndex = cursor++] and the
    test against [tasks.length], up to the [await]. *)
Definition loopHead (w : nat) (st : State) : State * WorkerState :=
  let myIndex := cursor st in
  if length tasks <=? myIndex
  then (mkState (S myIndex) (workers st) (verifiedMap st) (ticks st) (history st),
        Finished)
  else (mkState (S myIndex) (workers st) (verifiedMap st) (ticks st)
          (history st ++ [Claimed w myIndex]),
        Awaiting myIndex).

Definition setWorker (w : nat) (ws : WorkerState) (st : State) : State :=
  mkState (cursor st) (<[w := ws]> (workers st)) (verifiedMap st) (ticks st) (history st).

(** [worker()] called from [Array.from]: a new worker runs up to its
    first [await]. *)
Definition spawn (st : State) : State :=
  let w := length (workers st) in
  let '(st', ws) := loopHead w st in
  mkState (cursor st') (workers st' ++ [ws]) (verifiedMap st') (ticks st') (history st').

(** The workers that
    [Array.from({ length: Math.max(1, concurrency) }, () => worker())]
    starts: the length is read with [ToLength], and an array of 2^32
    elements or more is a [RangeError], raised before any worker starts. *)
Definition nWorkers : Outcome nat :=
  let len := Js.ToLength (Js.Math_max (Js.ofZ 1) concurrency) in
  if (4294967296 <=? len)%Z then Raise RangeError else Return (Z.to_nat len).

Definition state0 : State := mkState 0 [] verifiedMap0 0 [].

(** The state when [Array.from] has started [n] workers. *)
Definition init (n : nat) : State := Nat.iter n spawn state0.

(** The body of the loop after the [await]: the insertion of a
    successful result and the progress tick. *)
Definition recordResult (t : Task) (res : ProbeResult) (st : State) : Outcome State :=
  let tick := if progress then S (ticks st) else ticks st in
  if ok res then
    match verifiedMap st !! portalIndex t with
    | None => Raise TypeError
    | Some m =>
        let vm :=
          if negb (Map_has m (t_url t))
          then <[portalIndex t := Map_set m (t_url t)
                                   (mkVerified (t_url t) (t_source t) (mode res))]>
                 (verifiedMap st)
          else verifiedMap st in
        Return (mkState (cursor st) (workers st) vm tick (history st))
    end
  else Return (mkState (cursor st) (workers st) (verifiedMap st) tick (history st)).

Definition addEvent (e : Event) (st : State) : State :=
  mkState (cursor st) (workers st) (verifiedMap st) (ticks st) (history st ++ [e]).

(** One step: worker [w] is resumed with the outcome of its probe and
    runs to its next [await], to the end of its loop, or to the
    exception that rejects it. *)
Definition resume (w : nat) (st : State) : option State :=
  match workers st !! w with
  | Some (Awaiting myIndex) =>
      match tasks !! myIndex with
      | None => None
      | Some t =>
          match probe t with
          | Raise e => Some (setWorker w (Rejected e) (addEvent (Faulted w myIndex e) st))
          | Return res =>
              match recordResult t res st with
              | Raise e => Some (setWorker w (Rejected e) (addEvent (Faulted w myIndex e) st))
              | Return st1 =>
                  let '(st2, ws) := loopHead w (addEvent (Completed w myIndex) st1) in
                  Some (setWorker w ws st2)
              end
          end
      end
  | _ => None
  end.

Definition step (st st' : State) : Prop := exists w, resume w st = Some st'.

Definition reachable (st : State) : Prop :=
  exists n, nWorkers = Return n /\ rtc step (init n) st.

(** A run under a schedule: the workers in the order their probes
    complete.  An entry that names no suspended worker is passed over. *)
Fixpoint run (sched : list nat) (st : State) : State :=
  match sched with
  | [] => st
  | w :: sched' =>
      match resume w st with
      | Some st' => run sched' st'
      | None => run sched' st
      end
  end.

(** The selection at the end of the engine:
    [verified.find(v => v.source === "explicit") ?? verified[0]]. *)
Definition chooseVerified (verified : list VerifiedEndpoint) : option VerifiedEndpoint :=
  match List.find (fun v => isExplicit (v_source v)) verified with
  | Some v => Some v
  | None => head verified
  end.

(** The body of the final loop for portal [i]; [None] is [continue].
    [chosen.url] is read through the option: the row keeps [None]
    where the script would find no chosen entry. *)
Definition rowFor (vm : gmap nat (list (string * VerifiedEndpoint)))
    (i : nat) (item : Prepared R) : option (VerifiedRow P) :=
  let verified := Map_values (default [] (vm !! i)) in
  if length verified =? 0 then None
  else
    let expSet := default ∅ (explicitByPortal !! i) in
    let hasExplicitAny := 0 <? size expSet in
    if strict && negb hasExplicitAny then None
    else
      let chosen := chooseVerified verified in
      Some (mkVerifiedRow (projectOutput item)
              (v_url <$> chosen)
              ((fun c => negb (isExplicit (v_source c))) <$> chosen)
              true
              (chosen ≫= v_mode)
              (map v_url verified)
              verified).

Definition rows (vm : gmap nat (list (string * VerifiedEndpoint)))
    : list (VerifiedRow P) :=
  omap id (imap (rowFor vm) items).

Fixpoint firstFault (h : list Event) : option Exn :=
  match h with
  | [] => None
  | Faulted _ _ e :: _ => Some e
  | _ :: h' => firstFault h'
  end.

Definition allFinished (st : State) : bool :=
  forallb (fun ws => match ws with Finished => true | _ => false end) (workers st).

(** [await Promise.all(runners)] and the rest of the function: rejected
    as soon as one worker is rejected, the rows once every worker has
    returned, [None] while neither is the case. *)
Definition outcome (st : State) : option (Outcome (list (VerifiedRow P))) :=
  match firstFault (history st) with
  | Some e => Some (Raise e)
  | None => if allFinished st then Some (Return (rows (verifiedMap st))) else None
  end.

Definition verifyCandidatesByCandidate (sched : list nat)
    : option (Outcome (list (VerifiedRow P))) :=
  match nWorkers with
  | Return n => outcome (run sched (init n))
  | Raise e => Some (Raise e)
  end.

End WithRun.

(** ** The history of a run and its invariant

    What follows is vocabulary for the statements: projections of the
    history, the invariant that ties the history to the state, and the
    shapes a step can take. *)
Definition claimsOf (h : list Event) : list (nat * nat) :=
  omap (fun e => match e with Claimed w i => Some (w, i) | _ => None end) h.
Definition completedOf (h : list Event) : list nat :=
  omap (fun e => match e with Completed _ i => Some i | _ => None end) h.
Definition faultedOf (h : list Event) : list nat :=
  omap (fun e => match e with Faulted _ i _ => Some i | _ => None end) h.
Definition inflight (ws : list WorkerState) : list nat :=
  omap (fun s => match s with Awaiting i => Some i | _ => None end) ws.

(** The invariant of a run. *)
Section Invariants.
Context {R : Type}.
Variable items : list (Prepared R).
Variable probe : Task -> Outcome ProbeResult.
Variable progress : bool.

(** The insertion [recordResult] performs on the map of verified
    endpoints. *)
Definition insertVerified (t : Task) (res : ProbeResult)
    (vm : gmap nat (list (string * VerifiedEndpoint)))
    : gmap nat (list (string * VerifiedEndpoint)) :=
  if ok res then
    match vm !! portalIndex t with
    | Some m =>
        if Map_has m (t_url t) then vm
        else <[portalIndex t := Map_set m (t_url t)
                                  (mkVerified (t_url t) (t_source t) (mode res))]> vm
    | None => vm
    end
  else vm.

Definition applyCompleted (vm : gmap nat (list (string * VerifiedEndpoint))) (i : nat)
    : gmap nat (list (string * VerifiedEndpoint)) :=
  match tasks items !! i with
  | Some t => match probe t with
              | Return res => insertVerified t res vm
              | Raise _ => vm
              end
  | None => vm
  end.

Record Inv (st : State) : Prop := mkInv {
  inv_claims : (claimsOf (history st)).*2 = seq 0 (cursor st `min` length (tasks items));
  inv_held : (claimsOf (history st)).*2
             ≡ₚ completedOf (history st) ++ faultedOf (history st) ++ inflight (workers st);
  inv_map : verifiedMap st = foldl applyCompleted (verifiedMap0 items) (completedOf (history st));
  inv_dom : forall i, is_Some (verifiedMap st !! i) <-> i < length items;
  inv_finished : Finished ∈ workers st -> length (tasks items) <= cursor st;
  inv_faulted : faultedOf (history st) <> [] -> exists e, Rejected e ∈ workers st;
  inv_rejected : forall e, Rejected e ∈ workers st -> faultedOf (history st) <> [];
  inv_completed_probe : forall i, i ∈ completedOf (history st) ->
    exists t res, tasks items !! i = Some t /\ probe t = Return res;
  inv_faulted_probe : forall i, i ∈ faultedOf (history st) ->
    exists t e, tasks items !! i = Some t /\ probe t = Raise e
}.

End Invariants.

(** The suspended workers other than worker [w]. *)
Definition others (w : nat) (ws : list WorkerState) : list nat :=
  inflight (take w ws) ++ inflight (drop (S w) ws).

Section Shapes.
Context {R : Type}.
Variable items : list (Prepared R).
Variable probe : Task -> Outcome ProbeResult.
Variable progress : bool.

(** The two shapes of a step. *)
Inductive resumed (w : nat) (st st' : State) : Prop :=
| resumed_fault i t e :
    workers st !! w = Some (Awaiting i) -> tasks items !! i = Some t ->
    (probe t = Raise e
     \/ exists res, probe t = Return res /\ recordResult progress t res st = Raise e) ->
    st' = setWorker w (Rejected e) (addEvent (Faulted w i e) st) ->
    resumed w st st'
| resumed_ok i t res st1 st2 ws :
    workers st !! w = Some (Awaiting i) -> tasks items !! i = Some t ->
    probe t = Return res -> recordResult progress t res st = Return st1 ->
    loopHead items w (addEvent (Completed w i) st1) = (st2, ws) ->
    st' = setWorker w ws st2 ->
    resumed w st st'.
End Shapes.



Definition settledCount (st : State) : nat :=
  length (completedOf (history st)) + length (faultedOf (history st)).

(** At most one verified endpoint per URL, filed under its own URL. *)
Definition oneEntryPerUrl (m : list (string * VerifiedEndpoint)) : Prop :=
  NoDup m.*1 /\ forall k v, (k, v) ∈ m -> v_url v = k.

Definition AtMostOnePerUrl (st : State) : Prop :=
  forall i m, verifiedMap st !! i = Some m -> oneEntryPerUrl m.

(** The entry a completed task leaves in the verified set of portal [i]. *)
Definition entryOf {R} (items : list (Prepared R)) (probe : Task -> Outcome ProbeResult)
    (i idx : nat) : option (string * VerifiedEndpoint) :=
  match tasks items !! idx with
  | Some t =>
      if bool_decide (portalIndex t = i) then
        match probe t with
        | Return res =>
            if ok res then Some (t_url t, mkVerified (t_url t) (t_source t) (mode res))
            else None
        | Raise _ => None
        end
      else None
  | None => None
  end.

Definition insertEntry (m : list (string * VerifiedEndpoint))
    (e : string * VerifiedEndpoint) : list (string * VerifiedEndpoint) :=
  if Map_has m (fst e) then m else Map_set m (fst e) (snd e).

Definition taskKey (t : Task) : nat * string := (portalIndex t, t_url t).

(** The choice among the verified endpoints does not depend on their
    order: one verified explicit endpoint, or one verified endpoint. *)
Definition singleChoice (l : list VerifiedEndpoint) : Prop :=
  length (List.filter (fun v => isExplicit (v_source v)) l) = 1 \/ length l = 1.

Section RowAgreement.
Context {P : Type}.

(** What two rows for the same portal agree on when their verified
    sets are equal as sets. *)
Definition rowsAgree (v1 : list VerifiedEndpoint)
    (o1 o2 : option (VerifiedRow P)) : Prop :=
  match o1, o2 with
  | Some r1, Some r2 =>
      projected r1 = projected r2
      /\ sparqlGuessed r1 = sparqlGuessed r2
      /\ sparqlVerified r1 = sparqlVerified r2
      /\ sparqlEndpointsVerifiedMeta r1 ≡ₚ sparqlEndpointsVerifiedMeta r2
      /\ sparqlEndpointsVerified r1 ≡ₚ sparqlEndpointsVerified r2
      /\ (singleChoice v1 ->
          sparqlEndpoint r1 = sparqlEndpoint r2
          /\ sparqlVerifiedBy r1 = sparqlVerifiedBy r2)
  | None, None => True
  | _, _ => False
  end.
End RowAgreement.

End Engine.

(** ** Concrete portals, probes and hosts *)

Module Scenarios.
Import Js Classifier Prober Model Engine.

(** A portal whose two guessed candidates both answer. *)
Definition twoGuesses : list (Prepared unit) :=
  [mkPrepared tt [mkCandidate "https://x.org/sparql" guessed;
                  mkCandidate "https://x.org/sparql/" guessed]].

Definition alwaysAskGet (t : Task) : Outcome ProbeResult :=
  Return (mkProbe true (Some ask_get)).

(** The portal of the end-to-end scenarios: an explicit and a guessed
    candidate. *)
Definition xOrg : list (Prepared unit) :=
  [mkPrepared tt [mkCandidate "https://x.org/sparql" explicit;
                  mkCandidate "https://x.org/query" guessed]].

Definition explicitAnswers (t : Task) : Outcome ProbeResult :=
  if bool_decide (t_url t = "https://x.org/sparql")
  then Return (mkProbe true (Some ask_get))
  else Return (mkProbe false None).

Definition guessAnswers (t : Task) : Outcome ProbeResult :=
  if bool_decide (t_url t = "https://x.org/query")
  then Return (mkProbe true (Some ask_post))
  else Return (mkProbe false None).

Definition nobodyAnswers (t : Task) : Outcome ProbeResult :=
  Return (mkProbe false None).


Definition sequentialRun : State :=
  run twoGuesses alwaysAskGet false [0; 0] (init twoGuesses 1).
Definition overtakingRun : State :=
  run twoGuesses alwaysAskGet false [1; 0] (init twoGuesses 2).

Definition quote : ascii := ascii_of_nat 34.

(** A body that passes the JSON acknowledgment check, served as HTML. *)
Definition jsonAskBody : text :=
  str "{" ++ [quote] ++ str "boolean" ++ [quote] ++ str ": true}".

Definition parseAskBody (t : text) : option JsonValue :=
  if bool_decide (t = jsonAskBody) then Some (JObject [(str "boolean", JBool true)])
  else None.

Definition htmlFetch (log : list Request) (req : Request) (timeoutMs : Z) : option Response :=
  Some (mkResponse true (Some (str "text/html; charset=utf-8")) (Some jsonAskBody)).

Definition xmlFetch (log : list Request) (req : Request) (timeoutMs : Z) : option Response :=
  Some (mkResponse true (Some (str "application/sparql-results+xml"))
          (Some (str "<?xml version='1.0'?>" ++ askDocument ++ []))).

Definition sameUrl (endpoint : string) (ask : text) : option string := Some endpoint.

(** A page that quotes the acknowledgment document, served with the
    content type of the end-to-end scenario. *)
Definition pageBody : text :=
  str "<html><body><pre>" ++ askDocument ++ str "</pre></body></html>".

Definition pageFetch (log : list Request) (req : Request) (timeoutMs : Z) : option Response :=
  Some (mkResponse true (Some (str "application/sparql-results+xml")) (Some pageBody)).

Definition onlyGuessVerified : gmap nat (list (string * VerifiedEndpoint)) :=
  verifiedMap (run xOrg guessAnswers false [0; 1] (init xOrg 2)).

End Scenarios.

(** ** The command line and the selection of records *)

Module Cli.
Import Js.

(** [a.indexOf(key)]; [None] is [-1]. *)
Fixpoint indexOf (a : list string) (key : string) : option nat :=
  match a with
  | [] => None
  | x :: a' => if bool_decide (x = key) then Some 0 else S <$> indexOf a' key
  end.

Definition getArgValue (a : list string) (key : string) : option string :=
  match indexOf a key with
  | None => None
  | Some i => a !! (i + 1)
  end.

(** [eqCI]; an argument that is not a string is [None]. *)
Definition eqCI (a b : option text) : bool :=
  match a, b with
  | Some a, Some b => bool_decide (toLowerCase (trim a) = toLowerCase (trim b))
  | _, _ => false
  end.

(** [countryFilter ? records.filter(...) : records] *)
Definition selectRecords {R} (inCountryEn : R -> option text) (countryFilter : text)
    (records : list R) : list R :=
  if bool_decide (countryFilter = []) then records
  else List.filter (fun p => eqCI (inCountryEn p) (Some countryFilter)) records.

End Cli.

(** ** The candidates of a portal *)

Module Portal.
Import Js Model.

(** The fields of a portal record that the derivation reads; a field
    that is missing or is not a string is [None]. *)
Record Fields : Type := mkFields {
  sparql_endpoint : option string;
  sparql_url : option string;
  sparql_details : option string;
  p_url : option string
}.

Definition commonEndpointPaths : list string :=
  [ "/sparql"; "/sparql/"; "/sparql-endpoint"; "/sparqlendpoint"; "/sparqlEndpoint";
    "/sparql/endpoint"; "/sparql/query"; "/endpoint/sparql"; "/api/sparql"; "/rdf/sparql";
    "/query"; "/query/sparql"; "/virtuoso/sparql"; "/blazegraph/sparql"; "/bigdata/sparql";
    "/fuseki/sparql" ]%string.

Definition isSlash (c : ascii) : bool := eqChar c "/"%char.

Fixpoint dropSlashes (s : text) : text :=
  match s with
  | c :: s' => if isSlash c then dropSlashes s' else s
  | [] => []
  end.

(** [s.replace(/\/+$/g, "")]: the run of slashes at the end is removed. *)
Definition stripTrailingSlashes (s : text) : text := rev (dropSlashes (rev s)).

Section WithUrlParser.

(** [new URL(s).protocol]; [None] when the constructor throws. *)
Variable URL_protocol : string -> option string.

Definition isHttpUrl (s : option string) : bool :=
  match s with
  | None => false
  | Some s =>
      match URL_protocol (trimUrl s) with
      | Some u => bool_decide (u = "http:"%string) || bool_decide (u = "https:"%string)
      | None => false
      end
  end.

Definition normalizeBaseUrl (s : option string) : option string :=
  if negb (isHttpUrl s) then None
  else
    Some (string_of_list_ascii
            (stripTrailingSlashes (trim (list_ascii_of_string (default ""%string s))))).

(** [[...].filter(isHttpUrl).map(u => ({url: u.trim(), source: "explicit"}))] *)
Definition explicitCandidates (p : Fields) : list Candidate :=
  omap (fun f => if isHttpUrl f
                 then Some (mkCandidate (trimUrl (default ""%string f)) explicit)
                 else None)
       [sparql_endpoint p; sparql_url p; sparql_details p].

Definition guessedCandidates (p : Fields) : list Candidate :=
  match normalizeBaseUrl (p_url p) with
  | Some base =>
      if bool_decide (base = ""%string) then []
      else (fun suffix => mkCandidate (base +:+ suffix) guessed) <$> commonEndpointPaths
  | None => []
  end.

Definition collectCandidates (p : Fields) : list Candidate :=
  uniqueCandidates (Some <$> (explicitCandidates p ++ guessedCandidates p)).

Definition preparePortal (p : Fields) : Prepared Fields :=
  mkPrepared p (collectCandidates p).

End WithUrlParser.

(** A candidate as [uniqueCandidates] pushes it. *)
Definition pushed (c : Candidate) : Candidate := mkCandidate (trimUrl (url c)) (source c).

End Portal.

(** ** More vocabulary for the runs of the engine *)

Module Runs.
Import Prober Model Engine.

(** [prepared.reduce((sum, p) => sum + (p.sparqlCandidates?.length ?? 0), 0)] *)
Definition totalCandidates {R} (prepared : list (Prepared R)) : nat :=
  foldl (fun sum p => sum + length (sparqlCandidates p)) 0 prepared.

(** The entry a task leaves in the verified set of portal [i]. *)
Definition taskEntry (probe : Task -> Outcome ProbeResult) (i : nat) (t : Task)
    : option (string * VerifiedEndpoint) :=
  if bool_decide (portalIndex t = i) then
    match probe t with
    | Return res =>
        if ok res then Some (t_url t, mkVerified (t_url t) (t_source t) (mode res))
        else None
    | Raise _ => None
    end
  else None.

(** Two states that differ in the count of progress ticks at most. *)
Definition sameButTicks (st st' : State) : Prop :=
  cursor st = cursor st' /\ workers st = workers st'
  /\ verifiedMap st = verifiedMap st' /\ history st = history st'.

(** The progress counter stands at the number of completed tasks. *)
Definition ticksCount (progress : bool) (st : State) : Prop :=
  ticks st = if progress then length (completedOf (history st)) else 0.

(** One worker: the tasks [0 .. n-1] are completed, in this order, and
    the worker waits for task [n], has returned after the last task, or
    is rejected. *)
Definition inTaskOrder {R} (items : list (Prepared R)) (st : State) : Prop :=
  exists n, completedOf (history st) = seq 0 n
    /\ ((workers st = [Awaiting n] /\ cursor st = S n /\ n < length (tasks items))
        \/ (workers st = [Finished] /\ n = length (tasks items))
        \/ (exists e, workers st = [Rejected e])).

(** The verdicts of the probes on what [fetchText] returns. *)
Definition askVerdict (JSON_parse : Js.text -> option Classifier.JsonValue)
    (r : FetchText) : bool :=
  match ft_res r with
  | Some res =>
      res_ok res
      && negb (Classifier.looksLikeHtml (Some (ft_ct r)) (Some (ft_text r)))
      && (Classifier.looksLikeJsonAsk JSON_parse (ft_text r)
          || Classifier.looksLikeXmlAsk (Some (ft_text r)))
  | None => false
  end.

(** The content types [isRdfContentType] knows and the markers
    [looksLikeServiceDescription] looks for, in lower case. *)
Definition rdfContentTypes : list string :=
  [ "text/turtle"; "application/rdf+xml"; "application/ld+json"; "application/n-triples";
    "application/n-quads"; "text/n3"; "application/trig" ]%string.

Definition descriptionMarkers : list string :=
  [ "http://www.w3.org/ns/sparql-service-description#"; "sd:service"; "sd:endpoint";
    "void:sparqlendpoint" ]%string.

Definition htmlOpenings : list string := [ "<!doctype html"; "<html" ]%string.

Definition descriptionVerdict (r : FetchText) : bool :=
  match ft_res r with
  | Some res =>
      res_ok res
      && Classifier.isRdfContentType (Some (ft_ct r))
      && negb (Classifier.looksLikeHtml (Some (ft_ct r)) (Some (ft_text r)))
      && Classifier.looksLikeServiceDescription (Some (ft_text r))
  | None => false
  end.

(** An answer of the network that no strategy can accept: the request
    fails, the body cannot be read, the status is not a success, or the
    response looks like HTML. *)
Definition unusable (o : option Response) : Prop :=
  match o with
  | None => True
  | Some res =>
      res_text res = None
      \/ res_ok res = false
      \/ Classifier.looksLikeHtml (Some (Js.orEmpty (res_contentType res)))
           (Some (Js.orEmpty (res_text res))) = true
  end.

End Runs.

(** A host for the concrete portals: every URL that starts with
    [http] counts as one. *)
Module Hosts.
Import Js Model Portal Engine Scenarios.

Definition httpOnly (s : string) : option string :=
  if String.prefix "https://" s then Some "https:"%string
  else if String.prefix "http://" s then Some "http:"%string
  else None.

Definition bareOrg : Fields :=
  mkFields None None None (Some " https://x.org// "%string).

Definition args : list string :=
  [ "in.json"; "out.json"; "--timeout"; "--check"; "--timeout"; "500" ]%string.

Definition curatedOrg : Fields :=
  mkFields (Some "https://x.org/sparql"%string) None
           (Some "not a url"%string) (Some "https://x.org/"%string).

(** A run of three workers on the candidates of [curatedOrg], every
    probe answering. *)
Definition curatedRun : State :=
  run (preparePortal httpOnly <$> [curatedOrg]) alwaysAskGet false
    (concat (replicate 6 [0; 1; 2]))
    (init (preparePortal httpOnly <$> [curatedOrg]) 3).

End Hosts.

Import Js Regex Classifier Prober Model Engine Scenarios.
Import Cli Portal Runs Hosts.

(** * Properties *)

(** ** The matcher and the words it accepts *)

Lemma eqChar_true a b : eqChar a b = true <-> a = b.
Proof. unfold eqChar. apply Ascii.eqb_eq. Qed.

Lemma lastOr_nil prev : lastOr prev [] = prev.
Proof. reflexivity. Qed.

Lemma lastOr_cons prev x w : lastOr prev (x :: w) = lastOr (Some x) w.
Proof.
  unfold lastOr. destruct w as [|y w]; [reflexivity|].
  change (last (x :: y :: w)) with (last (y :: w)).
  destruct (last (y :: w)) eqn:E; [reflexivity|].
  apply last_None in E. discriminate.
Qed.

Lemma lastOr_app prev w1 w2 : lastOr (lastOr prev w1) w2 = lastOr prev (w1 ++ w2).
Proof.
  revert prev. induction w1 as [|x w1 IH]; intros prev; [reflexivity|].
  simpl app. rewrite !lastOr_cons. apply IH.
Qed.

Lemma starClass_spec p k prev s :
  starClass p k prev s = true <->
  exists w s', s = w ++ s' /\ forallb p w = true /\ k (lastOr prev w) s' = true.
Proof.
  revert prev. induction s as [|x s IH]; intros prev; simpl.
  - split.
    + intros H. exists [], []. auto.
    + intros (w & s' & E & _ & H). symmetry in E. apply app_eq_nil in E as [-> ->]. exact H.
  - rewrite orb_true_iff, andb_true_iff, IH. split.
    + intros [[Hp (w & s' & -> & Hw & Hk)] | Hk].
      * exists (x :: w), s'. simpl. rewrite Hp, Hw, lastOr_cons. auto.
      * exists [], (x :: s). auto.
    + intros (w & s' & E & Hw & Hk). destruct w as [|y w].
      * right. simpl in E. subst s'. exact Hk.
      * simpl in E. injection E as <- ->. simpl in Hw. apply andb_true_iff in Hw as [Hp Hw].
        left. split; [exact Hp|]. exists w, s'. rewrite lastOr_cons in Hk. auto.
Qed.

Lemma rmatch_spec r : forall prev s k,
  rmatch r prev s k = true <->
  exists w s', s = w ++ s' /\ denote r prev w s' /\ k (lastOr prev w) s' = true.
Proof.
  induction r as [|c|p|p| |r1 IH1 r2 IH2|r1 IH1 r2 IH2]; intros prev s k; simpl.
  - split.
    + intros H. exists [], s. auto.
    + intros (w & s' & -> & -> & H). exact H.
  - destruct s as [|x s].
    + split; [discriminate|]. intros (w & s' & E & (y & -> & _) & _). discriminate.
    + rewrite andb_true_iff, eqChar_true. split.
      * intros [Hc Hk]. exists [x], s. eauto.
      * intros (w & s' & E & (y & -> & Hc) & Hk). simpl in E. injection E as -> ->. auto.
  - destruct s as [|x s].
    + split; [discriminate|]. intros (w & s' & E & (y & -> & _) & _). discriminate.
    + rewrite andb_true_iff. split.
      * intros [Hc Hk]. exists [x], s. eauto.
      * intros (w & s' & E & (y & -> & Hc) & Hk). simpl in E. injection E as -> ->. auto.
  - apply starClass_spec.
  - rewrite andb_true_iff. split.
    + intros [Hb Hk]. exists [], s. auto.
    + intros (w & s' & -> & [-> Hb] & Hk). auto.
  - rewrite IH1. split.
    + intros (w1 & s1 & -> & H1 & H2). apply IH2 in H2 as (w2 & s2 & -> & H2 & Hk).
      exists (w1 ++ w2), s2. rewrite <- app_assoc, <- lastOr_app. eauto 10.
    + intros (w & s' & -> & (w1 & w2 & -> & H1 & H2) & Hk).
      exists w1, (w2 ++ s'). rewrite <- app_assoc. split; [reflexivity|]. split; [exact H1|].
      apply IH2. exists w2, s'. rewrite lastOr_app. auto.
  - rewrite orb_true_iff, IH1, IH2. split.
    + intros [(w & s' & ? & ? & ?)|(w & s' & ? & ? & ?)]; exists w, s'; auto.
    + intros (w & s' & ? & [?|?] & ?); [left|right]; exists w, s'; auto.
Qed.

Lemma scanFrom_spec r : forall s prev,
  scanFrom r prev s = true <->
  exists pre w post, s = pre ++ w ++ post /\ denote r (lastOr prev pre) w post.
Proof.
  induction s as [|x s IH]; intros prev; simpl; rewrite orb_true_iff, rmatch_spec.
  - split.
    + intros [(w & s' & E & H & _)|]; [|discriminate]. exists [], w, s'. auto.
    + intros (pre & w & post & E & H). left.
      destruct pre; [|discriminate]. exists w, post. auto.
  - rewrite IH. split.
    + intros [(w & s' & E & H & _)|(pre & w & post & -> & H)].
      * exists [], w, s'. auto.
      * exists (x :: pre), w, post. rewrite lastOr_cons. auto.
    + intros (pre & w & post & E & H). destruct pre as [|y pre].
      * left. exists w, post. auto.
      * right. simpl in E. injection E as <- ->. rewrite lastOr_cons in H. eauto.
Qed.

Lemma denote_lit l : forall prev w rest, denote (lit l) prev w rest <-> ci w l.
Proof.
  unfold ci. induction l as [|c l IH]; intros prev w rest; simpl.
  - split; [intros ->; reflexivity|]. destruct w; [reflexivity|discriminate].
  - split.
    + intros (w1 & w2 & -> & (x & -> & Hc) & H2). apply IH in H2. simpl. congruence.
    + destruct w as [|x w]; [discriminate|]. simpl. intros E. injection E as Hc Hw.
      exists [x], w. split; [reflexivity|]. split; [eauto|]. apply IH. exact Hw.
Qed.

Lemma denote_seq r1 r2 prev w rest :
  denote (RSeq r1 r2) prev w rest <->
  exists w1 w2, w = w1 ++ w2 /\ denote r1 prev w1 (w2 ++ rest)
                /\ denote r2 (lastOr prev w1) w2 rest.
Proof. reflexivity. Qed.

Lemma isWordChar_canon x : isWordChar (canon x) = isWordChar x.
Proof. destruct x as [[] [] [] [] [] [] [] []]; vm_compute; reflexivity. Qed.

Lemma canon_gt x : canon x = canon ">"%char -> x = ">"%char.
Proof.
  destruct x as [[] [] [] [] [] [] [] []]; vm_compute; intros E;
    first [discriminate E | reflexivity].
Qed.

Lemma anyChar_true x : anyChar x = true.
Proof. unfold anyChar. apply orb_negb_r. Qed.

Lemma forallb_anyChar w : forallb anyChar w = true.
Proof. induction w; simpl; [reflexivity|]. rewrite anyChar_true. assumption. Qed.

Lemma ci_length w l : ci w l -> length w = length l.
Proof. unfold ci. intros H. apply (f_equal length) in H. rewrite !length_map in H. exact H. Qed.

Lemma ci_app a x b y : ci a x -> ci b y -> ci (a ++ b) (x ++ y).
Proof. unfold ci. rewrite !map_app. congruence. Qed.

Lemma ci_app_inv w x y :
  ci w (x ++ y) -> exists a b, w = a ++ b /\ ci a x /\ ci b y.
Proof.
  unfold ci. revert w. induction x as [|c x IH]; intros w H; simpl in *.
  - exists [], w. auto.
  - destruct w as [|d w]; [discriminate|]. simpl in H. injection H as Hc Hw.
    destruct (IH w Hw) as (a & b & -> & Ha & Hb).
    exists (d :: a), b. simpl. split; [reflexivity|]. split; [congruence|exact Hb].
Qed.

Lemma ci_last_word w l x :
  ci w l -> last l = Some x -> isWordChar x = true ->
  forall prev, isWordAt (lastOr prev w) = true.
Proof.
  intros H Hl Hx prev. apply last_Some in Hl as [l' ->].
  apply ci_app_inv in H as (a & b & -> & _ & Hb).
  destruct b as [|y [|z b]]; try discriminate Hb.
  injection Hb as Hy. unfold lastOr. rewrite last_snoc. simpl.
  rewrite <- isWordChar_canon, Hy, isWordChar_canon. exact Hx.
Qed.

Lemma head_attrs_gt attrs tl :
  isWordAt (head (attrs ++ ">"%char :: tl)) = isWordAt (head attrs).
Proof. destruct attrs; reflexivity. Qed.

Lemma xmlAsk_denote prev w post :
  denote xmlAskPattern prev w post <->
  exists op attrs mid1 el mid2 cl,
    w = op ++ attrs ++ str ">" ++ mid1 ++ el ++ mid2 ++ cl
    /\ ci op (str "<sparql")
    /\ isWordAt (head attrs) = false
    /\ forallb notGt attrs = true
    /\ (ci el (str "<boolean>true</boolean>") \/ ci el (str "<boolean>false</boolean>"))
    /\ ci cl (str "</sparql>").
Proof.
  unfold xmlAskPattern. split.
  - intros H.
    apply denote_seq in H as (op & w1 & -> & Hop & H). apply denote_lit in Hop.
    apply denote_seq in H as (wb & w2 & -> & [-> Hb] & H).
    apply denote_seq in H as (attrs & w3 & -> & Hattrs & H).
    apply denote_seq in H as (gt & w4 & -> & (g & -> & Hg) & H).
    apply canon_gt in Hg as ->.
    apply denote_seq in H as (mid1 & w5 & -> & _ & H).
    apply denote_seq in H as (bo & w6 & -> & Hbo & H). apply denote_lit in Hbo.
    apply denote_seq in H as (b & w7 & -> & Hbv & H).
    apply denote_seq in H as (bc & w8 & -> & Hbc & H). apply denote_lit in Hbc.
    apply denote_seq in H as (mid2 & cl & -> & _ & Hcl). apply denote_lit in Hcl.
    exists op, attrs, mid1, (bo ++ b ++ bc), mid2, cl.
    split; [simpl; rewrite <- !app_assoc; reflexivity|].
    split; [exact Hop|].
    split.
    { rewrite (ci_last_word op _ "l"%char Hop) in Hb by reflexivity.
      simpl app in Hb. rewrite <- !app_assoc in Hb. simpl app in Hb.
      rewrite head_attrs_gt in Hb. destruct (isWordAt (head attrs)); [discriminate|reflexivity]. }
    split; [exact Hattrs|].
    split; [|exact Hcl].
    destruct Hbv as [Hb'|Hb']; apply denote_lit in Hb'; [left|right].
    + apply (ci_app bo (str "<boolean>") (b ++ bc) (str "true" ++ str "</boolean>")); [exact Hbo|].
      apply ci_app; assumption.
    + apply (ci_app bo (str "<boolean>") (b ++ bc) (str "false" ++ str "</boolean>")); [exact Hbo|].
      apply ci_app; assumption.
  - intros (op & attrs & mid1 & el & mid2 & cl & -> & Hop & Hw & Hattrs & Hel & Hcl).
    assert (Hsplit : exists bo b bc, el = bo ++ b ++ bc /\ ci bo (str "<boolean>")
              /\ (ci b (str "true") \/ ci b (str "false")) /\ ci bc (str "</boolean>")).
    { destruct Hel as [Hel|Hel].
      - apply (ci_app_inv el (str "<boolean>") (str "true" ++ str "</boolean>")) in Hel
          as (bo & r & -> & Hbo & Hr).
        apply ci_app_inv in Hr as (b & bc & -> & Hb' & Hbc). eauto 10.
      - apply (ci_app_inv el (str "<boolean>") (str "false" ++ str "</boolean>")) in Hel
          as (bo & r & -> & Hbo & Hr).
        apply ci_app_inv in Hr as (b & bc & -> & Hb' & Hbc). eauto 10. }
    destruct Hsplit as (bo & b & bc & -> & Hbo & Hbv & Hbc).
    apply denote_seq. exists op, (attrs ++ str ">" ++ mid1 ++ (bo ++ b ++ bc) ++ mid2 ++ cl).
    split; [reflexivity|]. split; [apply denote_lit; exact Hop|].
    apply denote_seq. exists [], (attrs ++ str ">" ++ mid1 ++ (bo ++ b ++ bc) ++ mid2 ++ cl).
    split; [reflexivity|]. split.
    { split; [reflexivity|].
      rewrite (ci_last_word op _ "l"%char Hop) by reflexivity.
      simpl app. rewrite <- !app_assoc. simpl app.
      rewrite head_attrs_gt, Hw. reflexivity. }
    apply denote_seq. exists attrs, (str ">" ++ mid1 ++ (bo ++ b ++ bc) ++ mid2 ++ cl).
    split; [reflexivity|]. split; [exact Hattrs|].
    apply denote_seq. exists (str ">"), (mid1 ++ (bo ++ b ++ bc) ++ mid2 ++ cl).
    split; [reflexivity|]. split; [exists ">"%char; split; reflexivity|].
    apply denote_seq. exists mid1, ((bo ++ b ++ bc) ++ mid2 ++ cl).
    split; [reflexivity|]. split; [apply forallb_anyChar|].
    apply denote_seq. exists bo, (b ++ bc ++ mid2 ++ cl).
    split; [rewrite <- !app_assoc; reflexivity|]. split; [apply denote_lit; exact Hbo|].
    apply denote_seq. exists b, (bc ++ mid2 ++ cl).
    split; [reflexivity|]. split.
    { destruct Hbv as [Hb'|Hb']; [left|right]; apply denote_lit; exact Hb'. }
    apply denote_seq. exists bc, (mid2 ++ cl).
    split; [reflexivity|]. split; [apply denote_lit; exact Hbc|].
    apply denote_seq. exists mid2, cl.
    split; [reflexivity|]. split; [apply forallb_anyChar|].
    apply denote_lit. exact Hcl.
Qed.

(** What the matcher identifies, said without it. *)
Lemma ascii_of_code n m : n < 256 -> m < 256 -> ascii_of_nat n = ascii_of_nat m -> n = m.
Proof.
  intros Hn Hm E. apply (f_equal nat_of_ascii) in E.
  rewrite !nat_ascii_embedding in E by assumption. exact E.
Qed.

Lemma code_inj x c : nat_of_ascii x = nat_of_ascii c -> x = c.
Proof.
  intros E. rewrite <- (ascii_nat_embedding x), <- (ascii_nat_embedding c), E. reflexivity.
Qed.

Lemma lowerCode n : (97 <=? n) && (n <=? 122) = true <-> 97 <= n <= 122.
Proof. rewrite andb_true_iff, !Nat.leb_le. tauto. Qed.

Lemma canon_reads x c :
  ~ (65 <= nat_of_ascii c <= 90) -> canon x = canon c <-> readsChar x c.
Proof.
  intros Hup. unfold canon, readsChar, code.
  pose proof (nat_ascii_bounded x) as Bx. pose proof (nat_ascii_bounded c) as Bc.
  pose proof (lowerCode (nat_of_ascii x)) as Lx. pose proof (lowerCode (nat_of_ascii c)) as Lc.
  destruct ((97 <=? nat_of_ascii x) && (nat_of_ascii x <=? 122));
    destruct ((97 <=? nat_of_ascii c) && (nat_of_ascii c <=? 122)).
  - pose proof (proj1 Lx eq_refl). pose proof (proj1 Lc eq_refl). split.
    + intros E. apply ascii_of_code in E; [|lia|lia]. left. apply code_inj. lia.
    + intros [->|[_ H1]]; [reflexivity|lia].
  - pose proof (proj1 Lx eq_refl).
    assert (~ 97 <= nat_of_ascii c <= 122) by (intros H1; apply Lc in H1; discriminate).
    split.
    + intros E. exfalso. apply Hup. rewrite <- E, nat_ascii_embedding by lia. lia.
    + intros [E|[H1 _]]; [subst x|]; exfalso; lia.
  - pose proof (proj1 Lc eq_refl).
    assert (~ 97 <= nat_of_ascii x <= 122) by (intros H1; apply Lx in H1; discriminate).
    split.
    + intros ->. right. rewrite nat_ascii_embedding by lia. lia.
    + intros [E|[_ H1]]; [subst x; exfalso; lia|].
      apply code_inj. rewrite nat_ascii_embedding by lia. lia.
  - assert (~ 97 <= nat_of_ascii c <= 122) by (intros H1; apply Lc in H1; discriminate).
    split.
    + intros ->. left. reflexivity.
    + intros [E|[H1 _]]; [exact E|exfalso; lia].
Qed.

Lemma ci_reads w l :
  Forall (fun c => ~ (65 <= nat_of_ascii c <= 90)) l -> ci w l <-> Forall2 readsChar w l.
Proof.
  unfold ci. intros Hl. revert w. induction Hl as [|c l Hc Hl IH]; intros w.
  - destruct w as [|x w]; simpl.
    + split; [intros _; constructor|reflexivity].
    + split; [discriminate|]. intros H. inversion H.
  - destruct w as [|x w]; simpl.
    + split; [discriminate|]. intros H. inversion H.
    + split.
      * intros [= E1 E2]. constructor; [apply canon_reads; assumption|apply IH; exact E2].
      * intros H. inversion H as [|? ? ? ? H1 H2]; subst. f_equal.
        -- apply canon_reads; assumption.
        -- apply IH. exact H2.
Qed.

Lemma not_capital_tag l :
  forallb (fun c => negb ((65 <=? nat_of_ascii c) && (nat_of_ascii c <=? 90))) l = true ->
  Forall (fun c => ~ (65 <= nat_of_ascii c <= 90)) l.
Proof.
  rewrite forallb_forall, Forall_forall. intros H c Hc. apply list_elem_of_In in Hc.
  specialize (H c Hc). apply negb_true_iff in H. intros [H1 H2].
  apply Nat.leb_le in H1, H2. rewrite H1, H2 in H. discriminate.
Qed.

Ltac lower_case_tag := apply not_capital_tag; vm_compute; reflexivity.

Lemma ci_reads_tag w (tag : string) :
  Forall (fun c => ~ (65 <= nat_of_ascii c <= 90)) (str tag) -> ci w (str tag) <-> reads w tag.
Proof. apply ci_reads. Qed.

Lemma isWordChar_nameChar c : isWordChar c = true <-> nameChar c.
Proof.
  unfold isWordChar, nameChar, code.
  rewrite !orb_true_iff, !andb_true_iff, !Nat.leb_le, Nat.eqb_eq. tauto.
Qed.

Lemma isWordAt_false o : isWordAt o = false <-> forall c, o = Some c -> ~ nameChar c.
Proof.
  destruct o as [x|]; simpl.
  - rewrite <- not_true_iff_false, isWordChar_nameChar. split.
    + intros H c [= <-]. exact H.
    + intros H. apply H. reflexivity.
  - split; [intros _ c; discriminate|reflexivity].
Qed.

Lemma notGt_Forall attrs :
  forallb notGt attrs = true <-> Forall (fun c => c <> ">"%char) attrs.
Proof.
  rewrite forallb_forall, Forall_forall. unfold notGt.
  split; intros H c Hc.
  - apply list_elem_of_In in Hc. specialize (H c Hc). apply negb_true_iff in H.
    intros ->. rewrite (proj2 (eqChar_true _ _) eq_refl) in H. discriminate.
  - apply list_elem_of_In in Hc. specialize (H c Hc). apply negb_true_iff.
    apply not_true_iff_false. rewrite eqChar_true. exact H.
Qed.

Lemma xmlAsk_shape op attrs el cl :
  (ci op (str "<sparql")
   /\ isWordAt (head attrs) = false
   /\ forallb notGt attrs = true
   /\ (ci el (str "<boolean>true</boolean>") \/ ci el (str "<boolean>false</boolean>"))
   /\ ci cl (str "</sparql>"))
  <-> (reads op "<sparql"
       /\ (forall c, head attrs = Some c -> ~ nameChar c)
       /\ Forall (fun c => c <> ">"%char) attrs
       /\ (reads el "<boolean>true</boolean>" \/ reads el "<boolean>false</boolean>")
       /\ reads cl "</sparql>").
Proof.
  rewrite (ci_reads_tag op "<sparql") by lower_case_tag.
  rewrite (ci_reads_tag el "<boolean>true</boolean>") by lower_case_tag.
  rewrite (ci_reads_tag el "<boolean>false</boolean>") by lower_case_tag.
  rewrite (ci_reads_tag cl "</sparql>") by lower_case_tag.
  rewrite isWordAt_false, notGt_Forall. reflexivity.
Qed.

Lemma RegExp_test_xmlAsk t :
  RegExp_test xmlAskPattern t = true <-> isBooleanXmlAck t.
Proof.
  unfold RegExp_test, isBooleanXmlAck. rewrite scanFrom_spec. split.
  - intros (pre & w & post & -> & H). apply xmlAsk_denote in H
      as (op & attrs & mid1 & el & mid2 & cl & -> & H).
    exists pre, op, attrs, mid1, el, mid2, cl, post.
    split; [|apply xmlAsk_shape; exact H]. rewrite <- !app_assoc. reflexivity.
  - intros (pre & op & attrs & mid1 & el & mid2 & cl & post & -> & H).
    exists pre, (op ++ attrs ++ str ">" ++ mid1 ++ el ++ mid2 ++ cl), post.
    split; [rewrite <- !app_assoc; reflexivity|].
    apply xmlAsk_denote. exists op, attrs, mid1, el, mid2, cl.
    split; [reflexivity|apply xmlAsk_shape; exact H].
Qed.

(** ** The prober *)

Section ProberFacts.
Variable fetch : list Request -> Request -> Z -> option Response.
Variable URL_withQuery : string -> text -> option string.
Variable URLSearchParams_toString : text -> text.
Variable JSON_parse : text -> option JsonValue.

Lemma fetchText_returns req timeoutMs log :
  fetchText fetch req timeoutMs log
  = (Return (fetched (fetch log req timeoutMs)), log ++ [req]).
Proof.
  unfold fetchText, try_catch, await_fetch, await_text, fetched, mbind, M_bind, mret, M_ret, throw.
  destruct (fetch log req timeoutMs) as [res|]; [|reflexivity].
  destruct (res_text res); reflexivity.
Qed.

Lemma tryAskGet_returns endpoint timeoutMs log :
  exists r,
    tryAskGet fetch URL_withQuery JSON_parse endpoint (str "ASK {}") timeoutMs log
    = (Return r, log ++ getRequest URL_withQuery endpoint)
    /\ r = match URL_withQuery endpoint (str "ASK {}") with
           | Some u => askChecks JSON_parse
                         (fetched (fetch log (mkRequest GET u askAccept None None) timeoutMs))
           | None => mkStrategy false
           end.
Proof.
  unfold tryAskGet, getRequest, try_catch, new_URL_withQuery.
  unfold mbind at 1. unfold M_bind.
  destruct (URL_withQuery endpoint (str "ASK {}")) as [u|].
  - unfold mret at 1. unfold M_ret at 1. unfold mbind, M_bind.
    rewrite fetchText_returns. eexists. split; reflexivity.
  - unfold throw. eexists. rewrite app_nil_r. split; reflexivity.
Qed.

Lemma tryAskPost_returns endpoint timeoutMs log :
  tryAskPost fetch URLSearchParams_toString JSON_parse endpoint (str "ASK {}") timeoutMs log
  = (Return (askChecks JSON_parse (fetched (fetch log (postRequest URLSearchParams_toString endpoint) timeoutMs))),
     log ++ [postRequest URLSearchParams_toString endpoint]).
Proof.
  unfold tryAskPost, postRequest, mbind, M_bind. rewrite fetchText_returns. reflexivity.
Qed.

Lemma tryServiceDescription_returns endpoint timeoutMs log :
  exists r,
    tryServiceDescription fetch endpoint timeoutMs log
    = (Return r, log ++ [descriptionRequest endpoint]).
Proof.
  unfold tryServiceDescription, descriptionRequest, mbind, M_bind.
  rewrite fetchText_returns. eexists. reflexivity.
Qed.

Lemma askChecks_html b ct body :
  looksLikeHtml (Some ct) (Some body) = true ->
  askChecks JSON_parse (fetched (Some (mkResponse b (Some ct) (Some body)))) = mkStrategy false.
Proof.
  intros H. unfold askChecks, fetched. simpl. rewrite H. destruct b; reflexivity.
Qed.

Lemma askChecks_xml ct body :
  looksLikeHtml (Some ct) (Some body) = false ->
  looksLikeXmlAsk (Some body) = true ->
  askChecks JSON_parse (fetched (Some (mkResponse true (Some ct) (Some body)))) = mkStrategy true.
Proof.
  intros H1 H2. unfold askChecks, fetched. simpl. rewrite H1, H2.
  repeat match goal with |- context [if ?b then _ else _] => destruct b end; reflexivity.
Qed.

End ProberFacts.

(** Claim C2.  For every URL and timeout, and whatever the network
    answers, the prober runs the GET acknowledgment, then the POST
    acknowledgment, then the service description, each after the requests
    of the one before; it stops at the first that succeeds and returns
    its mode, and the requests of the later strategies are not issued.
    It returns [{ok: false, mode: null}] exactly when all three fail. *)
Theorem validateSparqlEndpoint_three_strategies
    (fetch : list Request -> Request -> Z -> option Response)
    (URL_withQuery : string -> text -> option string)
    (URLSearchParams_toString : text -> text)
    (JSON_parse : text -> option JsonValue)
    (endpoint : string) (timeoutMs : Z) (log : list Request) :
  let ask := str "ASK {}" in
  let validate := validateSparqlEndpoint fetch URL_withQuery URLSearchParams_toString JSON_parse in
  exists r1 r2 r3,
    let log1 := log ++ getRequest URL_withQuery endpoint in
    let log2 := log1 ++ [postRequest URLSearchParams_toString endpoint] in
    let log3 := log2 ++ [descriptionRequest endpoint] in
    tryAskGet fetch URL_withQuery JSON_parse endpoint ask timeoutMs log = (Return r1, log1)
    /\ tryAskPost fetch URLSearchParams_toString JSON_parse endpoint ask timeoutMs log1
       = (Return r2, log2)
    /\ tryServiceDescription fetch endpoint timeoutMs log2 = (Return r3, log3)
    /\ validate endpoint timeoutMs log =
         (if s_ok r1 then (Return (mkProbe true (Some ask_get)), log1)
          else if s_ok r2 then (Return (mkProbe true (Some ask_post)), log2)
          else if s_ok r3 then (Return (mkProbe true (Some service_description)), log3)
          else (Return (mkProbe false None), log3))
    /\ (fst (validate endpoint timeoutMs log) = Return (mkProbe false None)
        <-> s_ok r1 = false /\ s_ok r2 = false /\ s_ok r3 = false).
Proof.
  intros ask validate.
  destruct (tryAskGet_returns fetch URL_withQuery JSON_parse endpoint timeoutMs log)
    as (r1 & E1 & _).
  pose proof (tryAskPost_returns fetch URLSearchParams_toString JSON_parse endpoint timeoutMs
                (log ++ getRequest URL_withQuery endpoint)) as E2.
  destruct (tryServiceDescription_returns fetch endpoint timeoutMs
              ((log ++ getRequest URL_withQuery endpoint)
                 ++ [postRequest URLSearchParams_toString endpoint])) as (r3 & E3).
  eexists r1, _, r3. cbn zeta.
  split; [exact E1|]. split; [exact E2|]. split; [exact E3|].
  assert (EV : validate endpoint timeoutMs log =
    (if s_ok r1 then (Return (mkProbe true (Some ask_get)), log ++ getRequest URL_withQuery endpoint)
     else if s_ok (askChecks JSON_parse (fetched (fetch (log ++ getRequest URL_withQuery endpoint)
                     (postRequest URLSearchParams_toString endpoint) timeoutMs)))
          then (Return (mkProbe true (Some ask_post)),
                (log ++ getRequest URL_withQuery endpoint)
                  ++ [postRequest URLSearchParams_toString endpoint])
     else if s_ok r3 then (Return (mkProbe true (Some service_description)),
                ((log ++ getRequest URL_withQuery endpoint)
                  ++ [postRequest URLSearchParams_toString endpoint]) ++ [descriptionRequest endpoint])
     else (Return (mkProbe false None),
                ((log ++ getRequest URL_withQuery endpoint)
                  ++ [postRequest URLSearchParams_toString endpoint]) ++ [descriptionRequest endpoint]))).
  { subst validate ask. unfold validateSparqlEndpoint. cbn zeta.
    unfold mbind at 1. unfold M_bind at 1.
    rewrite E1. destruct (s_ok r1); [reflexivity|].
    unfold mbind at 1. unfold M_bind at 1. rewrite E2.
    destruct (s_ok _); [reflexivity|].
    unfold mbind at 1. unfold M_bind at 1. rewrite E3.
    destruct (s_ok r3); reflexivity. }
  split; [exact EV|].
  rewrite EV.
  destruct (s_ok r1); [split; [discriminate|intros [? _]; discriminate]|].
  destruct (s_ok _); [split; [discriminate|intros (_ & ? & _); discriminate]|].
  destruct (s_ok r3); [split; [discriminate|intros (_ & _ & ?); discriminate]|].
  split; auto.
Qed.

Lemma startsWith_toLowerCase sub : Forall (fun c => lowerChar c = c) sub ->
  forall s, startsWith s sub = true -> startsWith (toLowerCase s) sub = true.
Proof.
  induction 1 as [|c sub Hc Hsub IH]; intros s; [destruct s; reflexivity|].
  destruct s as [|b s]; simpl; [discriminate|].
  rewrite !andb_true_iff, !eqChar_true. intros [-> Hs]. split; [symmetry; exact Hc|].
  apply IH. exact Hs.
Qed.

Lemma includes_toLowerCase sub : Forall (fun c => lowerChar c = c) sub ->
  forall s, includes s sub = true -> includes (toLowerCase s) sub = true.
Proof.
  intros Hsub. induction s as [|b s IH]; simpl; rewrite !orb_true_iff.
  - intros [H|H]; [|discriminate]. left.
    apply (startsWith_toLowerCase sub Hsub [] H).
  - intros [H|H].
    + left. apply (startsWith_toLowerCase sub Hsub (b :: s) H).
    + right. apply IH. exact H.
Qed.

Lemma text_html_lower : Forall (fun c => lowerChar c = c) (str "text/html").
Proof. repeat constructor. Qed.

Lemma looksLikeHtml_contentType ct body :
  includes ct (str "text/html") = true -> looksLikeHtml (Some ct) body = true.
Proof.
  intros H. unfold looksLikeHtml. simpl orEmpty at 1.
  rewrite (includes_toLowerCase _ text_html_lower ct H). reflexivity.
Qed.

(** Claim C3.  A response whose content type contains [text/html] looks
    like HTML whatever its body is, and both acknowledgment probes fail on
    it: also for a body that passes the JSON acknowledgment check, since
    nothing is assumed of [JSON_parse]. *)
Theorem html_response_is_never_an_acknowledgment
    (fetch : list Request -> Request -> Z -> option Response)
    (URL_withQuery : string -> text -> option string)
    (URLSearchParams_toString : text -> text)
    (JSON_parse : text -> option JsonValue)
    (endpoint : string) (ask : text) (timeoutMs : Z) (log : list Request)
    (status : bool) (ct body : text) :
  includes ct (str "text/html") = true ->
  (forall req, fetch log req timeoutMs = Some (mkResponse status (Some ct) (Some body))) ->
  looksLikeHtml (Some ct) (Some body) = true
  /\ fst (tryAskGet fetch URL_withQuery JSON_parse endpoint ask timeoutMs log)
     = Return (mkStrategy false)
  /\ fst (tryAskPost fetch URLSearchParams_toString JSON_parse endpoint ask timeoutMs log)
     = Return (mkStrategy false).
Proof.
  intros Hct Hfetch.
  pose proof (looksLikeHtml_contentType ct (Some body) Hct) as Hhtml.
  split; [exact Hhtml|]. split.
  - unfold tryAskGet, try_catch, new_URL_withQuery.
    unfold mbind at 1. unfold M_bind.
    destruct (URL_withQuery endpoint ask) as [u|]; [|reflexivity].
    unfold mret at 1. unfold M_ret at 1. unfold mbind, M_bind.
    rewrite fetchText_returns, Hfetch.
    rewrite askChecks_html by exact Hhtml. reflexivity.
  - unfold tryAskPost, mbind, M_bind.
    rewrite fetchText_returns, Hfetch.
    rewrite askChecks_html by exact Hhtml. reflexivity.
Qed.

Lemma looksLikeXmlAsk_iff body :
  looksLikeXmlAsk body = true <-> isBooleanXmlAck (take 200000 (default [] body)).
Proof. unfold looksLikeXmlAsk. apply RegExp_test_xmlAsk. Qed.

Lemma reads_itself (tag : string) : reads (str tag) tag.
Proof.
  unfold reads, str. induction (list_ascii_of_string tag) as [|c l IH]; constructor.
  - left. reflexivity.
  - exact IH.
Qed.

Lemma isBooleanXmlAck_askDocument pre post : isBooleanXmlAck (pre ++ askDocument ++ post).
Proof.
  exists pre, (str "<sparql"), [], (str "<results>"), (str "<boolean>true</boolean>"),
    (str "</results>"), (str "</sparql>"), post.
  split; [reflexivity|]. split; [apply reads_itself|]. split; [intros c; discriminate|].
  split; [constructor|]. split; [left; apply reads_itself|apply reads_itself].
Qed.

(** What lies beyond the first 200000 characters is not read. *)
Lemma looksLikeXmlAsk_cut t rest :
  200000 <= length t -> looksLikeXmlAsk (Some (t ++ rest)) = looksLikeXmlAsk (Some t).
Proof.
  intros Hlen. unfold looksLikeXmlAsk, slice0, orEmpty.
  change (default [] (Some (t ++ rest))) with (t ++ rest).
  change (default [] (Some t)) with t.
  rewrite take_app_le by exact Hlen. reflexivity.
Qed.

Lemma looksLikeXmlAsk_embedded pre post :
  length pre + length askDocument <= 200000 ->
  looksLikeXmlAsk (Some (pre ++ askDocument ++ post)) = true.
Proof.
  intros Hlen. apply looksLikeXmlAsk_iff.
  change (isBooleanXmlAck (take 200000 (pre ++ askDocument ++ post))).
  rewrite app_assoc, take_app_ge by (rewrite length_app; exact Hlen).
  rewrite <- app_assoc. apply isBooleanXmlAck_askDocument.
Qed.

(** Claim C4, as the prober has it.  [looksLikeXmlAsk] is true exactly
    when the first 200000 characters of the body have the shape
    [isBooleanXmlAck] describes, letters in either case; what lies
    beyond those characters is not read.  A successful GET response
    whose body carries the acknowledgment document makes the probe
    succeed with mode [ask_get] when the document ends within the first
    200000 characters and the response does not look like HTML, which
    the prober checks first; so does the response of the scenario,
    whose content type is [application/sparql-results+xml] and whose
    body is the document. *)
Theorem looksLikeXmlAsk_meets_its_description :
  (forall body : option text,
      looksLikeXmlAsk body = true <-> isBooleanXmlAck (take 200000 (default [] body)))
  /\ (forall t rest : text,
        200000 <= length t ->
        looksLikeXmlAsk (Some (t ++ rest)) = looksLikeXmlAsk (Some t))
  /\ (forall (fetch : list Request -> Request -> Z -> option Response)
        (URL_withQuery : string -> text -> option string)
        (URLSearchParams_toString : text -> text)
        (JSON_parse : text -> option JsonValue)
        (endpoint u : string) (timeoutMs : Z) (log : list Request) (ct pre post : text),
        URL_withQuery endpoint (str "ASK {}") = Some u ->
        fetch log (mkRequest GET u askAccept None None) timeoutMs
          = Some (mkResponse true (Some ct) (Some (pre ++ askDocument ++ post))) ->
        length pre + length askDocument <= 200000 ->
        looksLikeHtml (Some ct) (Some (pre ++ askDocument ++ post)) = false ->
        fst (validateSparqlEndpoint fetch URL_withQuery URLSearchParams_toString JSON_parse
               endpoint timeoutMs log)
        = Return (mkProbe true (Some ask_get)))
  /\ (forall (fetch : list Request -> Request -> Z -> option Response)
        (URL_withQuery : string -> text -> option string)
        (URLSearchParams_toString : text -> text)
        (JSON_parse : text -> option JsonValue)
        (endpoint u : string) (timeoutMs : Z) (log : list Request),
        URL_withQuery endpoint (str "ASK {}") = Some u ->
        fetch log (mkRequest GET u askAccept None None) timeoutMs
          = Some (mkResponse true (Some (str "application/sparql-results+xml"))
                    (Some askDocument)) ->
        fst (validateSparqlEndpoint fetch URL_withQuery URLSearchParams_toString JSON_parse
               endpoint timeoutMs log)
        = Return (mkProbe true (Some ask_get))).
Proof.
  assert (G : forall fetch URL_withQuery URLSearchParams_toString JSON_parse
        (endpoint u : string) (timeoutMs : Z) (log : list Request) (ct pre post : text),
        URL_withQuery endpoint (str "ASK {}") = Some u ->
        fetch log (mkRequest GET u askAccept None None) timeoutMs
          = Some (mkResponse true (Some ct) (Some (pre ++ askDocument ++ post))) ->
        length pre + length askDocument <= 200000 ->
        looksLikeHtml (Some ct) (Some (pre ++ askDocument ++ post)) = false ->
        fst (validateSparqlEndpoint fetch URL_withQuery URLSearchParams_toString JSON_parse
               endpoint timeoutMs log)
        = Return (mkProbe true (Some ask_get))).
  { intros fetch URL_withQuery enc JSON_parse endpoint u timeoutMs log ct pre post HU HF Hlen Hhtml.
    destruct (tryAskGet_returns fetch URL_withQuery JSON_parse endpoint timeoutMs log)
      as (r1 & E1 & Hr1).
    rewrite HU, HF in Hr1.
    rewrite askChecks_xml in Hr1
      by (try exact Hhtml; apply looksLikeXmlAsk_embedded; exact Hlen).
    unfold validateSparqlEndpoint. cbn zeta. unfold mbind at 1. unfold M_bind at 1.
    rewrite E1, Hr1. reflexivity. }
  split; [exact looksLikeXmlAsk_iff|]. split; [exact looksLikeXmlAsk_cut|]. split; [exact G|].
  intros fetch URL_withQuery enc JSON_parse endpoint u timeoutMs log HU HF.
  apply (G fetch URL_withQuery enc JSON_parse endpoint u timeoutMs log
           (str "application/sparql-results+xml") [] []); try assumption.
  - apply Nat.leb_le. vm_compute. reflexivity.
  - vm_compute. reflexivity.
Qed.

(** ** The engine: steps and invariant *)

Lemma claimsOf_app h1 h2 : claimsOf (h1 ++ h2) = claimsOf h1 ++ claimsOf h2.
Proof. apply omap_app. Qed.
Lemma completedOf_app h1 h2 : completedOf (h1 ++ h2) = completedOf h1 ++ completedOf h2.
Proof. apply omap_app. Qed.
Lemma faultedOf_app h1 h2 : faultedOf (h1 ++ h2) = faultedOf h1 ++ faultedOf h2.
Proof. apply omap_app. Qed.
Lemma inflight_app ws1 ws2 : inflight (ws1 ++ ws2) = inflight ws1 ++ inflight ws2.
Proof. apply omap_app. Qed.

Lemma inflight_lookup ws w x :
  ws !! w = Some x -> inflight ws ≡ₚ inflight [x] ++ others w ws.
Proof.
  intros H. rewrite <- (take_drop_middle ws w x H) at 1.
  rewrite inflight_app. change (x :: drop (S w) ws) with ([x] ++ drop (S w) ws).
  rewrite inflight_app. unfold others.
  rewrite (app_assoc (inflight (take w ws))), (Permutation_app_comm (inflight (take w ws))).
  rewrite <- app_assoc. reflexivity.
Qed.

Lemma others_insert ws w x : others w (<[w:=x]> ws) = others w ws.
Proof.
  unfold others. rewrite take_insert_ge by lia. rewrite drop_insert_lt by lia. reflexivity.
Qed.

Lemma inflight_insert ws w x :
  w < length ws -> inflight (<[w:=x]> ws) ≡ₚ inflight [x] ++ others w ws.
Proof.
  intros H. rewrite <- (others_insert ws w x). apply inflight_lookup.
  apply list_lookup_insert_eq. exact H.
Qed.

Lemma elem_of_insert_inv {A} (l : list A) w x y :
  y ∈ <[w:=x]> l -> y = x \/ y ∈ l.
Proof.
  intros H. apply list_elem_of_lookup in H as [j Hj].
  apply list_lookup_insert_Some in Hj as [(_ & -> & _)|(_ & Hj)]; [left; reflexivity|].
  right. apply list_elem_of_lookup. eauto.
Qed.

Lemma elem_of_insert_other {A} (l : list A) w x y z :
  l !! w = Some z -> y ∈ l -> y <> z -> y ∈ <[w:=x]> l.
Proof.
  intros Hw H Hne. apply list_elem_of_lookup in H as [j Hj].
  apply list_elem_of_lookup. exists j.
  rewrite list_lookup_insert_ne; [exact Hj|]. intros ->. congruence.
Qed.

Section EngineFacts.
Context {R : Type}.
Variable items : list (Prepared R).
Variable probe : Task -> Outcome ProbeResult.
Variable progress : bool.

Local Abbreviation tasks := (tasks items).
Local Abbreviation Inv := (Inv items probe).

Lemma loopHead_spec w st st' ws :
  loopHead items w st = (st', ws) ->
  cursor st' = S (cursor st) /\ workers st' = workers st
  /\ verifiedMap st' = verifiedMap st /\ ticks st' = ticks st
  /\ ((length tasks <= cursor st /\ ws = Finished /\ history st' = history st)
      \/ (cursor st < length tasks /\ ws = Awaiting (cursor st)
          /\ history st' = history st ++ [Claimed w (cursor st)])).
Proof.
  unfold loopHead. destruct (length tasks <=? cursor st) eqn:E; intros [= <- <-]; simpl.
  - apply Nat.leb_le in E. auto 10.
  - apply Nat.leb_gt in E. auto 10.
Qed.

Lemma recordResult_spec t res st :
  is_Some (verifiedMap st !! portalIndex t) ->
  exists st1, recordResult progress t res st = Return st1
    /\ cursor st1 = cursor st /\ workers st1 = workers st /\ history st1 = history st
    /\ verifiedMap st1 = insertVerified t res (verifiedMap st)
    /\ ticks st1 = (if progress then S (ticks st) else ticks st).
Proof.
  intros [m Hm]. unfold recordResult, insertVerified. rewrite Hm.
  destruct (ok res); [|eexists; repeat split; reflexivity].
  destruct (Map_has m (t_url t)); eexists; repeat split; reflexivity.
Qed.

Lemma recordResult_Return t res st st1 :
  recordResult progress t res st = Return st1 ->
  cursor st1 = cursor st /\ workers st1 = workers st /\ history st1 = history st
  /\ verifiedMap st1 = insertVerified t res (verifiedMap st).
Proof.
  unfold recordResult, insertVerified. destruct (ok res).
  - destruct (verifiedMap st !! portalIndex t) as [m|]; [|discriminate].
    intros [= <-]. simpl. destruct (Map_has m (t_url t)); simpl; auto.
  - intros [= <-]. simpl. auto.
Qed.

Lemma resume_Some w st st' :
  resume items probe progress w st = Some st' -> resumed items probe progress w st st'.
Proof.
  unfold resume. destruct (workers st !! w) as [[i| |]|] eqn:Hw; try discriminate.
  destruct (tasks !! i) as [t|] eqn:Ht; [|discriminate].
  destruct (probe t) as [res|e] eqn:Hp.
  - destruct (recordResult progress t res st) as [st1|e] eqn:Hr.
    + destruct (loopHead items w (addEvent (Completed w i) st1)) as [st2 ws] eqn:Hl.
      intros [= <-]. eapply resumed_ok; eauto.
    + intros [= <-]. eapply resumed_fault; eauto.
  - intros [= <-]. eapply resumed_fault; eauto.
Qed.

Lemma insertVerified_dom t res vm i :
  is_Some (insertVerified t res vm !! i) <-> is_Some (vm !! i).
Proof.
  unfold insertVerified. destruct (ok res); [|reflexivity].
  destruct (vm !! portalIndex t) as [m|] eqn:Hm; [|reflexivity].
  destruct (Map_has m (t_url t)); [reflexivity|].
  destruct (decide (portalIndex t = i)) as [<-|Hne].
  - rewrite lookup_insert_eq, Hm. split; eauto.
  - rewrite lookup_insert_ne by exact Hne. reflexivity.
Qed.

End EngineFacts.

Section EngineInvariant.
Context {R : Type}.
Variable items : list (Prepared R).
Variable probe : Task -> Outcome ProbeResult.
Variable progress : bool.

Local Abbreviation tasks := (tasks items).
Local Abbreviation Inv := (Inv items probe).
Local Arguments Nat.min : simpl never.

Lemma tasks_elem t :
  t ∈ tasks <-> exists i item c, items !! i = Some item /\ c ∈ sparqlCandidates item
                                 /\ t = mkTask i (url c) (source c).
Proof.
  unfold Engine.tasks. rewrite list_elem_of_In, in_concat. split.
  - intros (l & Hl & Ht). apply list_elem_of_In in Hl, Ht.
    apply elem_of_lookup_imap in Hl as (i & item & -> & Hi).
    unfold tasksOf in Ht. apply list_elem_of_fmap in Ht as (c & -> & Hc). eauto 10.
  - intros (i & item & c & Hi & Hc & ->). exists (tasksOf i item). split.
    + apply list_elem_of_In. apply elem_of_lookup_imap. eauto.
    + apply list_elem_of_In. unfold tasksOf.
      apply (list_elem_of_fmap_2 (fun c => mkTask i (url c) (source c))). exact Hc.
Qed.

Lemma tasks_portalIndex i t : tasks !! i = Some t -> portalIndex t < length items.
Proof.
  intros H. assert (Ht : t ∈ tasks) by (apply list_elem_of_lookup; eauto).
  apply tasks_elem in Ht as (j & item & c & Hj & _ & ->). simpl.
  apply lookup_lt_Some in Hj. exact Hj.
Qed.

Lemma Inv_state0 : Inv (state0 items).
Proof.
  constructor; simpl.
  - reflexivity.
  - reflexivity.
  - reflexivity.
  - intros i. unfold verifiedMap0. rewrite lookup_map_seq_0.
    rewrite lookup_lt_is_Some, length_fmap. reflexivity.
  - intros H. apply elem_of_nil in H. contradiction.
  - congruence.
  - intros e H. apply elem_of_nil in H. contradiction.
  - intros i H. apply elem_of_nil in H. contradiction.
  - intros i H. apply elem_of_nil in H. contradiction.
Qed.

Lemma seq_min_S c n :
  c < n -> seq 0 (S c `min` n) = seq 0 (c `min` n) ++ [c].
Proof.
  intros H. replace (S c `min` n) with (S c) by lia. replace (c `min` n) with c by lia.
  rewrite seq_S. reflexivity.
Qed.

Lemma Inv_spawn st : Inv st -> Inv (spawn items st).
Proof.
  intros [Hc Hh Hm Hd Hf Hr Hrj Hcp Hfp]. unfold spawn.
  destruct (loopHead items (length (workers st)) st) as [st' ws] eqn:Hl.
  apply loopHead_spec in Hl as (Ecur & Ews & Evm & _ & Hcase).
  constructor; simpl; rewrite ?Ecur, ?Ews, ?Evm.
  - destruct Hcase as [(Hle & _ & ->)|(Hlt & _ & ->)].
    + rewrite Hc. f_equal. lia.
    + rewrite claimsOf_app, fmap_app, Hc. simpl. symmetry. apply seq_min_S. exact Hlt.
  - rewrite inflight_app.
    destruct Hcase as [(Hle & -> & ->)|(Hlt & -> & ->)]; simpl.
    + rewrite app_nil_r. exact Hh.
    + rewrite claimsOf_app, completedOf_app, faultedOf_app, fmap_app. simpl.
      rewrite !app_nil_r, Hh, <- !app_assoc. reflexivity.
  - destruct Hcase as [(_ & _ & ->)|(_ & _ & ->)]; [exact Hm|].
    rewrite completedOf_app. simpl. rewrite app_nil_r. exact Hm.
  - exact Hd.
  - intros Hin. apply elem_of_app in Hin as [Hin|Hin].
    + specialize (Hf Hin). lia.
    + apply list_elem_of_singleton in Hin.
      destruct Hcase as [(Hle & _ & _)|(_ & -> & _)]; [lia|discriminate].
  - intros Hne.
    assert (Hne' : faultedOf (history st) <> []).
    { destruct Hcase as [(_ & _ & E)|(_ & _ & E)]; rewrite E in Hne; [exact Hne|].
      rewrite faultedOf_app in Hne. simpl in Hne. rewrite app_nil_r in Hne. exact Hne. }
    destruct (Hr Hne') as [e He]. exists e. apply elem_of_app. left. exact He.
  - intros e Hin.
    assert (Hin' : Rejected e ∈ workers st).
    { apply elem_of_app in Hin as [Hin|Hin]; [exact Hin|].
      apply list_elem_of_singleton in Hin.
      destruct Hcase as [(_ & -> & _)|(_ & -> & _)]; discriminate. }
    specialize (Hrj e Hin').
    destruct Hcase as [(_ & _ & ->)|(_ & _ & ->)]; [exact Hrj|].
    rewrite faultedOf_app. simpl. rewrite app_nil_r. exact Hrj.
  - intros i Hin. apply Hcp.
    destruct Hcase as [(_ & _ & E)|(_ & _ & E)]; rewrite E in Hin; [exact Hin|].
    rewrite completedOf_app in Hin. simpl in Hin. rewrite app_nil_r in Hin. exact Hin.
  - intros i Hin. apply Hfp.
    destruct Hcase as [(_ & _ & E)|(_ & _ & E)]; rewrite E in Hin; [exact Hin|].
    rewrite faultedOf_app in Hin. simpl in Hin. rewrite app_nil_r in Hin. exact Hin.
Qed.


Lemma Inv_resume st w st' :
  Inv st -> resume items probe progress w st = Some st' -> Inv st'.
Proof.
  intros HI Hstep. pose proof HI as [Hc Hh Hm Hd Hf Hr Hrj Hcp Hfp].
  apply resume_Some in Hstep as [i t e Hw Ht Hp ->|i t res st1 st2 ws Hw Ht Hp Hrec Hl ->].
  - (* the worker is rejected *)
    pose proof (lookup_lt_Some _ _ _ Hw) as Hlen.
    constructor; simpl.
    + rewrite claimsOf_app. simpl. rewrite app_nil_r. exact Hc.
    + rewrite claimsOf_app, completedOf_app, faultedOf_app. simpl. rewrite !app_nil_r.
      rewrite Hh, (inflight_lookup _ _ _ Hw), (inflight_insert _ _ (Rejected e) Hlen).
      simpl. rewrite <- !app_assoc.
      apply Permutation_app_head. reflexivity.
    + rewrite completedOf_app. simpl. rewrite app_nil_r. exact Hm.
    + exact Hd.
    + intros Hin. apply elem_of_insert_inv in Hin as [Hin|Hin]; [discriminate|auto].
    + intros _. exists e. apply list_elem_of_lookup. exists w.
      apply list_lookup_insert_eq. exact Hlen.
    + intros e' _. rewrite faultedOf_app. simpl. intros E.
      apply app_eq_nil in E as [_ E]. discriminate.
    + intros j Hin. apply Hcp. rewrite completedOf_app in Hin. simpl in Hin.
      rewrite app_nil_r in Hin. exact Hin.
    + intros j Hin. rewrite faultedOf_app in Hin. simpl in Hin.
      apply elem_of_app in Hin as [Hin|Hin]; [apply Hfp; exact Hin|].
      apply list_elem_of_singleton in Hin as ->. exists t, e. split; [exact Ht|].
      destruct Hp as [Hp|(res & _ & Hrec)]; [exact Hp|].
      destruct (recordResult_spec progress t res st) as (st1 & E & _).
      { apply Hd. eapply tasks_portalIndex. exact Ht. }
      congruence.
  - (* the task completes and the worker goes round its loop *)
    pose proof (lookup_lt_Some _ _ _ Hw) as Hlen.
    apply recordResult_Return in Hrec as (E1c & E1w & E1h & E1m).
    apply loopHead_spec in Hl as (Ecur & Ews & Evm & _ & Hcase).
    simpl in Ecur, Ews, Evm, Hcase. rewrite E1c in Ecur, Hcase. rewrite E1h in Hcase.
    constructor; simpl; rewrite ?Ecur, ?Ews, ?Evm, ?E1w, ?E1m.
    + destruct Hcase as [(Hle & _ & ->)|(Hlt & _ & ->)].
      * rewrite claimsOf_app. simpl. rewrite app_nil_r, Hc. f_equal. lia.
      * rewrite !claimsOf_app, !fmap_app. simpl. rewrite app_nil_r, Hc.
        symmetry. apply seq_min_S. lia.
    + rewrite (inflight_insert _ _ ws Hlen).
      destruct Hcase as [(Hle & -> & ->)|(Hlt & -> & ->)];
        rewrite ?claimsOf_app, ?completedOf_app, ?faultedOf_app, ?fmap_app; simpl;
        rewrite ?app_nil_r, Hh, (inflight_lookup _ _ _ Hw); simpl.
      * solve_Permutation.
      * solve_Permutation.
    + assert (Hcomp : completedOf (history st2) = completedOf (history st) ++ [i]).
      { destruct Hcase as [(_ & _ & ->)|(_ & _ & ->)];
          rewrite ?completedOf_app; simpl; rewrite ?app_nil_r; reflexivity. }
      rewrite Hcomp, foldl_app. simpl. rewrite <- Hm.
      unfold applyCompleted. rewrite Ht, Hp. reflexivity.
    + intros j. rewrite insertVerified_dom. apply Hd.
    + intros Hin. apply elem_of_insert_inv in Hin as [<-|Hin].
      * destruct Hcase as [(Hle & _ & _)|(_ & ? & _)]; [lia|discriminate].
      * specialize (Hf Hin). lia.
    + intros Hne.
      assert (Hne' : faultedOf (history st) <> []).
      { destruct Hcase as [(_ & _ & E)|(_ & _ & E)]; rewrite E in Hne;
          rewrite ?faultedOf_app in Hne; simpl in Hne; rewrite ?app_nil_r in Hne; exact Hne. }
      destruct (Hr Hne') as [e He]. exists e.
      eapply elem_of_insert_other; [exact Hw|exact He|discriminate].
    + intros e Hin.
      assert (Hin' : Rejected e ∈ workers st).
      { apply elem_of_insert_inv in Hin as [Hin|Hin]; [|exact Hin].
        destruct Hcase as [(_ & -> & _)|(_ & -> & _)]; discriminate. }
      specialize (Hrj e Hin').
      destruct Hcase as [(_ & _ & ->)|(_ & _ & ->)];
        rewrite ?faultedOf_app; simpl; rewrite ?app_nil_r; exact Hrj.
    + intros j Hin.
      assert (Hin' : j ∈ completedOf (history st) ++ [i]).
      { destruct Hcase as [(_ & _ & E)|(_ & _ & E)]; rewrite E in Hin;
          rewrite ?completedOf_app in Hin; simpl in Hin; rewrite ?app_nil_r in Hin;
          exact Hin. }
      apply elem_of_app in Hin' as [Hin'|Hin']; [apply Hcp; exact Hin'|].
      apply list_elem_of_singleton in Hin' as ->. eauto.
    + intros j Hin. apply Hfp.
      destruct Hcase as [(_ & _ & E)|(_ & _ & E)]; rewrite E in Hin;
        rewrite ?faultedOf_app in Hin; simpl in Hin; rewrite ?app_nil_r in Hin; exact Hin.
Qed.

End EngineInvariant.



Lemma allFinished_iff st :
  allFinished st = true <-> forall s, s ∈ workers st -> s = Finished.
Proof.
  unfold allFinished. rewrite forallb_forall. split.
  - intros H s Hs. apply list_elem_of_In in Hs. specialize (H s Hs).
    destruct s; [discriminate|reflexivity|discriminate].
  - intros H s Hs. apply list_elem_of_In in Hs. rewrite (H s Hs). reflexivity.
Qed.


Section EngineRuns.
Context {R : Type}.
Variable items : list (Prepared R).
Variable probe : Task -> Outcome ProbeResult.
Variable concurrency : Number.
Variable progress : bool.

Local Abbreviation tasks := (tasks items).
Local Abbreviation Inv := (Inv items probe).
Local Abbreviation step := (step items probe progress).
Local Abbreviation resume := (resume items probe progress).
Local Abbreviation reachable := (reachable items probe concurrency progress).

Lemma spawn_workers st : length (workers (spawn items st)) = S (length (workers st)).
Proof.
  unfold spawn. destruct (loopHead items (length (workers st)) st) as [st' ws] eqn:Hl.
  apply loopHead_spec in Hl as (_ & Ews & _). simpl. rewrite length_app, Ews. simpl. lia.
Qed.

Lemma Inv_iter n : Inv (Nat.iter n (spawn items) (state0 items))
                   /\ length (workers (Nat.iter n (spawn items) (state0 items))) = n.
Proof.
  induction n as [|n [IH1 IH2]]; simpl.
  - split; [apply Inv_state0|reflexivity].
  - split; [apply Inv_spawn; exact IH1|]. rewrite spawn_workers, IH2. reflexivity.
Qed.

Lemma resume_workers w st st' :
  resume w st = Some st' -> length (workers st') = length (workers st).
Proof.
  intros H. apply resume_Some in H as [i t e _ _ _ ->|i t res st1 st2 ws _ _ _ Hrec Hl ->];
    simpl.
  - apply length_insert.
  - apply recordResult_Return in Hrec as (_ & E1 & _).
    apply loopHead_spec in Hl as (_ & E2 & _). simpl in E2.
    rewrite length_insert, E2, E1. reflexivity.
Qed.

Lemma reachable_init n : nWorkers concurrency = Return n -> reachable (init items n).
Proof. intros H. exists n. split; [exact H|apply rtc_refl]. Qed.

Lemma reachable_ind (Pr : State -> Prop) :
  (forall n, nWorkers concurrency = Return n -> Pr (init items n)) ->
  (forall st st', reachable st -> step st st' -> Pr st -> Pr st') ->
  forall st, reachable st -> Pr st.
Proof.
  intros H0 Hs st (n & Hn & H). revert st H. apply rtc_ind_r.
  - apply H0. exact Hn.
  - intros st st' Hr Hst IH. apply (Hs st st'); [exists n; auto|exact Hst|exact IH].
Qed.

Lemma reachable_Inv st :
  reachable st -> Inv st /\ nWorkers concurrency = Return (length (workers st)).
Proof.
  revert st. apply reachable_ind.
  - intros n Hn. destruct (Inv_iter n) as [H1 H2]. split; [exact H1|].
    unfold init. rewrite H2. exact Hn.
  - intros st1 st2 _ [w Hw] [IH1 IH2]. split.
    + eapply Inv_resume; eauto.
    + rewrite (resume_workers _ _ _ Hw). exact IH2.
Qed.

Lemma run_steps sched : forall st, rtc step st (run items probe progress sched st).
Proof.
  induction sched as [|w sched IH]; intros st; simpl; [reflexivity|].
  destruct (resume w st) as [st'|] eqn:E; [|apply IH].
  eapply rtc_l; [exists w; exact E|apply IH].
Qed.

Lemma run_reachable sched st : reachable st -> reachable (run items probe progress sched st).
Proof.
  intros (n & Hn & H). exists n. split; [exact Hn|].
  eapply rtc_trans; [exact H|apply run_steps].
Qed.

(** The number of workers: none for [NaN], one for a number up to 1, and
    at least one for every other number that does not overflow the
    array. *)
Lemma nWorkers_NaN : nWorkers NaN = Return 0.
Proof. reflexivity. Qed.

Lemma nWorkers_started n : concurrency <> NaN -> nWorkers concurrency = Return n -> 1 <= n.
Proof.
  unfold nWorkers, Math_max, ofZ, ToLength. intros Hc.
  destruct concurrency as [| |q|]; [contradiction| | |].
  - intros [= <-]. vm_compute. lia.
  - destruct (Qle_bool (inject_Z 1) q) eqn:E.
    + apply Qle_bool_iff in E. unfold Qle in E. simpl in E.
      assert (H1 : (1 <= Qnum q ÷ Z.pos (Qden q))%Z).
      { rewrite Z.quot_div_nonneg by lia. apply Z.div_le_lower_bound; lia. }
      destruct (4294967296 <=? _)%Z; [discriminate|]. intros [= <-]. lia.
    + intros [= <-]. vm_compute. lia.
  - intros [=].
Qed.

Lemma nWorkers_one : numLe concurrency (ofZ 1) -> nWorkers concurrency = Return 1.
Proof.
  unfold nWorkers, Math_max, ofZ, ToLength, numLe.
  destruct concurrency as [| |q|]; try contradiction; [reflexivity|].
  intros Hq. unfold Qle in Hq. simpl in Hq.
  destruct (Qle_bool (inject_Z 1) q) eqn:E; [|reflexivity].
  apply Qle_bool_iff in E. unfold Qle in E. simpl in E.
  assert (Hn : Qnum q = Z.pos (Qden q)) by lia.
  rewrite Hn, Z.quot_same by lia. reflexivity.
Qed.

Lemma reachable_started st :
  concurrency <> NaN -> reachable st -> workers st <> [].
Proof.
  intros Hc Hr. destruct (reachable_Inv st Hr) as [_ Hn].
  apply (nWorkers_started _ Hc) in Hn. destruct (workers st); [simpl in Hn; lia|discriminate].
Qed.


Lemma resume_settles_one w st st' :
  resume w st = Some st' -> settledCount st' = S (settledCount st).
Proof.
  unfold settledCount.
  intros H. apply resume_Some in H as [i t e _ _ _ ->|i t res st1 st2 ws _ _ _ Hrec Hl ->];
    simpl.
  - rewrite completedOf_app, faultedOf_app, !length_app. simpl. lia.
  - apply recordResult_Return in Hrec as (_ & _ & E1 & _).
    apply loopHead_spec in Hl as (_ & _ & _ & _ & Hcase). simpl in Hcase.
    destruct Hcase as [(_ & _ & ->)|(_ & _ & ->)]; rewrite E1;
      rewrite ?completedOf_app, ?faultedOf_app, ?length_app; simpl; lia.
Qed.

Lemma Inv_settled_bound st :
  Inv st -> settledCount st + length (inflight (workers st)) <= length tasks.
Proof.
  intros [Hc Hh _ _ _ _ _ _ _]. unfold settledCount.
  apply Permutation_length in Hh. rewrite !length_app in Hh.
  rewrite Hc, length_seq in Hh. lia.
Qed.

(** Every execution is finite: a run takes at most one step per task. *)
Lemma steps_bounded k st st' :
  Inv st -> nsteps step k st st' -> settledCount st' = settledCount st + k /\ Inv st'.
Proof.
  intros HI H. induction H as [|k st1 st2 st3 [w Hw] _ IH].
  - split; [lia|exact HI].
  - destruct IH as [IH1 IH2]; [eapply Inv_resume; eauto|].
    split; [|exact IH2]. rewrite IH1, (resume_settles_one _ _ _ Hw). lia.
Qed.




End EngineRuns.




(** ** The verified sets *)

Section JsMapFacts.
Context {V : Type}.
Implicit Types m : list (string * V).

Lemma Map_has_true m k : Map_has m k = true <-> k ∈ m.*1.
Proof.
  unfold Map_has. rewrite existsb_exists. split.
  - intros ([k' v] & Hin & E). apply bool_decide_eq_true in E. simpl in E. subst k'.
    apply list_elem_of_fmap. exists (k, v). split; [reflexivity|].
    apply list_elem_of_In. exact Hin.
  - intros H. apply list_elem_of_fmap in H as ([k' v] & -> & Hin).
    exists (k', v). split; [apply list_elem_of_In; exact Hin|].
    apply bool_decide_eq_true. reflexivity.
Qed.

Lemma Map_has_false m k : Map_has m k = false <-> k ∉ m.*1.
Proof.
  rewrite <- Map_has_true. destruct (Map_has m k); split; congruence.
Qed.

Lemma Map_set_fresh m k v : Map_has m k = false -> Map_set m k v = m ++ [(k, v)].
Proof.
  induction m as [|[k' v'] m IH]; simpl; [reflexivity|].
  intros H. apply orb_false_iff in H as [H1 H2]. simpl in H1. rewrite H1.
  rewrite IH by exact H2. reflexivity.
Qed.

Lemma Map_get_app m m' k v : Map_get m k = Some v -> Map_get (m ++ m') k = Some v.
Proof.
  unfold Map_get. induction m as [|[k' v'] m IH]; simpl; [discriminate|].
  destruct (bool_decide (k' = k)); [auto|]. exact IH.
Qed.

Lemma Map_get_has m k v : Map_get m k = Some v -> Map_has m k = true.
Proof.
  unfold Map_get, Map_has. induction m as [|[k' v'] m IH]; simpl; [discriminate|].
  destruct (bool_decide (k' = k)); [reflexivity|]. exact IH.
Qed.
End JsMapFacts.

Lemma oneEntryPerUrl_insert m t md :
  oneEntryPerUrl m -> Map_has m (t_url t) = false ->
  oneEntryPerUrl (Map_set m (t_url t) (mkVerified (t_url t) (t_source t) md)).
Proof.
  intros [Hnd Hk] Hfresh. rewrite Map_set_fresh by exact Hfresh. split.
  - rewrite fmap_app. simpl. apply NoDup_app. split; [exact Hnd|]. split.
    + intros k Hin Hin'. apply list_elem_of_singleton in Hin' as ->.
      apply Map_has_false in Hfresh. contradiction.
    + apply NoDup_singleton.
  - intros k v Hin. apply elem_of_app in Hin as [Hin|Hin]; [apply Hk; exact Hin|].
    apply list_elem_of_singleton in Hin. injection Hin as -> ->. reflexivity.
Qed.

Lemma insertVerified_oneEntryPerUrl t res vm :
  (forall i m, vm !! i = Some m -> oneEntryPerUrl m) ->
  forall i m, insertVerified t res vm !! i = Some m -> oneEntryPerUrl m.
Proof.
  intros H i m. unfold insertVerified. destruct (ok res); [|apply H].
  destruct (vm !! portalIndex t) as [m0|] eqn:Hm0; [|apply H].
  destruct (Map_has m0 (t_url t)) eqn:Hhas; [apply H|].
  destruct (decide (portalIndex t = i)) as [<-|Hne].
  - rewrite lookup_insert_eq. intros [= <-].
    apply oneEntryPerUrl_insert; [eapply H; exact Hm0|exact Hhas].
  - rewrite lookup_insert_ne by exact Hne. apply H.
Qed.

Lemma insertVerified_retains t res vm i m u v :
  vm !! i = Some m -> Map_get m u = Some v ->
  exists m', insertVerified t res vm !! i = Some m' /\ Map_get m' u = Some v.
Proof.
  intros Hm Hu. unfold insertVerified. destruct (ok res); [|eauto].
  destruct (vm !! portalIndex t) as [m0|] eqn:Hm0; [|eauto].
  destruct (Map_has m0 (t_url t)) eqn:Hhas; [eauto|].
  destruct (decide (portalIndex t = i)) as [<-|Hne].
  - rewrite lookup_insert_eq. eexists. split; [reflexivity|].
    rewrite Map_set_fresh by exact Hhas. apply Map_get_app. congruence.
  - rewrite lookup_insert_ne by exact Hne. eauto.
Qed.

Lemma insertVerified_present t res vm :
  ok res = true -> is_Some (vm !! portalIndex t) ->
  exists m, insertVerified t res vm !! portalIndex t = Some m
            /\ Map_has m (t_url t) = true.
Proof.
  intros Hok [m0 Hm0]. unfold insertVerified. rewrite Hok, Hm0.
  destruct (Map_has m0 (t_url t)) eqn:Hhas; [eauto|].
  rewrite lookup_insert_eq. eexists. split; [reflexivity|].
  rewrite Map_set_fresh by exact Hhas. apply Map_has_true.
  rewrite fmap_app. apply elem_of_app. right. simpl. apply list_elem_of_here.
Qed.

Lemma insertVerified_ignored t res vm m :
  vm !! portalIndex t = Some m -> Map_has m (t_url t) = true ->
  insertVerified t res vm = vm.
Proof.
  intros Hm Hhas. unfold insertVerified. rewrite Hm, Hhas. destruct (ok res); reflexivity.
Qed.

Lemma AtMostOnePerUrl_state0 {R} (items : list (Prepared R)) : AtMostOnePerUrl (state0 items).
Proof.
  intros i m. simpl. unfold verifiedMap0. rewrite lookup_map_seq_0, list_lookup_fmap.
  destruct (items !! i); [|discriminate]. intros [= <-]. split.
  - apply NoDup_nil_2.
  - intros k v H. apply elem_of_nil in H. contradiction.
Qed.

Lemma AtMostOnePerUrl_spawn {R} (items : list (Prepared R)) st :
  AtMostOnePerUrl st -> AtMostOnePerUrl (spawn items st).
Proof.
  unfold AtMostOnePerUrl, spawn.
  destruct (loopHead items (length (workers st)) st) as [st' ws] eqn:Hl.
  apply loopHead_spec in Hl as (_ & _ & E & _). simpl. rewrite E. auto.
Qed.

Lemma AtMostOnePerUrl_resume {R} (items : list (Prepared R)) probe progress w st st' :
  AtMostOnePerUrl st -> resume items probe progress w st = Some st' -> AtMostOnePerUrl st'.
Proof.
  unfold AtMostOnePerUrl. intros H Hw.
  apply resume_Some in Hw as [i t e _ _ _ ->|i t res st1 st2 ws _ _ _ Hrec Hl ->]; simpl.
  - exact H.
  - apply recordResult_Return in Hrec as (_ & _ & _ & E1).
    apply loopHead_spec in Hl as (_ & _ & E2 & _). simpl in E2. rewrite E2, E1.
    apply insertVerified_oneEntryPerUrl. exact H.
Qed.

Lemma insertVerified_fresh t res vm m :
  ok res = true -> vm !! portalIndex t = Some m -> Map_has m (t_url t) = false ->
  insertVerified t res vm
  = <[portalIndex t := m ++ [(t_url t, mkVerified (t_url t) (t_source t) (mode res))]]> vm.
Proof.
  intros Hok Hm Hhas. unfold insertVerified. rewrite Hok, Hm, Hhas.
  rewrite (Map_set_fresh _ _ _ Hhas). reflexivity.
Qed.

Lemma insertVerified_failed t res vm : ok res = false -> insertVerified t res vm = vm.
Proof. intros Hok. unfold insertVerified. rewrite Hok. reflexivity. Qed.

Lemma Map_has_snoc {V} (m : list (string * V)) k v : Map_has (m ++ [(k, v)]) k = true.
Proof.
  apply Map_has_true. rewrite fmap_app. apply elem_of_app. right. apply list_elem_of_here.
Qed.

Section Insertion.
Context {R : Type}.
Variable items : list (Prepared R).
Variable probe : Task -> Outcome ProbeResult.
Variable progress : bool.

Lemma recordResult_fresh t res st m :
  ok res = true -> verifiedMap st !! portalIndex t = Some m -> Map_has m (t_url t) = false ->
  exists st1, recordResult progress t res st = Return st1
    /\ verifiedMap st1
       = <[portalIndex t := m ++ [(t_url t, mkVerified (t_url t) (t_source t) (mode res))]]>
           (verifiedMap st).
Proof.
  intros Hok Hm Hhas.
  destruct (recordResult_spec progress t res st) as (st1 & E & _ & _ & _ & Evm & _).
  { rewrite Hm. eauto. }
  exists st1. split; [exact E|]. rewrite Evm. apply insertVerified_fresh; assumption.
Qed.

Lemma recordResult_present t res st m :
  verifiedMap st !! portalIndex t = Some m -> Map_has m (t_url t) = true ->
  exists st1, recordResult progress t res st = Return st1 /\ verifiedMap st1 = verifiedMap st.
Proof.
  intros Hm Hhas.
  destruct (recordResult_spec progress t res st) as (st1 & E & _ & _ & _ & Evm & _).
  { rewrite Hm. eauto. }
  exists st1. split; [exact E|]. rewrite Evm. eapply insertVerified_ignored; eassumption.
Qed.

(** The step of a worker whose probe has succeeded. *)
Lemma resume_inserts st w j t res m :
  Inv items probe st ->
  workers st !! w = Some (Awaiting j) -> tasks items !! j = Some t ->
  probe t = Return res -> ok res = true ->
  verifiedMap st !! portalIndex t = Some m ->
  exists st', resume items probe progress w st = Some st'
    /\ verifiedMap st' !! portalIndex t
       = Some (if Map_has m (t_url t) then m
               else m ++ [(t_url t, mkVerified (t_url t) (t_source t) (mode res))]).
Proof.
  intros HI Hw Ht Hp Hok Hm.
  destruct (recordResult_spec progress t res st) as (st1 & E & _ & _ & _ & Evm & _).
  { rewrite Hm. eauto. }
  unfold resume. rewrite Hw, Ht, Hp, E.
  destruct (loopHead items w (addEvent (Completed w j) st1)) as [st2 ws] eqn:Hl.
  eexists. split; [reflexivity|].
  apply loopHead_spec in Hl as (_ & _ & E2 & _). simpl in E2. simpl. rewrite E2, Evm.
  destruct (Map_has m (t_url t)) eqn:Hhas.
  - rewrite (insertVerified_ignored t res _ m Hm Hhas). exact Hm.
  - rewrite (insertVerified_fresh t res _ m Hok Hm Hhas). apply lookup_insert_eq.
Qed.

End Insertion.

(** Claim C7.  In every state a run can reach, the verified set of each
    portal has at most one entry per URL, and every step of a worker
    keeps this.  A successful result for a URL that is not yet in the
    set of its portal is inserted, after the entries already there, with
    the task's URL and source and the probe's mode, and the sets of the
    other portals stay as they are.  An entry, once in the set, stays in
    it unchanged: a result for a URL that is in the set, and a failed
    result, leave the sets as they are, so recording the same successful
    result twice leaves one entry.  The step of a worker whose probe has
    succeeded does exactly this. *)
Theorem verified_set_holds_one_entry_per_url {R : Type}
    (items : list (Prepared R)) (probe : Task -> Outcome ProbeResult)
    (concurrency : Number) (progress : bool) :
  (forall st, reachable items probe concurrency progress st -> AtMostOnePerUrl st)
  /\ (forall st w st',
        AtMostOnePerUrl st -> resume items probe progress w st = Some st' ->
        AtMostOnePerUrl st')
  /\ (forall st w st' i m u v,
        resume items probe progress w st = Some st' ->
        verifiedMap st !! i = Some m -> Map_get m u = Some v ->
        exists m', verifiedMap st' !! i = Some m' /\ Map_get m' u = Some v)
  /\ (forall t res st st1 t' res',
        recordResult progress t res st = Return st1 -> ok res = true ->
        portalIndex t' = portalIndex t -> t_url t' = t_url t ->
        exists st2, recordResult progress t' res' st1 = Return st2
                    /\ verifiedMap st2 = verifiedMap st1)
  /\ (forall t res st m,
        ok res = true -> verifiedMap st !! portalIndex t = Some m ->
        Map_has m (t_url t) = false ->
        exists st1, recordResult progress t res st = Return st1
          /\ verifiedMap st1 !! portalIndex t
             = Some (m ++ [(t_url t, mkVerified (t_url t) (t_source t) (mode res))])
          /\ (forall i, i <> portalIndex t -> verifiedMap st1 !! i = verifiedMap st !! i)
          /\ exists st2, recordResult progress t res st1 = Return st2
                         /\ verifiedMap st2 = verifiedMap st1)
  /\ (forall t res st m,
        verifiedMap st !! portalIndex t = Some m -> Map_has m (t_url t) = true ->
        exists st1, recordResult progress t res st = Return st1
                    /\ verifiedMap st1 = verifiedMap st)
  /\ (forall t res st st1,
        recordResult progress t res st = Return st1 -> ok res = false ->
        verifiedMap st1 = verifiedMap st)
  /\ (forall st w j t res m,
        reachable items probe concurrency progress st ->
        workers st !! w = Some (Awaiting j) -> tasks items !! j = Some t ->
        probe t = Return res -> ok res = true ->
        verifiedMap st !! portalIndex t = Some m ->
        exists st', resume items probe progress w st = Some st'
          /\ verifiedMap st' !! portalIndex t
             = Some (if Map_has m (t_url t) then m
                     else m ++ [(t_url t, mkVerified (t_url t) (t_source t) (mode res))])).
Proof.
  split; [|split; [|split; [|split; [|split; [|split; [|split]]]]]].
  - apply reachable_ind.
    + intros n _. unfold init. induction n as [|n IH]; simpl.
      * apply AtMostOnePerUrl_state0.
      * apply AtMostOnePerUrl_spawn. exact IH.
    + intros st1 st2 _ [w Hw] IH. eapply AtMostOnePerUrl_resume; eauto.
  - intros st w st'. apply AtMostOnePerUrl_resume.
  - intros st w st' i m u v Hw Hm Hu.
    apply resume_Some in Hw as [j t e _ _ _ ->|j t res st1 st2 ws _ _ _ Hrec Hl ->]; simpl.
    + eauto.
    + apply recordResult_Return in Hrec as (_ & _ & _ & E1).
      apply loopHead_spec in Hl as (_ & _ & E2 & _). simpl in E2. rewrite E2, E1.
      eapply insertVerified_retains; eassumption.
  - intros t res st st1 t' res' Hrec Hok Hp Hu.
    assert (Hsome : is_Some (verifiedMap st !! portalIndex t)).
    { unfold recordResult in Hrec. rewrite Hok in Hrec.
      destruct (verifiedMap st !! portalIndex t); [eauto|discriminate]. }
    apply recordResult_Return in Hrec as (_ & _ & _ & E1).
    destruct (insertVerified_present t res (verifiedMap st) Hok Hsome) as (m & Hm & Hhas).
    rewrite <- E1 in Hm.
    destruct (recordResult_spec progress t' res' st1) as (st2 & E & _ & _ & _ & Evm & _).
    { rewrite Hp. eauto. }
    exists st2. split; [exact E|]. rewrite Evm.
    apply (insertVerified_ignored t' res' (verifiedMap st1) m); [rewrite Hp|rewrite Hu]; assumption.
  - intros t res st m Hok Hm Hhas.
    destruct (recordResult_fresh progress t res st m Hok Hm Hhas) as (st1 & E & Evm).
    exists st1. split; [exact E|]. split; [rewrite Evm; apply lookup_insert_eq|].
    split; [intros i Hi; rewrite Evm; apply lookup_insert_ne; congruence|].
    apply (recordResult_present progress t res st1
             (m ++ [(t_url t, mkVerified (t_url t) (t_source t) (mode res))])).
    + rewrite Evm. apply lookup_insert_eq.
    + apply Map_has_snoc.
  - intros t res st m. apply recordResult_present.
  - intros t res st st1 Hrec Hok.
    apply recordResult_Return in Hrec as (_ & _ & _ & ->). apply insertVerified_failed. exact Hok.
  - intros st w j t res m Hreach. destruct (reachable_Inv _ _ _ _ _ Hreach) as [HI _].
    apply resume_inserts. exact HI.
Qed.

(** ** Selection and the rows *)

Lemma isExplicit_true s : isExplicit s = true <-> s = explicit.
Proof. unfold isExplicit. apply bool_decide_eq_true. Qed.

Lemma isExplicit_false s : isExplicit s = false <-> s <> explicit.
Proof. unfold isExplicit. apply bool_decide_eq_false. Qed.

Lemma find_first {A} (p : A -> bool) pre e post :
  Forall (fun c => p c = false) pre -> p e = true ->
  List.find p (pre ++ e :: post) = Some e.
Proof.
  induction 1 as [|c pre Hc _ IH]; intros He; simpl.
  - rewrite He. reflexivity.
  - rewrite Hc. apply IH. exact He.
Qed.

Lemma find_none_iff {A} (p : A -> bool) l :
  List.find p l = None <-> forall c, c ∈ l -> p c = false.
Proof.
  split.
  - intros H c Hc. apply (find_none p l H). apply list_elem_of_In. exact Hc.
  - induction l as [|a l IH]; intros H; simpl; [reflexivity|].
    rewrite (H a) by apply list_elem_of_here. apply IH.
    intros c Hc. apply H. apply list_elem_of_further. exact Hc.
Qed.

Lemma chooseVerified_choosePreferred verified :
  chooseVerified verified = choosePreferred verified.
Proof. reflexivity. Qed.

Lemma choosePreferred_None {A} `{HasSource A} (l : list A) :
  choosePreferred l = None <-> l = [].
Proof.
  unfold choosePreferred. split.
  - destruct (List.find _ l); [discriminate|]. destruct l; [reflexivity|discriminate].
  - intros ->. reflexivity.
Qed.

Lemma choosePreferred_elem {A} `{HasSource A} (l : list A) e :
  choosePreferred l = Some e -> e ∈ l.
Proof.
  unfold choosePreferred. destruct (List.find _ l) as [x|] eqn:E.
  - intros [= <-]. apply find_some in E as [E _]. apply list_elem_of_In. exact E.
  - destruct l as [|a l]; [discriminate|]. intros [= <-]. apply list_elem_of_here.
Qed.

(** Claim C6.  The selection returns nothing exactly on the empty list;
    it returns the first explicit entry when there is one, and so never
    a guessed entry while an explicit one is in the list; otherwise it
    returns the first entry.  The selection written out at the end of the
    engine is the same function. *)
Theorem choosePreferred_selection {A : Type} `{HasSource A} (l : list A) :
  (choosePreferred l = None <-> l = [])
  /\ (forall pre e post,
        l = pre ++ e :: post ->
        Forall (fun c => source_of c <> explicit) pre -> source_of e = explicit ->
        choosePreferred l = Some e)
  /\ (forall e, choosePreferred l = Some e -> e ∈ l)
  /\ ((exists c, c ∈ l /\ source_of c = explicit) ->
      exists e, choosePreferred l = Some e /\ source_of e = explicit)
  /\ ((forall c, c ∈ l -> source_of c <> explicit) -> choosePreferred l = head l)
  /\ (forall verified : list VerifiedEndpoint,
        chooseVerified verified = choosePreferred verified).
Proof.
  split; [apply choosePreferred_None|]. split; [|split; [|split; [|split]]].
  - intros pre e post -> Hpre He. unfold choosePreferred.
    rewrite (find_first (fun c => isExplicit (source_of c)) pre e post).
    + reflexivity.
    + eapply Forall_impl; [exact Hpre|]. intros c Hc. apply isExplicit_false. exact Hc.
    + apply isExplicit_true. exact He.
  - intros e. apply choosePreferred_elem.
  - intros (c & Hc & Hs). unfold choosePreferred.
    destruct (List.find _ l) as [x|] eqn:E.
    + exists x. split; [reflexivity|]. apply find_some in E as [_ E].
      apply isExplicit_true. exact E.
    + exfalso. pose proof (proj1 (find_none_iff _ l) E c Hc) as Hf.
      apply isExplicit_false in Hf. contradiction.
  - intros Hall. unfold choosePreferred.
    rewrite (proj2 (find_none_iff (fun c => isExplicit (source_of c)) l)); [reflexivity|].
    intros c Hc. apply isExplicit_false. apply Hall. exact Hc.
  - intros verified. reflexivity.
Qed.

Section RowFacts.
Context {R P : Type}.
Variable projectOutput : Prepared R -> P.
Variable items : list (Prepared R).

Lemma explicitByPortal_lookup i item :
  items !! i = Some item -> explicitByPortal items !! i = Some (expSetOf item).
Proof.
  intros H. unfold explicitByPortal. rewrite lookup_map_seq_0, list_lookup_fmap, H.
  reflexivity.
Qed.

Lemma expSetOf_nonempty (item : Prepared R) :
  (0 <? size (expSetOf item)) = true
  <-> exists c, c ∈ sparqlCandidates item /\ source c = explicit.
Proof.
  rewrite Nat.ltb_lt. unfold expSetOf. split.
  - intros H. apply size_pos_elem_of in H as [u Hu].
    apply elem_of_list_to_set in Hu. apply list_elem_of_fmap in Hu as (c & _ & Hc).
    apply list_elem_of_In in Hc. apply filter_In in Hc as [Hc Hs].
    exists c. split; [apply list_elem_of_In; exact Hc|apply isExplicit_true; exact Hs].
  - intros (c & Hc & Hs).
    assert (Hex : exists u, u ∈ expSetOf item).
    { exists (url c). unfold expSetOf.
      apply elem_of_list_to_set. apply list_elem_of_fmap. exists c. split; [reflexivity|].
      apply list_elem_of_In. apply filter_In. split; [apply list_elem_of_In; exact Hc|].
      apply isExplicit_true. exact Hs. }
    destruct Hex as [u Hu].
    assert (Hne : size (expSetOf item) <> 0).
    { apply size_non_empty_iff. intros E. rewrite E in Hu. set_solver. }
    unfold expSetOf in Hne. lia.
Qed.

Lemma rows_elem strict vm (row : VerifiedRow P) :
  row ∈ rows projectOutput items strict vm
  <-> exists i item, items !! i = Some item
                     /\ rowFor projectOutput items strict vm i item = Some row.
Proof.
  unfold rows. rewrite list_elem_of_omap. split.
  - intros (o & Ho & E). simpl in E. subst o.
    apply elem_of_lookup_imap in Ho as (i & item & E & Hi). eauto.
  - intros (i & item & Hi & E). exists (Some row). split; [|reflexivity].
    rewrite <- E. apply elem_of_lookup_imap. eauto.
Qed.

Lemma rowFor_strict vm i item :
  items !! i = Some item ->
  (is_Some (rowFor projectOutput items true vm i item)
   <-> Map_values (default [] (vm !! i)) <> []
       /\ exists c, c ∈ sparqlCandidates item /\ source c = explicit).
Proof.
  intros Hi. unfold rowFor. rewrite (explicitByPortal_lookup i item Hi). simpl default.
  rewrite <- expSetOf_nonempty.
  destruct (Map_values (default [] (vm !! i))) as [|v l]; simpl.
  - split; [intros [? ?]; discriminate|intros [? _]; congruence].
  - destruct (0 <? size (expSetOf item)); simpl.
    + split; [intros _; split; [discriminate|reflexivity]|eauto].
    + split; [intros [? ?]; discriminate|intros [_ ?]; discriminate].
Qed.

End RowFacts.

(** Claim C5.  With [strict] set, portal [i] gets a row exactly when its
    verified set is not empty and its candidates, as prepared, include an
    explicit one: which candidates verified plays no part.  A portal with
    guessed candidates only gets no row, whatever the map of verified
    endpoints holds, and every row of the result belongs to a portal
    with an explicit candidate. *)
Theorem strict_mode_gates_on_explicit_candidates {R P : Type}
    (projectOutput : Prepared R -> P) (items : list (Prepared R))
    (vm : gmap nat (list (string * VerifiedEndpoint))) (i : nat) (item : Prepared R) :
  items !! i = Some item ->
  (is_Some (rowFor projectOutput items true vm i item)
   <-> Map_values (default [] (vm !! i)) <> []
       /\ exists c, c ∈ sparqlCandidates item /\ source c = explicit)
  /\ ((forall c, c ∈ sparqlCandidates item -> source c = guessed) ->
      rowFor projectOutput items true vm i item = None)
  /\ (forall row, row ∈ rows projectOutput items true vm ->
      exists j item', items !! j = Some item'
        /\ rowFor projectOutput items true vm j item' = Some row
        /\ exists c, c ∈ sparqlCandidates item' /\ source c = explicit).
Proof.
  intros Hi. pose proof (rowFor_strict projectOutput items vm i item Hi) as Hiff.
  split; [exact Hiff|]. split.
  - intros Hg. destruct (rowFor projectOutput items true vm i item) as [row|] eqn:E;
      [|reflexivity].
    exfalso. destruct (proj1 Hiff) as (_ & c & Hc & Hs); [eauto|].
    rewrite (Hg c Hc) in Hs. discriminate.
  - intros row Hrow. apply rows_elem in Hrow as (j & item' & Hj & E).
    exists j, item'. split; [exact Hj|]. split; [exact E|].
    apply (rowFor_strict projectOutput items vm j item' Hj). rewrite E. eauto.
Qed.

Lemma rowFor_endpoint {R P : Type} (projectOutput : Prepared R -> P) items strict vm i item
    (row : VerifiedRow P) :
  rowFor projectOutput items strict vm i item = Some row ->
  exists v, chooseVerified (Map_values (default [] (vm !! i))) = Some v
            /\ v ∈ Map_values (default [] (vm !! i))
            /\ sparqlEndpoint row = Some (v_url v)
            /\ sparqlGuessed row = Some (negb (isExplicit (v_source v)))
            /\ sparqlVerifiedBy row = v_mode v
            /\ sparqlVerified row = true
            /\ sparqlEndpointsVerifiedMeta row = Map_values (default [] (vm !! i)).
Proof.
  unfold rowFor. set (verified := Map_values (default [] (vm !! i))).
  destruct (length verified =? 0) eqn:El; [discriminate|].
  destruct (strict && _); [discriminate|].
  destruct (chooseVerified verified) as [v|] eqn:Ec.
  - intros [= <-]. simpl. exists v. repeat split; try reflexivity.
    rewrite chooseVerified_choosePreferred in Ec.
    eapply choosePreferred_elem. exact Ec.
  - rewrite chooseVerified_choosePreferred in Ec. apply choosePreferred_None in Ec.
    rewrite Ec in El. discriminate.
Qed.

(** ** The verified set of a portal after a run *)

Lemma foldl_insertEntry_fresh es : forall m,
  NoDup es.*1 -> (forall k, k ∈ es.*1 -> k ∉ m.*1) ->
  foldl insertEntry m es = m ++ es.
Proof.
  induction es as [|[k v] es IH]; intros m Hnd Hdisj; simpl.
  - rewrite app_nil_r. reflexivity.
  - simpl in Hnd. apply NoDup_cons in Hnd as [Hk Hnd].
    assert (Hfresh : Map_has m k = false).
    { apply Map_has_false. apply Hdisj. simpl. apply list_elem_of_here. }
    unfold insertEntry at 2. simpl. rewrite Hfresh, Map_set_fresh by exact Hfresh.
    rewrite IH.
    + rewrite <- app_assoc. reflexivity.
    + exact Hnd.
    + intros k' Hk' Hin. rewrite fmap_app in Hin. apply elem_of_app in Hin as [Hin|Hin].
      * eapply Hdisj; [|exact Hin]. simpl. apply list_elem_of_further. exact Hk'.
      * simpl in Hin. apply list_elem_of_singleton in Hin as ->. contradiction.
Qed.

Section VerifiedSets.
Context {R : Type}.
Variable items : list (Prepared R).
Variable probe : Task -> Outcome ProbeResult.

Local Abbreviation tasks := (tasks items).

Lemma applyCompleted_lookup vm i idx m :
  vm !! i = Some m ->
  applyCompleted items probe vm idx !! i
  = Some (match entryOf items probe i idx with
          | Some e => insertEntry m e
          | None => m
          end).
Proof.
  intros Hm. unfold applyCompleted, entryOf.
  destruct (tasks !! idx) as [t|]; [|exact Hm].
  destruct (probe t) as [res|e]; [|destruct (bool_decide _); exact Hm].
  unfold insertVerified. destruct (ok res); [|destruct (bool_decide _); exact Hm].
  destruct (bool_decide (portalIndex t = i)) eqn:Hd.
  - apply bool_decide_eq_true in Hd. rewrite Hd, Hm. unfold insertEntry. simpl.
    destruct (Map_has m (t_url t)); [exact Hm|]. apply lookup_insert_eq.
  - apply bool_decide_eq_false in Hd.
    destruct (vm !! portalIndex t) as [m0|]; [|exact Hm].
    destruct (Map_has m0 (t_url t)); [exact Hm|].
    rewrite lookup_insert_ne by exact Hd. exact Hm.
Qed.

Lemma foldl_applyCompleted_lookup done : forall vm i m,
  vm !! i = Some m ->
  foldl (applyCompleted items probe) vm done !! i
  = Some (foldl insertEntry m (omap (entryOf items probe i) done)).
Proof.
  induction done as [|idx done IH]; intros vm i m Hm; simpl; [exact Hm|].
  rewrite (IH _ i _ (applyCompleted_lookup vm i idx m Hm)).
  destruct (entryOf items probe i idx); reflexivity.
Qed.

Lemma entryOf_Some i idx k v :
  entryOf items probe i idx = Some (k, v) ->
  exists t res, tasks !! idx = Some t /\ portalIndex t = i /\ probe t = Return res
                /\ ok res = true /\ k = t_url t
                /\ v = mkVerified (t_url t) (t_source t) (mode res).
Proof.
  unfold entryOf. destruct (tasks !! idx) as [t|] eqn:Ht; [|discriminate].
  destruct (bool_decide (portalIndex t = i)) eqn:Hd; [|discriminate].
  apply bool_decide_eq_true in Hd.
  destruct (probe t) as [res|] eqn:Hr; [|discriminate].
  destruct (ok res) eqn:Hok; [|discriminate].
  intros [= <- <-]. exists t, res. repeat split; try reflexivity; assumption.
Qed.

Lemma entryOf_intro i idx t res :
  tasks !! idx = Some t -> portalIndex t = i -> probe t = Return res -> ok res = true ->
  entryOf items probe i idx
  = Some (t_url t, mkVerified (t_url t) (t_source t) (mode res)).
Proof.
  intros Ht Hp Hr Hok. unfold entryOf. rewrite Ht, Hr, Hok.
  rewrite bool_decide_eq_true_2 by exact Hp. reflexivity.
Qed.

Hypothesis urls_unique :
  forall item, item ∈ items -> NoDup (url <$> sparqlCandidates item).

Lemma tasksOf_keys k (item : Prepared R) :
  taskKey <$> tasksOf k item = (pair k ∘ url) <$> sparqlCandidates item.
Proof.
  unfold tasksOf. change (map ?f ?l) with (f <$> l).
  rewrite <- list_fmap_compose. reflexivity.
Qed.

Lemma tasks_from_NoDup (l : list (Prepared R)) : forall k,
  (forall item, item ∈ l -> NoDup (url <$> sparqlCandidates item)) ->
  NoDup (taskKey <$> concat (imap (fun i => tasksOf (k + i)) l))
  /\ forall t, t ∈ concat (imap (fun i => tasksOf (k + i)) l) -> k <= portalIndex t.
Proof.
  induction l as [|item l IH]; intros k Hl.
  - simpl. split; [apply NoDup_nil_2|]. intros t Ht. apply elem_of_nil in Ht. contradiction.
  - rewrite imap_cons. simpl concat.
    assert (E : imap ((fun i => tasksOf (k + i)) ∘ S) l
                = imap (fun i => tasksOf (R:=R) (S k + i)) l).
    { apply imap_ext. intros i x _. simpl. f_equal. lia. }
    rewrite E. destruct (IH (S k)) as [IH1 IH2].
    { intros x Hx. apply Hl. apply list_elem_of_further. exact Hx. }
    split.
    + rewrite fmap_app. apply NoDup_app. split; [|split; [|exact IH1]].
      * rewrite tasksOf_keys, list_fmap_compose. apply NoDup_fmap_2.
        -- intros a b [= ->]. reflexivity.
        -- apply Hl. apply list_elem_of_here.
      * intros key Hk1 Hk2.
        apply list_elem_of_fmap in Hk1 as (t1 & -> & Ht1).
        apply list_elem_of_fmap in Hk2 as (t2 & E2 & Ht2).
        apply IH2 in Ht2. unfold tasksOf in Ht1.
        apply list_elem_of_fmap in Ht1 as (c & -> & _).
        unfold taskKey in E2. simpl in E2. injection E2 as E2 _. lia.
    + intros t Ht. apply elem_of_app in Ht as [Ht|Ht].
      * unfold tasksOf in Ht. apply list_elem_of_fmap in Ht as (c & -> & _). simpl. lia.
      * apply IH2 in Ht. lia.
Qed.

Lemma tasks_keys_NoDup : NoDup (taskKey <$> tasks).
Proof. apply (tasks_from_NoDup items 0). exact urls_unique. Qed.

Lemma entries_NoDup i done :
  NoDup done -> NoDup (omap (entryOf items probe i) done).*1.
Proof.
  induction 1 as [|idx done Hnin Hnd IH]; simpl; [apply NoDup_nil_2|].
  destruct (entryOf items probe i idx) as [[k v]|] eqn:E; [|exact IH].
  simpl. apply NoDup_cons. split; [|exact IH].
  intros Hin. apply list_elem_of_fmap in Hin as ([k' v'] & Ek & Hin). simpl in Ek. subst k'.
  apply list_elem_of_omap in Hin as (idx' & Hidx' & E').
  apply entryOf_Some in E as (t & res & Ht & Hp & _ & _ & -> & _).
  apply entryOf_Some in E' as (t' & res' & Ht' & Hp' & _ & _ & Hu & _).
  assert (idx = idx'); [|subst idx'; contradiction].
  eapply (NoDup_lookup (taskKey <$> tasks) idx idx' (i, t_url t));
    [exact tasks_keys_NoDup| |].
  - rewrite list_lookup_fmap, Ht. unfold taskKey. simpl. rewrite Hp. reflexivity.
  - rewrite list_lookup_fmap, Ht'. unfold taskKey. simpl. rewrite Hp', Hu. reflexivity.
Qed.

(** After the completions [done], the verified set of portal [i] lists
    the successful tasks of the portal in the order they completed. *)
Lemma verified_after done i :
  NoDup done -> i < length items ->
  foldl (applyCompleted items probe) (verifiedMap0 items) done !! i
  = Some (omap (entryOf items probe i) done).
Proof.
  intros Hnd Hi.
  rewrite (foldl_applyCompleted_lookup done _ i []).
  - rewrite foldl_insertEntry_fresh; [reflexivity|apply entries_NoDup; exact Hnd|].
    intros k _ Hin. apply elem_of_nil in Hin. exact Hin.
  - unfold verifiedMap0. rewrite lookup_map_seq_0, list_lookup_fmap.
    apply lookup_lt_is_Some in Hi as [item ->]. reflexivity.
Qed.

End VerifiedSets.

Lemma filter_Permutation {A} (p : A -> bool) l1 l2 :
  l1 ≡ₚ l2 -> List.filter p l1 ≡ₚ List.filter p l2.
Proof.
  induction 1 as [|x l1 l2 _ IH|x y l|l1 l2 l3 _ IH1 _ IH2]; simpl.
  - reflexivity.
  - destruct (p x); [apply perm_skip|]; exact IH.
  - destruct (p x), (p y); try reflexivity. apply perm_swap.
  - etransitivity; eassumption.
Qed.

Lemma find_head_filter {A} (p : A -> bool) l : List.find p l = head (List.filter p l).
Proof.
  induction l as [|a l IH]; simpl; [reflexivity|]. destruct (p a); [reflexivity|exact IH].
Qed.

Lemma existsb_Permutation {A} (p : A -> bool) l1 l2 :
  l1 ≡ₚ l2 -> existsb p l1 = existsb p l2.
Proof.
  induction 1 as [|x l1 l2 _ IH|x y l|l1 l2 l3 _ IH1 _ IH2]; simpl.
  - reflexivity.
  - rewrite IH. reflexivity.
  - destruct (p x), (p y); reflexivity.
  - congruence.
Qed.

Lemma chooseVerified_explicit l v :
  chooseVerified l = Some v ->
  isExplicit (v_source v) = existsb (fun x => isExplicit (v_source x)) l.
Proof.
  unfold chooseVerified. destruct (List.find _ l) as [x|] eqn:E.
  - intros [= <-]. pose proof (find_some _ _ E) as [Hin Hx]. rewrite Hx. symmetry.
    apply existsb_exists. eauto.
  - intros Hh. pose proof (find_none _ _ E) as Hnone.
    assert (Hex : existsb (fun x => isExplicit (v_source x)) l = false).
    { apply not_true_is_false. intros H. apply existsb_exists in H as (x & Hin & Hx).
      rewrite (Hnone x Hin) in Hx. discriminate. }
    rewrite Hex. apply Hnone. destruct l; [discriminate|]. injection Hh as ->. left. reflexivity.
Qed.

Lemma chooseVerified_single l1 l2 :
  l1 ≡ₚ l2 -> singleChoice l1 -> chooseVerified l1 = chooseVerified l2.
Proof.
  intros Hp [H1|H1]; unfold chooseVerified.
  - pose proof (filter_Permutation (fun v => isExplicit (v_source v)) _ _ Hp) as Hf.
    rewrite !find_head_filter.
    destruct (List.filter _ l1) as [|x [|y f1]]; try discriminate H1.
    apply Permutation_singleton_l in Hf. rewrite <- Hf. reflexivity.
  - destruct l1 as [|x [|y l1]]; try discriminate H1.
    apply Permutation_singleton_l in Hp. rewrite Hp. reflexivity.
Qed.

Lemma chooseVerified_is_Some l : l <> [] -> is_Some (chooseVerified l).
Proof.
  intros Hne. unfold chooseVerified. destruct (List.find _ l); [eauto|].
  destruct l; [congruence|]. simpl. eauto.
Qed.

Section Agreement.
Context {R P : Type}.
Variable projectOutput : Prepared R -> P.
Variable items : list (Prepared R).
Variable strict : bool.

Lemma rowFor_agree vm1 vm2 i item :
  Map_values (default [] (vm1 !! i)) ≡ₚ Map_values (default [] (vm2 !! i)) ->
  rowsAgree (Map_values (default [] (vm1 !! i)))
    (rowFor projectOutput items strict vm1 i item)
    (rowFor projectOutput items strict vm2 i item).
Proof.
  intros Hp. unfold rowFor.
  set (v1 := Map_values (default [] (vm1 !! i))) in *.
  set (v2 := Map_values (default [] (vm2 !! i))) in *.
  rewrite <- (Permutation_length Hp).
  destruct (length v1 =? 0) eqn:El; [exact I|].
  destruct (strict && _); [exact I|].
  assert (Hne : v1 <> []) by (intros E; rewrite E in El; discriminate).
  assert (Hne2 : v2 <> []) by (intros E; rewrite E in Hp; apply Permutation_nil_r in Hp; auto).
  destruct (chooseVerified_is_Some v1 Hne) as [c1 E1].
  destruct (chooseVerified_is_Some v2 Hne2) as [c2 E2].
  unfold rowsAgree. simpl. split; [reflexivity|]. split; [|split; [reflexivity|split; [exact Hp|split]]].
  - rewrite E1, E2. simpl. f_equal. f_equal.
    rewrite (chooseVerified_explicit v1 c1 E1), (chooseVerified_explicit v2 c2 E2).
    apply existsb_Permutation. exact Hp.
  - change (map v_url v1) with (v_url <$> v1). change (map v_url v2) with (v_url <$> v2).
    rewrite Hp. reflexivity.
  - intros Hs. rewrite (chooseVerified_single v1 v2 Hp Hs). auto.
Qed.
End Agreement.

Section Determinism.
Context {R : Type}.
Variable items : list (Prepared R).
Variable probe : Task -> Outcome ProbeResult.
Hypothesis urls_unique :
  forall item, item ∈ items -> NoDup (url <$> sparqlCandidates item).

Lemma finished_completed concurrency progress st :
  concurrency <> NaN ->
  reachable items probe concurrency progress st -> allFinished st = true ->
  completedOf (history st) ≡ₚ seq 0 (length (tasks items)).
Proof.
  intros Hnan Hreach Hall. destruct (reachable_Inv _ _ _ _ _ Hreach) as [HI Hn].
  pose proof (nWorkers_started _ _ Hnan Hn) as Hlen.
  pose proof (proj1 (allFinished_iff st) Hall) as Hfin.
  assert (Hcur : length (tasks items) <= cursor st).
  { apply (inv_finished _ _ _ HI). destruct (workers st) as [|s ws] eqn:E.
    - simpl in Hlen. lia.
    - rewrite (Hfin s) by apply list_elem_of_here. apply list_elem_of_here. }
  assert (Hinf : inflight (workers st) = []).
  { destruct (inflight (workers st)) as [|j l] eqn:E; [reflexivity|]. exfalso.
    assert (Hj : j ∈ inflight (workers st)) by (rewrite E; apply list_elem_of_here).
    apply list_elem_of_omap in Hj as (s & Hs & Es). rewrite (Hfin s Hs) in Es. discriminate. }
  assert (Hflt : faultedOf (history st) = []).
  { destruct (faultedOf (history st)) as [|j l] eqn:E; [reflexivity|]. exfalso.
    destruct (inv_faulted _ _ _ HI) as [e He]; [rewrite E; discriminate|].
    specialize (Hfin _ He). discriminate. }
  pose proof (inv_held _ _ _ HI) as Hh.
  rewrite (inv_claims _ _ _ HI), Hinf, Hflt, !app_nil_r in Hh.
  replace (cursor st `min` length (tasks items)) with (length (tasks items)) in Hh by lia.
  symmetry. exact Hh.
Qed.

Lemma finished_verified concurrency progress st i :
  concurrency <> NaN ->
  reachable items probe concurrency progress st -> allFinished st = true ->
  i < length items ->
  exists done, done ≡ₚ seq 0 (length (tasks items))
    /\ verifiedMap st !! i = Some (omap (entryOf items probe i) done).
Proof.
  intros Hnan Hreach Hall Hi. exists (completedOf (history st)).
  pose proof (finished_completed _ _ _ Hnan Hreach Hall) as Hp.
  split; [exact Hp|].
  destruct (reachable_Inv _ _ _ _ _ Hreach) as [HI _].
  rewrite (inv_map _ _ _ HI). apply verified_after; [exact urls_unique| |exact Hi].
  rewrite Hp. apply NoDup_seq.
Qed.

Lemma entries_elem i done v :
  done ≡ₚ seq 0 (length (tasks items)) ->
  v ∈ Map_values (omap (entryOf items probe i) done)
  <-> exists t res, t ∈ tasks items /\ portalIndex t = i /\ probe t = Return res
                    /\ ok res = true
                    /\ v = mkVerified (t_url t) (t_source t) (mode res).
Proof.
  intros Hp. unfold Map_values. change (map snd ?l) with (snd <$> l).
  rewrite list_elem_of_fmap. split.
  - intros ([k v'] & -> & Hin). apply list_elem_of_omap in Hin as (idx & _ & E).
    apply entryOf_Some in E as (t & res & Ht & Hpi & Hr & Hok & _ & ->).
    exists t, res. repeat split; try assumption. apply list_elem_of_lookup. eauto.
  - intros (t & res & Ht & Hpi & Hr & Hok & ->).
    apply list_elem_of_lookup in Ht as [idx Ht].
    exists (t_url t, mkVerified (t_url t) (t_source t) (mode res)). split; [reflexivity|].
    apply list_elem_of_omap. exists idx. split.
    + rewrite Hp. apply elem_of_seq. apply lookup_lt_Some in Ht. lia.
    + apply entryOf_intro; assumption.
Qed.
End Determinism.

(** Claim C1, as the engine has it.  Let the candidate URLs of each
    portal be distinct.  Two finished runs on the same portals and probe
    outcomes, with any concurrency values that are numbers (not [NaN],
    with which the engine starts no worker) and any completion orders,
    leave
    for every portal verified sets that are permutations of each other:
    the successful tasks of the portal, each with its source and mode.
    Both runs give the portal a row or neither does; the rows agree on
    the projected attributes, on [sparqlGuessed] and on the verified
    endpoints as sets; and they agree on the chosen endpoint and its mode
    when the verified set has one explicit entry or one entry. *)
Theorem verified_sets_agree_across_schedules {R P : Type}
    (projectOutput : Prepared R -> P) (items : list (Prepared R))
    (probe : Task -> Outcome ProbeResult) (strict : bool)
    (concurrency1 concurrency2 : Number) (progress1 progress2 : bool) (st1 st2 : State) :
  (forall item, item ∈ items -> NoDup (url <$> sparqlCandidates item)) ->
  concurrency1 <> NaN -> concurrency2 <> NaN ->
  reachable items probe concurrency1 progress1 st1 -> allFinished st1 = true ->
  reachable items probe concurrency2 progress2 st2 -> allFinished st2 = true ->
  forall i item, items !! i = Some item ->
    let verified1 := Map_values (default [] (verifiedMap st1 !! i)) in
    let verified2 := Map_values (default [] (verifiedMap st2 !! i)) in
    verified1 ≡ₚ verified2
    /\ (forall v, v ∈ verified1 <->
          exists t res, t ∈ tasks items /\ portalIndex t = i /\ probe t = Return res
                        /\ ok res = true
                        /\ v = mkVerified (t_url t) (t_source t) (mode res))
    /\ rowsAgree verified1
         (rowFor projectOutput items strict (verifiedMap st1) i item)
         (rowFor projectOutput items strict (verifiedMap st2) i item).
Proof.
  intros Hu Hn1 Hn2 Hr1 Hf1 Hr2 Hf2 i item Hi.
  pose proof (lookup_lt_Some _ _ _ Hi) as Hlt.
  destruct (finished_verified items probe Hu _ _ st1 i Hn1 Hr1 Hf1 Hlt) as (d1 & Hd1 & E1).
  destruct (finished_verified items probe Hu _ _ st2 i Hn2 Hr2 Hf2 Hlt) as (d2 & Hd2 & E2).
  assert (Hperm : Map_values (default [] (verifiedMap st1 !! i))
                  ≡ₚ Map_values (default [] (verifiedMap st2 !! i))).
  { rewrite E1, E2. simpl. unfold Map_values. change (map snd ?l) with (snd <$> l).
    rewrite Hd1, Hd2. reflexivity. }
  cbn zeta. split; [exact Hperm|]. split.
  - intros v. rewrite E1. simpl. apply entries_elem. exact Hd1.
  - apply rowFor_agree. exact Hperm.
Qed.

(** ** Faults *)

Lemma firstFault_None h : firstFault h = None <-> faultedOf h = [].
Proof.
  induction h as [|[w i|w i|w i e] h IH]; simpl; try exact IH.
  - split; reflexivity.
  - split; discriminate.
Qed.


Section Faults.
Context {R P : Type}.
Variable projectOutput : Prepared R -> P.
Variable items : list (Prepared R).
Variable probe : Task -> Outcome ProbeResult.
Variable concurrency : Number.
Variable progress : bool.
Variable strict : bool.




End Faults.


(** Claim C10.  Every row of the derivation-only mode carries the URL
    of one of the portal's candidates, and every row of the verification
    mode the URL of one of the portal's verified endpoints; in both the
    guessed flag is set too.  So no row the engine returns has a null
    [sparqlEndpoint]. *)
Theorem emitted_rows_carry_an_endpoint {R P : Type}
    (projectOutput : Prepared R -> P) (strict : bool) :
  (forall (prepared : list (Prepared R)) row,
      row ∈ deriveRows projectOutput strict prepared ->
      exists p c, p ∈ prepared /\ c ∈ sparqlCandidates p
                  /\ c_sparqlEndpoint row = Some (url c)
                  /\ c_sparqlGuessed row = Some (negb (isExplicit (source c))))
  /\ (forall (items : list (Prepared R)) vm row,
        row ∈ rows projectOutput items strict vm ->
        exists i v, v ∈ Map_values (default [] (vm !! i))
                    /\ sparqlEndpoint row = Some (v_url v)
                    /\ sparqlGuessed row = Some (negb (isExplicit (v_source v))))
  /\ (forall (items : list (Prepared R)) probe concurrency progress sched rows row,
        verifyCandidatesByCandidate projectOutput items probe concurrency progress strict sched
          = Some (Return rows) ->
        row ∈ rows -> is_Some (sparqlEndpoint row)).
Proof.
  assert (Hrows : forall (items : list (Prepared R)) vm row,
        row ∈ rows projectOutput items strict vm ->
        exists i v, v ∈ Map_values (default [] (vm !! i))
                    /\ sparqlEndpoint row = Some (v_url v)
                    /\ sparqlGuessed row = Some (negb (isExplicit (v_source v)))).
  { intros items vm row Hrow. apply rows_elem in Hrow as (i & item & _ & E).
    apply rowFor_endpoint in E as (v & _ & Hv & E1 & E2 & _). eauto. }
  split; [|split; [exact Hrows|]].
  - intros prepared row Hrow. unfold deriveRows in Hrow.
    apply list_elem_of_omap in Hrow as (p & Hp & E). unfold deriveRow in E.
    destruct (length (sparqlCandidates p) =? 0) eqn:El; [discriminate|].
    destruct (strict && _); [discriminate|].
    destruct (choosePreferred (sparqlCandidates p)) as [c|] eqn:Ec.
    + injection E as <-. simpl. exists p, c. repeat split; try assumption.
      eapply choosePreferred_elem. exact Ec.
    + apply choosePreferred_None in Ec. rewrite Ec in El. discriminate.
  - intros items probe concurrency progress sched rs row Hv Hrow.
    unfold verifyCandidatesByCandidate, outcome in Hv.
    destruct (nWorkers concurrency) as [n|]; [|discriminate].
    destruct (firstFault _); [discriminate|]. destruct (allFinished _); [|discriminate].
    injection Hv as <-. apply Hrows in Hrow as (i & v & _ & E & _). rewrite E. eauto.
Qed.

(** ** The engine without a worker *)

Lemma omap_imap_None {A B} (l : list A) : forall F : nat -> A -> option B,
  (forall i x, F i x = None) -> omap id (imap F l) = [].
Proof.
  induction l as [|x l IH]; intros F HF; [reflexivity|].
  rewrite imap_cons. simpl. rewrite HF. simpl. apply IH. intros i y. apply HF.
Qed.

Lemma rows_verifiedMap0 {R P : Type} (projectOutput : Prepared R -> P)
    (items : list (Prepared R)) strict :
  rows projectOutput items strict (verifiedMap0 items) = [].
Proof.
  unfold rows. apply omap_imap_None. intros i x. unfold rowFor, verifiedMap0.
  rewrite lookup_map_seq_0, list_lookup_fmap. destruct (items !! i); reflexivity.
Qed.

Lemma run_no_worker {R : Type} (items : list (Prepared R)) probe progress sched : forall st,
  workers st = [] -> run items probe progress sched st = st.
Proof.
  induction sched as [|w sched IH]; intros st Hw; [reflexivity|].
  simpl. unfold resume. rewrite Hw, lookup_nil. apply IH. exact Hw.
Qed.

(** Claim C9 fails in the code at a concurrency that is no number.
    [--concurrency abc] gives [Number("abc")], which is [NaN];
    [Math.max(1, NaN)] is [NaN] and [Array.from] reads the length [NaN]
    as 0.  So the engine starts no worker: the only state of the run is
    the start, in which nothing is claimed and every verified set is
    empty, and the result is the empty list of rows, whatever the
    portals and the probes are.  For the portal of the scenarios, whose
    explicit candidate answers, both tasks are skipped and no row comes
    out, where ten workers return its row. *)
Theorem nan_concurrency_starts_no_worker :
  nWorkers NaN = Return 0
  /\ (forall (R : Type) (items : list (Prepared R)) probe progress st,
        reachable items probe NaN progress st -> st = state0 items)
  /\ (forall (R P : Type) (projectOutput : Prepared R -> P) items probe progress strict sched,
        verifyCandidatesByCandidate projectOutput items probe NaN progress strict sched
        = Some (Return []))
  /\ length (tasks xOrg) = 2
  /\ claimsOf (history (state0 xOrg)) = []
  /\ verifyCandidatesByCandidate (fun _ => tt) xOrg explicitAnswers NaN false false [0; 1]
     = Some (Return [])
  /\ verifyCandidatesByCandidate (fun _ => tt) xOrg explicitAnswers (ofZ 10) false false [0; 1]
     <> Some (Return []).
Proof.
  assert (H : forall (R P : Type) (projectOutput : Prepared R -> P) items probe progress
                strict sched,
        verifyCandidatesByCandidate projectOutput items probe NaN progress strict sched
        = Some (Return [])).
  { intros R P projectOutput items probe progress strict sched.
    unfold verifyCandidatesByCandidate. rewrite nWorkers_NaN.
    change (init items 0) with (state0 items).
    rewrite run_no_worker by reflexivity. unfold outcome. simpl.
    rewrite rows_verifiedMap0. reflexivity. }
  split; [reflexivity|]. split; [|split; [exact H|]].
  - intros R items probe progress st (n & Hn & Hr). rewrite nWorkers_NaN in Hn.
    injection Hn as <-. change (init items 0) with (state0 items) in Hr.
    apply rtc_inv in Hr as [<-|(st1 & [w Hw] & _)]; [reflexivity|].
    unfold resume in Hw. simpl in Hw. rewrite ?lookup_nil in Hw. discriminate.
  - split; [reflexivity|]. split; [reflexivity|]. split; [apply H|].
    vm_compute. discriminate.
Qed.

(** ** Scenarios and concrete runs *)

(** The end-to-end scenarios of the design document. *)
Example scenario_explicit_verifies :
  verifyCandidatesByCandidate (fun _ => tt) xOrg explicitAnswers (ofZ 10) false false [0; 1]
  = Some (Return [mkVerifiedRow tt
       (Some "https://x.org/sparql"%string) (Some false) true (Some ask_get)
       ["https://x.org/sparql"%string]
       [mkVerified "https://x.org/sparql" explicit (Some ask_get)]]).
Proof. vm_compute. reflexivity. Qed.

(** A concurrency beyond what an array can hold: [Array.from] raises
    before any worker starts, and the call is rejected. *)
Example scenario_too_many_workers :
  nWorkers PosInfinity = Raise RangeError
  /\ nWorkers (ofZ 4294967296) = Raise RangeError
  /\ verifyCandidatesByCandidate (fun _ => tt) xOrg explicitAnswers PosInfinity
       false false [0; 1]
     = Some (Raise RangeError).
Proof. repeat split. Qed.

Example scenario_nothing_verifies :
  verifyCandidatesByCandidate id xOrg nobodyAnswers (ofZ 10) false false [0; 1]
  = Some (Return []).
Proof. vm_compute. reflexivity. Qed.

(** Claim C1 fails as stated.  One portal, two guessed candidates that
    both answer: with one worker the first candidate is verified first
    and chosen; with two workers, when the second probe completes first,
    the second candidate is chosen, and the verified list is in the other
    order. *)
Lemma chosen_endpoint_depends_on_completion_order :
  exists rows1 rows2,
    verifyCandidatesByCandidate id twoGuesses alwaysAskGet (ofZ 1) false false [0; 0]
      = Some (Return rows1)
    /\ verifyCandidatesByCandidate id twoGuesses alwaysAskGet (ofZ 2) false false [1; 0]
      = Some (Return rows2)
    /\ sparqlEndpoint <$> rows1 = [Some "https://x.org/sparql"%string]
    /\ sparqlEndpoint <$> rows2 = [Some "https://x.org/sparql/"%string]
    /\ sparqlEndpointsVerified <$> rows1 <> sparqlEndpointsVerified <$> rows2.
Proof.
  eexists _, _. split; [vm_compute; reflexivity|]. split; [vm_compute; reflexivity|].
  split; [reflexivity|]. split; [reflexivity|]. discriminate.
Qed.

(** Claim C4 fails as stated.  A page that quotes the acknowledgment
    document is served with a successful status and the content type
    [application/sparql-results+xml].  Its body contains the document,
    and [looksLikeXmlAsk] accepts it; but the body opens with [<html],
    so both acknowledgment probes reject the response, the content type
    is no RDF type, and the prober returns [{ok: false, mode: null}]. *)
Lemma quoted_acknowledgment_is_rejected :
  pageFetch [] (mkRequest GET "https://x.org/sparql" askAccept None None) 8000%Z
  = Some (mkResponse true (Some (str "application/sparql-results+xml"))
            (Some (str "<html><body><pre>" ++ askDocument ++ str "</pre></body></html>")))
  /\ looksLikeXmlAsk (Some (str "<html><body><pre>" ++ askDocument
                            ++ str "</pre></body></html>")) = true
  /\ fst (validateSparqlEndpoint pageFetch sameUrl id parseAskBody
            "https://x.org/sparql" 8000%Z [])
     = Return (mkProbe false None).
Proof.
  split; [reflexivity|]. split.
  - apply looksLikeXmlAsk_embedded. apply Nat.leb_le. vm_compute. reflexivity.
  - vm_compute. reflexivity.
Qed.


Lemma uniqueFrom_NoDup arr : forall seen,
  NoDup (url <$> uniqueFrom seen arr)
  /\ forall c, c ∈ uniqueFrom seen arr -> url c ∉ seen.
Proof.
  induction arr as [|[c|] arr IH]; intros seen; simpl.
  - split; [apply NoDup_nil_2|]. intros c Hc. apply elem_of_nil in Hc. contradiction.
  - destruct (bool_decide (url c = ""%string)); [apply IH|].
    destruct (bool_decide (trimUrl (url c) ∈ seen)) eqn:Hseen; [apply IH|].
    apply bool_decide_eq_false in Hseen.
    destruct (IH ({[trimUrl (url c)]} ∪ seen)) as [IH1 IH2]. split.
    + simpl. apply NoDup_cons. split; [|exact IH1].
      intros Hin. apply list_elem_of_fmap in Hin as (c' & E & Hc').
      apply IH2 in Hc'. apply Hc'. apply elem_of_union_l, elem_of_singleton.
      symmetry. exact E.
    + intros c' Hc'. apply elem_of_cons in Hc' as [->|Hc']; [exact Hseen|].
      apply IH2 in Hc'. intros Hin. apply Hc'. apply elem_of_union_r. exact Hin.
  - apply IH.
Qed.

(** Within one portal the candidate URLs are distinct. *)
Lemma uniqueCandidates_NoDup arr : NoDup (url <$> uniqueCandidates arr).
Proof. apply uniqueFrom_NoDup. Qed.

(** Claim C3 at an HTML response whose body passes the JSON check. *)
Lemma html_response_witness :
  includes (str "text/html; charset=utf-8") (str "text/html") = true
  /\ looksLikeJsonAsk parseAskBody jsonAskBody = true
  /\ (looksLikeHtml (Some (str "text/html; charset=utf-8")) (Some jsonAskBody) = true
      /\ fst (tryAskGet htmlFetch sameUrl parseAskBody "https://x.org/sparql"
                (str "ASK {}") 8000%Z []) = Return (mkStrategy false)
      /\ fst (tryAskPost htmlFetch id parseAskBody "https://x.org/sparql"
                (str "ASK {}") 8000%Z []) = Return (mkStrategy false)).
Proof.
  split; [vm_compute; reflexivity|]. split; [vm_compute; reflexivity|].
  apply (html_response_is_never_an_acknowledgment htmlFetch sameUrl id parseAskBody
           "https://x.org/sparql" (str "ASK {}") 8000%Z [] true
           (str "text/html; charset=utf-8") jsonAskBody).
  - vm_compute. reflexivity.
  - intros req. reflexivity.
Defined.

(** Claim C4 at a response that carries the document after an XML
    declaration. *)
Lemma looksLikeXmlAsk_witness :
  fst (validateSparqlEndpoint xmlFetch sameUrl id parseAskBody "https://x.org/sparql" 8000%Z [])
  = Return (mkProbe true (Some ask_get)).
Proof.
  apply (proj1 (proj2 (proj2 looksLikeXmlAsk_meets_its_description))
           xmlFetch sameUrl id parseAskBody "https://x.org/sparql" "https://x.org/sparql"
           8000%Z [] (str "application/sparql-results+xml") (str "<?xml version='1.0'?>") []).
  - reflexivity.
  - reflexivity.
  - apply Nat.leb_le. vm_compute. reflexivity.
  - vm_compute. reflexivity.
Defined.

(** Claim C5 at a portal whose explicit candidate failed and whose
    guessed candidate verified: it keeps its row in strict mode. *)
Lemma strict_mode_witness :
  xOrg !! 0 = Some (mkPrepared tt [mkCandidate "https://x.org/sparql" explicit;
                                   mkCandidate "https://x.org/query" guessed])
  /\ Map_values (default [] (onlyGuessVerified !! 0))
     = [mkVerified "https://x.org/query" guessed (Some ask_post)]
  /\ is_Some (rowFor id xOrg true onlyGuessVerified 0
                (mkPrepared tt [mkCandidate "https://x.org/sparql" explicit;
                                mkCandidate "https://x.org/query" guessed])).
Proof.
  split; [reflexivity|]. split; [vm_compute; reflexivity|].
  apply (proj1 (strict_mode_gates_on_explicit_candidates id xOrg onlyGuessVerified 0 _ eq_refl)).
  split.
  - vm_compute. discriminate.
  - exists (mkCandidate "https://x.org/sparql" explicit). split; [apply list_elem_of_here|reflexivity].
Defined.

(** Claim C6 at a list with a guessed entry before two explicit ones. *)
Lemma choosePreferred_witness :
  choosePreferred [mkCandidate "https://x.org/query" guessed;
                   mkCandidate "https://x.org/sparql" explicit;
                   mkCandidate "https://x.org/endpoint" explicit]
  = Some (mkCandidate "https://x.org/sparql" explicit).
Proof.
  apply (proj1 (proj2 (choosePreferred_selection _))
           [mkCandidate "https://x.org/query" guessed]
           (mkCandidate "https://x.org/sparql" explicit)
           [mkCandidate "https://x.org/endpoint" explicit]).
  - reflexivity.
  - constructor; [discriminate|constructor].
  - reflexivity.
Defined.

(** Claim C7 at the run in which the second probe completes first:
    the step of worker 1 inserts the second candidate with its source
    and mode into the empty set of the portal. *)
Lemma one_entry_per_url_witness :
  exists st',
    resume twoGuesses alwaysAskGet false 1 (init twoGuesses 2) = Some st'
    /\ verifiedMap st' !! 0
       = Some [("https://x.org/sparql/"%string,
                mkVerified "https://x.org/sparql/" guessed (Some ask_get))].
Proof.
  refine (proj2 (proj2 (proj2 (proj2 (proj2 (proj2 (proj2
    (verified_set_holds_one_entry_per_url twoGuesses alwaysAskGet (ofZ 2) false)))))))
    (init twoGuesses 2) 1 1 (mkTask 0 "https://x.org/sparql/" guessed)
    (mkProbe true (Some ask_get)) [] _ _ _ _ _ _).
  - apply reachable_init. reflexivity.
  - reflexivity.
  - reflexivity.
  - reflexivity.
  - reflexivity.
  - reflexivity.
Defined.


(** Claim C1, as the engine has it, at the two runs of the
    counterexample. *)
Lemma verified_sets_agree_witness :
  Map_values (default [] (verifiedMap sequentialRun !! 0))
  ≡ₚ Map_values (default [] (verifiedMap overtakingRun !! 0)).
Proof.
  refine (proj1 (verified_sets_agree_across_schedules id twoGuesses alwaysAskGet false
                   (ofZ 1) (ofZ 2)
                   false false sequentialRun overtakingRun _ _ _ _ _ _ _ 0
                   (mkPrepared tt [mkCandidate "https://x.org/sparql" guessed;
                                   mkCandidate "https://x.org/sparql/" guessed]) eq_refl)).
  - intros item Hin. apply list_elem_of_singleton in Hin as ->.
    simpl. apply NoDup_cons. split; [|apply NoDup_singleton].
    intros H. apply list_elem_of_singleton in H. discriminate H.
  - discriminate.
  - discriminate.
  - apply run_reachable. apply reachable_init. reflexivity.
  - vm_compute. reflexivity.
  - apply run_reachable. apply reachable_init. reflexivity.
  - vm_compute. reflexivity.
Defined.


(** Claim C10 at the row of the first end-to-end scenario. *)
Lemma emitted_rows_witness :
  is_Some (sparqlEndpoint
             (mkVerifiedRow tt (Some "https://x.org/sparql"%string) (Some false) true
                (Some ask_get) ["https://x.org/sparql"%string]
                [mkVerified "https://x.org/sparql" explicit (Some ask_get)])).
Proof.
  eapply (proj2 (proj2 (emitted_rows_carry_an_endpoint (fun _ : Prepared unit => tt) false))
            xOrg explicitAnswers (ofZ 10) false [0; 1]).
  - vm_compute. reflexivity.
  - apply list_elem_of_here.
Defined.

(** * Further properties of the script *)

(** ** Strings *)

Lemma toLowerCase_app a b : toLowerCase (a ++ b) = toLowerCase a ++ toLowerCase b.
Proof. unfold toLowerCase. apply map_app. Qed.

Lemma startsWith_app p s : startsWith (p ++ s) p = true.
Proof.
  induction p as [|c p IH]; simpl; [destruct s; reflexivity|].
  rewrite IH, andb_true_r. apply eqChar_true. reflexivity.
Qed.

Lemma includes_startsWith s m : startsWith s m = true -> includes s m = true.
Proof. intros H. destruct s; cbn [includes]; rewrite H; reflexivity. Qed.

Lemma includes_app pre m post : includes (pre ++ m ++ post) m = true.
Proof.
  induction pre as [|c pre IH].
  - apply includes_startsWith. apply (startsWith_app m post).
  - simpl. rewrite IH. apply orb_true_r.
Qed.

Lemma isWhiteSpace_lowerChar c : isWhiteSpace (lowerChar c) = isWhiteSpace c.
Proof. destruct c as [[] [] [] [] [] [] [] []]; vm_compute; reflexivity. Qed.

Lemma lowerChar_idem c : lowerChar (lowerChar c) = lowerChar c.
Proof. destruct c as [[] [] [] [] [] [] [] []]; vm_compute; reflexivity. Qed.

Lemma trimStart_ws ws s : forallb isWhiteSpace ws = true -> trimStart (ws ++ s) = trimStart s.
Proof.
  induction ws as [|c ws IH]; simpl; [reflexivity|].
  intros H. apply andb_true_iff in H as [Hc H]. rewrite Hc. apply IH. exact H.
Qed.

Lemma trimStart_all_ws ws : forallb isWhiteSpace ws = true -> trimStart ws = [].
Proof. intros H. rewrite <- (app_nil_r ws), trimStart_ws by exact H. reflexivity. Qed.

Lemma trimStart_keep c s : isWhiteSpace c = false -> trimStart (c :: s) = c :: s.
Proof. intros H. simpl. rewrite H. reflexivity. Qed.

Lemma trimStart_app_keep x c y :
  isWhiteSpace c = false -> trimStart (x ++ c :: y) = trimStart x ++ c :: y.
Proof.
  intros H. induction x as [|d x IH]; simpl; [rewrite H; reflexivity|].
  destruct (isWhiteSpace d); [exact IH|reflexivity].
Qed.

Lemma trimEnd_app_keep a c b :
  isWhiteSpace c = false -> trimEnd ((a ++ [c]) ++ b) = (a ++ [c]) ++ trimEnd b.
Proof.
  intros H. unfold trimEnd. rewrite !rev_app_distr. simpl.
  rewrite trimStart_app_keep by exact H.
  rewrite rev_app_distr. simpl. rewrite rev_involutive. reflexivity.
Qed.

Lemma trimEnd_ws s ws : forallb isWhiteSpace ws = true -> trimEnd (s ++ ws) = trimEnd s.
Proof.
  intros H. unfold trimEnd. rewrite rev_app_distr, trimStart_ws; [reflexivity|].
  rewrite forallb_forall in *. intros x Hx. apply H. apply in_rev. exact Hx.
Qed.

Lemma trimStart_head s :
  match trimStart s with c :: _ => isWhiteSpace c = false | [] => True end.
Proof.
  induction s as [|c s IH]; simpl; [exact I|].
  destruct (isWhiteSpace c) eqn:E; [exact IH|exact E].
Qed.

(** Lower-casing a text to a literal fixes its length and, where the
    literal has no white space, leaves no white space in it. *)
Lemma toLowerCase_length a l : toLowerCase a = l -> length a = length l.
Proof. intros <-. unfold toLowerCase. rewrite length_map. reflexivity. Qed.

Lemma toLowerCase_snoc a l c :
  toLowerCase a = l ++ [c] -> exists a0 d, a = a0 ++ [d] /\ lowerChar d = c.
Proof.
  intros H. destruct a as [|x a'] using rev_ind.
  - destruct l; discriminate.
  - rewrite toLowerCase_app in H. simpl in H. apply app_inj_tail in H as [_ H]. eauto.
Qed.

Lemma toLowerCase_cons a c l :
  toLowerCase a = c :: l -> exists d a', a = d :: a' /\ lowerChar d = c.
Proof. destruct a as [|d a']; [discriminate|]. simpl. intros [= H _]. eauto. Qed.

(** ** What counts as HTML, as RDF and as a service description *)

(** Property X1.
    The body of a response looks like HTML when, after any white space,
    it opens with [<!doctype html] or [<html] in any letter case; the
    content type plays no part in this. *)
Theorem looksLikeHtml_body_opening (ct : option text) (ws tag rest : text) (opening : string) :
  opening ∈ htmlOpenings ->
  forallb isWhiteSpace ws = true ->
  toLowerCase tag = str opening ->
  looksLikeHtml ct (Some (ws ++ tag ++ rest)) = true.
Proof.
  intros Hop Hws Htag. unfold looksLikeHtml.
  destruct (includes _ (str "text/html")); [reflexivity|].
  assert (Hshape : exists d a0 e, tag = (d :: a0) ++ [e]
            /\ isWhiteSpace d = false /\ isWhiteSpace e = false /\ length tag <= 500).
  { assert (Hl : length tag <= 500 /\ exists c l e, str opening = c :: l ++ [e]
               /\ isWhiteSpace c = false /\ isWhiteSpace e = false).
    { unfold htmlOpenings in Hop. rewrite (toLowerCase_length tag _ Htag).
      apply elem_of_cons in Hop as [->|Hop];
        [|apply list_elem_of_singleton in Hop as ->].
      - split; [apply Nat.leb_le; vm_compute; reflexivity|].
        exists "<"%char, (str "!doctype htm"), "l"%char. repeat split.
      - split; [apply Nat.leb_le; vm_compute; reflexivity|].
        exists "<"%char, (str "htm"), "l"%char. repeat split. }
    destruct Hl as (Hlen & c & l & e & El & Hc & He).
    rewrite El in Htag.
    destruct (toLowerCase_cons _ _ _ Htag) as (d & a' & -> & Hd).
    change (c :: l ++ [e]) with ((c :: l) ++ [e]) in Htag.
    destruct (toLowerCase_snoc _ _ _ Htag) as (a0 & e' & E & He').
    destruct a0 as [|d0 a0].
    - exfalso. simpl in E. rewrite E in Htag. simpl in Htag.
      injection Htag as _ Htag. destruct l; discriminate.
    - simpl in E. injection E as <- ->.
      exists d, a0, e'. split; [reflexivity|].
      rewrite <- (isWhiteSpace_lowerChar d), Hd, <- (isWhiteSpace_lowerChar e'), He'.
      auto. }
  destruct Hshape as (d & a0 & e & -> & Hd & He & Hlen).
  assert (Htrim : exists r, trim (orEmpty (Some (ws ++ ((d :: a0) ++ [e]) ++ rest)))
                            = ((d :: a0) ++ [e]) ++ r).
  { unfold trim, orEmpty. simpl default. rewrite trimStart_ws by exact Hws.
    change (((d :: a0) ++ [e]) ++ rest) with (d :: ((a0 ++ [e]) ++ rest)).
    rewrite trimStart_keep by exact Hd.
    change (d :: ((a0 ++ [e]) ++ rest)) with (((d :: a0) ++ [e]) ++ rest).
    rewrite trimEnd_app_keep by exact He. eauto. }
  destruct Htrim as [r ->]. unfold slice0.
  rewrite take_app_ge by exact Hlen. rewrite toLowerCase_app, Htag.
  unfold htmlOpenings in Hop.
  apply elem_of_cons in Hop as [->|Hop]; [|apply list_elem_of_singleton in Hop as ->].
  - rewrite startsWith_app. reflexivity.
  - rewrite startsWith_app. destruct (startsWith _ _); reflexivity.
Qed.

Lemma looksLikeHtml_body_witness :
  looksLikeHtml (Some (str "application/json"))
    (Some (str "  " ++ str "<!DocType HTML" ++ str " PUBLIC><html></html>")) = true.
Proof.
  apply (looksLikeHtml_body_opening _ _ _ _ "<!doctype html").
  - apply list_elem_of_here.
  - reflexivity.
  - reflexivity.
Defined.

(** Property X2.
    A content type is taken for RDF when it names one of the seven
    known types, in any letter case and with anything around it (a
    charset parameter, other types). *)
Theorem isRdfContentType_tolerant (pre mid post : text) (ty : string) :
  ty ∈ rdfContentTypes ->
  toLowerCase mid = str ty ->
  isRdfContentType (Some (pre ++ mid ++ post)) = true.
Proof.
  intros Hty Hmid. unfold isRdfContentType, orEmpty. simpl default.
  rewrite !toLowerCase_app, Hmid.
  pose proof (includes_app (toLowerCase pre) (str ty) (toLowerCase post)) as Hin.
  unfold rdfContentTypes in Hty.
  repeat (apply elem_of_cons in Hty as [->|Hty];
          [rewrite Hin, ?orb_true_r; reflexivity|]).
  apply elem_of_nil in Hty. contradiction.
Qed.

Lemma isRdfContentType_witness :
  isRdfContentType (Some (str "Text/Turtle; charset=UTF-8")) = true.
Proof.
  apply (isRdfContentType_tolerant [] (str "Text/Turtle") (str "; charset=UTF-8") "text/turtle").
  - apply list_elem_of_here.
  - reflexivity.
Defined.

(** Property X3.
    A body is taken for a service description when one of the four
    markers occurs in it, in any letter case, so that the occurrence ends
    within the first 300000 characters. *)
Theorem looksLikeServiceDescription_marker (pre mid post : text) (marker : string) :
  marker ∈ descriptionMarkers ->
  toLowerCase mid = str marker ->
  length pre + length mid <= 300000 ->
  looksLikeServiceDescription (Some (pre ++ mid ++ post)) = true.
Proof.
  intros Hm Hmid Hlen. unfold looksLikeServiceDescription, orEmpty, slice0. simpl default.
  rewrite app_assoc, take_app_ge by (rewrite length_app; exact Hlen).
  rewrite <- app_assoc, !toLowerCase_app, Hmid.
  pose proof (includes_app (toLowerCase pre) (str marker)
                (toLowerCase (take (300000 - length (pre ++ mid)) post))) as Hin.
  unfold descriptionMarkers in Hm.
  repeat (apply elem_of_cons in Hm as [->|Hm];
          [rewrite Hin; repeat (match goal with
                                | |- (if ?b then true else _) = true => destruct b
                                end; [reflexivity|]); reflexivity|]).
  apply elem_of_nil in Hm. contradiction.
Qed.

Lemma looksLikeServiceDescription_witness :
  looksLikeServiceDescription (Some (str "<> a " ++ str "sd:Service" ++ str " .")) = true.
Proof.
  apply (looksLikeServiceDescription_marker _ _ _ "sd:service").
  - apply list_elem_of_further, list_elem_of_here.
  - reflexivity.
  - apply Nat.leb_le. vm_compute. reflexivity.
Defined.

(** Property X4.
    An acknowledgment stays one inside an envelope: what is put before
    and after a body that [looksLikeXmlAsk] accepts does not matter, as
    long as the body still ends within the first 200000 characters. *)
Theorem looksLikeXmlAsk_embedding (pre body post : text) :
  looksLikeXmlAsk (Some body) = true ->
  length pre + length body <= 200000 ->
  looksLikeXmlAsk (Some (pre ++ body ++ post)) = true.
Proof.
  intros Hb Hlen.
  apply looksLikeXmlAsk_iff in Hb. apply looksLikeXmlAsk_iff.
  unfold slice0, orEmpty in *. simpl default in *.
  rewrite take_ge in Hb by lia.
  rewrite app_assoc, take_app_ge by (rewrite length_app; exact Hlen).
  rewrite <- app_assoc.
  destruct Hb as (p & op & attrs & mid1 & el & mid2 & cl & q & -> & H).
  exists (pre ++ p), op, attrs, mid1, el, mid2, cl,
         (q ++ take (200000 - length (pre ++ p ++ op ++ attrs ++ ">"%char :: mid1 ++ el
                                       ++ mid2 ++ cl ++ q)) post).
  split; [|exact H].
  repeat first [rewrite <- app_assoc | rewrite <- app_comm_cons]. reflexivity.
Qed.

Lemma looksLikeXmlAsk_embedding_witness :
  looksLikeXmlAsk (Some (str "<?xml version='1.0'?>" ++ askDocument ++ str "<!-- end -->"))
  = true.
Proof.
  apply looksLikeXmlAsk_embedding.
  - rewrite <- (app_nil_r askDocument). apply (looksLikeXmlAsk_embedded [] []).
    apply Nat.leb_le. vm_compute. reflexivity.
  - apply Nat.leb_le. vm_compute. reflexivity.
Defined.

(** ** The verdicts of the probes *)

Section ProbeVerdicts.
Variable fetch : list Request -> Request -> Z -> option Response.
Variable URL_withQuery : string -> text -> option string.
Variable URLSearchParams_toString : text -> text.
Variable JSON_parse : text -> option JsonValue.

Lemma askChecks_verdict r : askChecks JSON_parse r = mkStrategy (askVerdict JSON_parse r).
Proof.
  unfold askChecks, askVerdict. cbv zeta. destruct (ft_res r) as [res|]; [|reflexivity].
  generalize (looksLikeHtml (Some (ft_ct r)) (Some (ft_text r))),
    (looksLikeJsonAsk JSON_parse (ft_text r)), (looksLikeXmlAsk (Some (ft_text r))),
    (includes (toLowerCase (ft_ct r)) (str "application/sparql-results+json")),
    (includes (toLowerCase (ft_ct r)) (str "application/sparql-results+xml")).
  intros html json xml ctJson ctXml.
  destruct (res_ok res), html, json, xml, ctJson, ctXml; reflexivity.
Qed.

Lemma tryAskGet_value endpoint ask timeoutMs log :
  tryAskGet fetch URL_withQuery JSON_parse endpoint ask timeoutMs log
  = match URL_withQuery endpoint ask with
    | Some u =>
        (Return (mkStrategy (askVerdict JSON_parse
                   (fetched (fetch log (mkRequest GET u askAccept None None) timeoutMs)))),
         log ++ [mkRequest GET u askAccept None None])
    | None => (Return (mkStrategy false), log)
    end.
Proof.
  unfold tryAskGet, try_catch, new_URL_withQuery.
  unfold mbind at 1. unfold M_bind.
  destruct (URL_withQuery endpoint ask) as [u|]; [|reflexivity].
  unfold mret at 1. unfold M_ret at 1. unfold mbind, M_bind.
  rewrite fetchText_returns, askChecks_verdict. reflexivity.
Qed.

Lemma tryAskPost_value endpoint ask timeoutMs log :
  let req := mkRequest POST endpoint askAccept
               (Some (str "application/x-www-form-urlencoded"))
               (Some (URLSearchParams_toString ask)) in
  tryAskPost fetch URLSearchParams_toString JSON_parse endpoint ask timeoutMs log
  = (Return (mkStrategy (askVerdict JSON_parse (fetched (fetch log req timeoutMs)))),
     log ++ [req]).
Proof.
  intros req. unfold tryAskPost, mbind, M_bind. fold req.
  rewrite fetchText_returns, askChecks_verdict. reflexivity.
Qed.

Lemma tryServiceDescription_value endpoint timeoutMs log :
  tryServiceDescription fetch endpoint timeoutMs log
  = (Return (mkStrategy (descriptionVerdict
               (fetched (fetch log (descriptionRequest endpoint) timeoutMs)))),
     log ++ [descriptionRequest endpoint]).
Proof.
  unfold tryServiceDescription, descriptionRequest, mbind, M_bind.
  rewrite fetchText_returns. unfold mret, M_ret. f_equal. f_equal. f_equal.
  unfold descriptionVerdict.
  generalize (fetched (fetch log (mkRequest GET endpoint rdfAccept None None) timeoutMs)).
  intros r. destruct (ft_res r) as [res|]; [|reflexivity].
  generalize (isRdfContentType (Some (ft_ct r))), (looksLikeHtml (Some (ft_ct r)) (Some (ft_text r))),
    (looksLikeServiceDescription (Some (ft_text r))).
  intros b1 b2 b3. destruct (res_ok res), b1, b2, b3; reflexivity.
Qed.

Lemma unusable_fetched o : unusable o ->
  askVerdict JSON_parse (fetched o) = false /\ descriptionVerdict (fetched o) = false.
Proof.
  unfold unusable. destruct o as [res|]; [|split; reflexivity].
  unfold fetched, askVerdict, descriptionVerdict. intros [H|[H|H]].
  - rewrite H. split; reflexivity.
  - destruct (res_text res) as [t|]; [|split; reflexivity].
    cbn [ft_res]. rewrite H. split; reflexivity.
  - destruct (res_text res) as [t|]; [|split; reflexivity].
    cbn [ft_res ft_ct ft_text]. change (orEmpty (Some t)) with t in H. rewrite H.
    split; [|generalize (isRdfContentType (Some (orEmpty (res_contentType res))))];
      destruct (res_ok res); try reflexivity. intros []; reflexivity.
Qed.

End ProbeVerdicts.

(** Property X5.
    Both acknowledgment probes succeed exactly when the response has a
    successful status, does not look like HTML, and its body passes the
    JSON or the XML check: the declared content type changes nothing
    beyond the HTML check.  A GET probe whose endpoint is no URL fails
    without a request. *)
Theorem acknowledgment_verdict_ignores_content_type
    (fetch : list Request -> Request -> Z -> option Response)
    (URL_withQuery : string -> text -> option string)
    (URLSearchParams_toString : text -> text)
    (JSON_parse : text -> option JsonValue)
    (endpoint : string) (ask : text) (timeoutMs : Z) (log : list Request) :
  (forall r, s_ok (askChecks JSON_parse r) = askVerdict JSON_parse r)
  /\ tryAskGet fetch URL_withQuery JSON_parse endpoint ask timeoutMs log
     = match URL_withQuery endpoint ask with
       | Some u =>
           (Return (mkStrategy (askVerdict JSON_parse
                      (fetched (fetch log (mkRequest GET u askAccept None None) timeoutMs)))),
            log ++ [mkRequest GET u askAccept None None])
       | None => (Return (mkStrategy false), log)
       end
  /\ fst (tryAskPost fetch URLSearchParams_toString JSON_parse endpoint ask timeoutMs log)
     = Return (mkStrategy (askVerdict JSON_parse
                 (fetched (fetch log
                    (mkRequest POST endpoint askAccept
                       (Some (str "application/x-www-form-urlencoded"))
                       (Some (URLSearchParams_toString ask))) timeoutMs)))).
Proof.
  split; [|split].
  - intros r. rewrite askChecks_verdict. reflexivity.
  - apply tryAskGet_value.
  - rewrite tryAskPost_value. reflexivity.
Qed.

(** Property X6.
    When every answer of the network is a failed request, an unreadable
    body, a status that is no success or a response that looks like
    HTML, the prober returns [{ok: false, mode: null}]: nothing is
    raised, and all three strategies are tried. *)
Theorem unusable_network_gives_a_negative_outcome
    (fetch : list Request -> Request -> Z -> option Response)
    (URL_withQuery : string -> text -> option string)
    (URLSearchParams_toString : text -> text)
    (JSON_parse : text -> option JsonValue)
    (endpoint : string) (timeoutMs : Z) (log : list Request) :
  (forall log' req, unusable (fetch log' req timeoutMs)) ->
  validateSparqlEndpoint fetch URL_withQuery URLSearchParams_toString JSON_parse
    endpoint timeoutMs log
  = (Return (mkProbe false None),
     ((log ++ getRequest URL_withQuery endpoint)
        ++ [postRequest URLSearchParams_toString endpoint]) ++ [descriptionRequest endpoint]).
Proof.
  intros Hnet.
  assert (E1 : tryAskGet fetch URL_withQuery JSON_parse endpoint (str "ASK {}") timeoutMs log
               = (Return (mkStrategy false), log ++ getRequest URL_withQuery endpoint)).
  { rewrite tryAskGet_value. unfold getRequest.
    destruct (URL_withQuery endpoint (str "ASK {}")) as [u|];
      [|rewrite app_nil_r; reflexivity].
    destruct (unusable_fetched JSON_parse
                (fetch log (mkRequest GET u askAccept None None) timeoutMs) (Hnet _ _))
      as [-> _].
    reflexivity. }
  assert (E2 : forall log',
             tryAskPost fetch URLSearchParams_toString JSON_parse endpoint (str "ASK {}")
               timeoutMs log'
             = (Return (mkStrategy false),
                log' ++ [postRequest URLSearchParams_toString endpoint])).
  { intros log'. rewrite tryAskPost_value. cbv zeta.
    destruct (unusable_fetched JSON_parse
                (fetch log' (mkRequest POST endpoint askAccept
                               (Some (str "application/x-www-form-urlencoded"))
                               (Some (URLSearchParams_toString (str "ASK {}")))) timeoutMs)
                (Hnet _ _)) as [-> _].
    reflexivity. }
  assert (E3 : forall log',
             tryServiceDescription fetch endpoint timeoutMs log'
             = (Return (mkStrategy false), log' ++ [descriptionRequest endpoint])).
  { intros log'. rewrite tryServiceDescription_value.
    destruct (unusable_fetched JSON_parse
                (fetch log' (descriptionRequest endpoint) timeoutMs) (Hnet _ _)) as [_ ->].
    reflexivity. }
  unfold validateSparqlEndpoint. cbv zeta.
  unfold mbind at 1. unfold M_bind at 1. rewrite E1.
  change (s_ok (mkStrategy false)) with false. cbv iota.
  unfold mbind at 1. unfold M_bind at 1. rewrite E2.
  change (s_ok (mkStrategy false)) with false. cbv iota.
  unfold mbind at 1. unfold M_bind at 1. rewrite E3.
  reflexivity.
Qed.

Lemma unusable_network_witness :
  fst (validateSparqlEndpoint (fun _ _ _ => None) sameUrl id parseAskBody
         "https://x.org/sparql" 8000%Z [])
  = Return (mkProbe false None).
Proof.
  rewrite (unusable_network_gives_a_negative_outcome (fun _ _ _ => None) sameUrl id parseAskBody
             "https://x.org/sparql" 8000%Z []).
  - reflexivity.
  - intros log' req. exact I.
Defined.

(** ** The candidates of a portal *)

Lemma trimStart_suffix s : exists ws, s = ws ++ trimStart s /\ forallb isWhiteSpace ws = true.
Proof.
  induction s as [|c s (ws & E & H)]; simpl.
  - exists []. auto.
  - destruct (isWhiteSpace c) eqn:Hc.
    + exists (c :: ws). simpl. rewrite Hc, H. split; [f_equal; exact E|reflexivity].
    + exists []. auto.
Qed.

Lemma trimEnd_prefix s : exists ws, s = trimEnd s ++ ws /\ forallb isWhiteSpace ws = true.
Proof.
  unfold trimEnd. destruct (trimStart_suffix (rev s)) as (ws & E & H).
  exists (rev ws). split.
  - rewrite <- rev_app_distr, <- E, rev_involutive. reflexivity.
  - rewrite forallb_forall in *. intros x Hx. apply H. apply in_rev. exact Hx.
Qed.

Lemma trimEnd_last s :
  match last (trimEnd s) with Some c => isWhiteSpace c = false | None => True end.
Proof.
  unfold trimEnd. pose proof (trimStart_head (rev s)) as H.
  destruct (trimStart (rev s)) as [|c l]; [exact I|].
  simpl. rewrite last_snoc. exact H.
Qed.

Lemma trimEnd_keep s c : isWhiteSpace c = false -> trimEnd (s ++ [c]) = s ++ [c].
Proof.
  intros H. rewrite <- (app_nil_r (s ++ [c])) at 1.
  rewrite trimEnd_app_keep by exact H. apply app_nil_r.
Qed.

Lemma trim_head s :
  match trim s with c :: _ => isWhiteSpace c = false | [] => True end.
Proof.
  unfold trim. pose proof (trimStart_head s) as H.
  destruct (trimEnd_prefix (trimStart s)) as (ws & E & _).
  destruct (trimEnd (trimStart s)) as [|c l]; [exact I|].
  rewrite E in H. exact H.
Qed.

Lemma trim_fixed s :
  match s with c :: _ => isWhiteSpace c = false | [] => True end ->
  match last s with Some c => isWhiteSpace c = false | None => True end ->
  trim s = s.
Proof.
  intros Hh Hl. unfold trim. destruct s as [|c s]; [reflexivity|].
  rewrite trimStart_keep by exact Hh.
  destruct (last (c :: s)) as [e|] eqn:E; [|apply last_None in E; discriminate].
  apply last_Some in E as [l' E]. rewrite E. apply trimEnd_keep. exact Hl.
Qed.

Lemma trim_idem s : trim (trim s) = trim s.
Proof. apply trim_fixed; [apply trim_head|apply trimEnd_last]. Qed.

Lemma trimUrl_idem u : trimUrl (trimUrl u) = trimUrl u.
Proof.
  unfold trimUrl. rewrite list_ascii_of_string_of_list_ascii, trim_idem. reflexivity.
Qed.

Lemma list_ascii_of_string_app a b :
  list_ascii_of_string (a +:+ b) = list_ascii_of_string a ++ list_ascii_of_string b.
Proof. induction a as [|c a IH]; simpl; [reflexivity|]. rewrite IH. reflexivity. Qed.

Lemma append_inj_r a x y : a +:+ x = a +:+ y -> x = y.
Proof. induction a as [|c a IH]; simpl; [auto|]. intros [= H]. auto. Qed.

Lemma dropSlashes_suffix s :
  exists sl, s = sl ++ dropSlashes s /\ Forall (fun c => c = "/"%char) sl.
Proof.
  induction s as [|c s (sl & E & H)]; simpl.
  - exists []. auto.
  - destruct (isSlash c) eqn:Hc.
    + exists (c :: sl). split; [simpl; f_equal; exact E|].
      constructor; [apply eqChar_true; exact Hc|exact H].
    + exists []. auto.
Qed.

Lemma dropSlashes_head s :
  match dropSlashes s with c :: _ => c <> "/"%char | [] => True end.
Proof.
  induction s as [|c s IH]; simpl; [exact I|].
  destruct (isSlash c) eqn:Hc; [exact IH|].
  intros ->. discriminate.
Qed.

Lemma stripTrailingSlashes_spec s :
  exists sl, s = stripTrailingSlashes s ++ sl /\ Forall (fun c => c = "/"%char) sl
             /\ last (stripTrailingSlashes s) <> Some "/"%char.
Proof.
  unfold stripTrailingSlashes. destruct (dropSlashes_suffix (rev s)) as (sl & E & H).
  exists (rev sl). split; [|split].
  - rewrite <- rev_app_distr, <- E, rev_involutive. reflexivity.
  - apply Forall_forall. intros x Hx. rewrite Forall_forall in H. apply H.
    apply list_elem_of_In. apply in_rev. apply list_elem_of_In. exact Hx.
  - pose proof (dropSlashes_head (rev s)) as Hh.
    destruct (dropSlashes (rev s)) as [|c l]; [discriminate|].
    simpl. rewrite last_snoc. intros [= ->]. apply Hh. reflexivity.
Qed.

(** *** [uniqueCandidates] *)

Lemma uniqueFrom_sound arr : forall seen c',
  c' ∈ uniqueFrom seen arr ->
  exists c, Some c ∈ arr /\ url c <> ""%string /\ c' = pushed c.
Proof.
  induction arr as [|[c|] arr IH]; intros seen c'; simpl.
  - intros H. apply elem_of_nil in H. contradiction.
  - destruct (bool_decide (url c = ""%string)) eqn:He.
    { intros H. destruct (IH _ _ H) as (c0 & Hc0 & H0). exists c0.
      split; [apply list_elem_of_further; exact Hc0|exact H0]. }
    apply bool_decide_eq_false in He.
    destruct (bool_decide (trimUrl (url c) ∈ seen)).
    { intros H. destruct (IH _ _ H) as (c0 & Hc0 & H0). exists c0.
      split; [apply list_elem_of_further; exact Hc0|exact H0]. }
    intros H. apply elem_of_cons in H as [->|H].
    + exists c. split; [apply list_elem_of_here|]. split; [exact He|reflexivity].
    + destruct (IH _ _ H) as (c0 & Hc0 & H0). exists c0.
      split; [apply list_elem_of_further; exact Hc0|exact H0].
  - intros H. destruct (IH _ _ H) as (c0 & Hc0 & H0). exists c0.
    split; [apply list_elem_of_further; exact Hc0|exact H0].
Qed.

Lemma uniqueFrom_first pre : forall seen c post,
  url c <> ""%string -> trimUrl (url c) ∉ seen ->
  (forall c0, Some c0 ∈ pre -> url c0 <> ""%string ->
              trimUrl (url c0) <> trimUrl (url c)) ->
  pushed c ∈ uniqueFrom seen (pre ++ Some c :: post).
Proof.
  induction pre as [|[c0|] pre IH]; intros seen c post Hne Hseen Hpre; simpl.
  - rewrite bool_decide_eq_false_2 by exact Hne.
    rewrite bool_decide_eq_false_2 by exact Hseen. apply list_elem_of_here.
  - assert (Hrest : forall c1, Some c1 ∈ pre -> url c1 <> ""%string ->
                               trimUrl (url c1) <> trimUrl (url c)).
    { intros c1 H1. apply Hpre. apply list_elem_of_further. exact H1. }
    destruct (bool_decide (url c0 = ""%string)) eqn:He; [apply IH; assumption|].
    apply bool_decide_eq_false in He.
    destruct (bool_decide (trimUrl (url c0) ∈ seen)); [apply IH; assumption|].
    apply list_elem_of_further. apply IH; [assumption| |assumption].
    intros Hin. apply elem_of_union in Hin as [Hin|Hin]; [|contradiction].
    apply elem_of_singleton in Hin. apply (Hpre c0); [apply list_elem_of_here|exact He|].
    symmetry. exact Hin.
  - apply IH; [assumption|assumption|].
    intros c1 H1. apply Hpre. apply list_elem_of_further. exact H1.
Qed.

Lemma uniqueFrom_complete arr : forall seen c,
  Some c ∈ arr -> url c <> ""%string ->
  trimUrl (url c) ∈ seen \/ trimUrl (url c) ∈ url <$> uniqueFrom seen arr.
Proof.
  induction arr as [|[c0|] arr IH]; intros seen c Hin Hne; simpl.
  - apply elem_of_nil in Hin. contradiction.
  - apply elem_of_cons in Hin as [[= <-]|Hin].
    + rewrite bool_decide_eq_false_2 by exact Hne.
      destruct (bool_decide (trimUrl (url c) ∈ seen)) eqn:Hs.
      * left. apply bool_decide_eq_true in Hs. exact Hs.
      * right. simpl. apply list_elem_of_here.
    + destruct (bool_decide (url c0 = ""%string)); [apply IH; assumption|].
      destruct (bool_decide (trimUrl (url c0) ∈ seen)); [apply IH; assumption|].
      destruct (IH ({[trimUrl (url c0)]} ∪ seen) c Hin Hne) as [H|H].
      * apply elem_of_union in H as [H|H]; [|left; exact H].
        apply elem_of_singleton in H. right. simpl. rewrite H. apply list_elem_of_here.
      * right. simpl. apply list_elem_of_further. exact H.
  - apply elem_of_cons in Hin as [Hin|Hin]; [discriminate|]. apply IH; assumption.
Qed.

Lemma uniqueFrom_app a : forall seen b,
  exists seen', uniqueFrom seen (a ++ b) = uniqueFrom seen a ++ uniqueFrom seen' b.
Proof.
  induction a as [|[c|] a IH]; intros seen b; simpl.
  - exists seen. reflexivity.
  - destruct (bool_decide (url c = ""%string)); [apply IH|].
    destruct (bool_decide (trimUrl (url c) ∈ seen)); [apply IH|].
    destruct (IH ({[trimUrl (url c)]} ∪ seen) b) as [seen' ->]. exists seen'. reflexivity.
  - apply IH.
Qed.

Lemma uniqueFrom_length arr : forall seen, length (uniqueFrom seen arr) <= length arr.
Proof.
  induction arr as [|[c|] arr IH]; intros seen; simpl; [lia| |specialize (IH seen); lia].
  destruct (bool_decide (url c = ""%string)); [specialize (IH seen); lia|].
  destruct (bool_decide (trimUrl (url c) ∈ seen)); [specialize (IH seen); lia|].
  simpl. specialize (IH ({[trimUrl (url c)]} ∪ seen)). lia.
Qed.

Lemma uniqueFrom_fixed cs : forall seen,
  NoDup (url <$> cs) ->
  (forall c, c ∈ cs -> url c <> ""%string /\ trimUrl (url c) = url c /\ url c ∉ seen) ->
  uniqueFrom seen (Some <$> cs) = cs.
Proof.
  induction cs as [|c cs IH]; intros seen Hnd Hcs; simpl; [reflexivity|].
  simpl in Hnd. apply NoDup_cons in Hnd as [Hc Hnd].
  destruct (Hcs c) as (Hne & Htrim & Hseen); [apply list_elem_of_here|].
  rewrite bool_decide_eq_false_2 by exact Hne. rewrite Htrim.
  rewrite bool_decide_eq_false_2 by exact Hseen.
  destruct c as [u s]. simpl. f_equal. apply IH; [exact Hnd|].
  intros c' Hc'. destruct (Hcs c') as (H1 & H2 & H3); [apply list_elem_of_further; exact Hc'|].
  split; [exact H1|]. split; [exact H2|].
  intros Hin. apply elem_of_union in Hin as [Hin|Hin]; [|contradiction].
  apply elem_of_singleton in Hin. simpl in Hc. apply Hc. rewrite <- Hin.
  apply list_elem_of_fmap_2. exact Hc'.
Qed.

(** Property X7.
    [uniqueCandidates] keeps one candidate per trimmed URL, the first in
    the array, with the source of that first one; it drops nothing
    else, and it invents nothing. *)
Theorem uniqueCandidates_first_occurrence_wins (arr : list (option Candidate)) :
  NoDup (url <$> uniqueCandidates arr)
  /\ length (uniqueCandidates arr) <= length arr
  /\ (forall c', c' ∈ uniqueCandidates arr ->
        exists c, Some c ∈ arr /\ url c <> ""%string /\ c' = pushed c)
  /\ (forall c, Some c ∈ arr -> url c <> ""%string ->
        trimUrl (url c) ∈ url <$> uniqueCandidates arr)
  /\ (forall pre c post,
        arr = pre ++ Some c :: post -> url c <> ""%string ->
        (forall c0, Some c0 ∈ pre -> url c0 <> ""%string ->
                    trimUrl (url c0) <> trimUrl (url c)) ->
        pushed c ∈ uniqueCandidates arr).
Proof.
  unfold uniqueCandidates. split; [apply uniqueFrom_NoDup|].
  split; [apply uniqueFrom_length|]. split; [apply uniqueFrom_sound|]. split.
  - intros c Hin Hne. destruct (uniqueFrom_complete arr ∅ c Hin Hne) as [H|H]; [|exact H].
    apply elem_of_empty in H. contradiction.
  - intros pre c post -> Hne Hpre. apply uniqueFrom_first; [exact Hne| |exact Hpre].
    apply not_elem_of_empty.
Qed.

Lemma uniqueCandidates_witness :
  pushed (mkCandidate " https://x.org/sparql" explicit)
  ∈ uniqueCandidates [Some (mkCandidate "" guessed);
                      Some (mkCandidate " https://x.org/sparql" explicit);
                      Some (mkCandidate "https://x.org/sparql" guessed)].
Proof.
  apply (proj2 (proj2 (proj2 (proj2 (uniqueCandidates_first_occurrence_wins _))))
           [Some (mkCandidate "" guessed)] _
           [Some (mkCandidate "https://x.org/sparql" guessed)]).
  - reflexivity.
  - discriminate.
  - intros c0 Hc0 Hne. apply list_elem_of_singleton in Hc0. injection Hc0 as ->.
    exfalso. apply Hne. reflexivity.
Defined.

(** *** [normalizeBaseUrl] and [collectCandidates] *)

Lemma commonEndpointPaths_NoDup : NoDup commonEndpointPaths.
Proof.
  unfold commonEndpointPaths.
  repeat (apply NoDup_cons; split;
          [intros H; repeat (apply elem_of_cons in H as [H|H]; [discriminate H|]);
           apply elem_of_nil in H; exact H|]).
  apply NoDup_nil_2.
Qed.

Lemma commonEndpointPaths_ends :
  Forall (fun suffix => match last (list_ascii_of_string suffix) with
                        | Some c => isWhiteSpace c = false
                        | None => False
                        end) commonEndpointPaths.
Proof. unfold commonEndpointPaths. repeat constructor. Qed.

Section CandidateFacts.
Variable URL_protocol : string -> option string.

Local Abbreviation isHttpUrl := (isHttpUrl URL_protocol).
Local Abbreviation normalizeBaseUrl := (normalizeBaseUrl URL_protocol).
Local Abbreviation collectCandidates := (collectCandidates URL_protocol).

Lemma normalizeBaseUrl_Some s base :
  normalizeBaseUrl s = Some base ->
  exists u, s = Some u /\ isHttpUrl s = true
    /\ list_ascii_of_string base
       = stripTrailingSlashes (trim (list_ascii_of_string u)).
Proof.
  unfold Portal.normalizeBaseUrl. destruct (isHttpUrl s) eqn:E; [|discriminate]. simpl.
  intros [= <-]. destruct s as [u|]; [|discriminate E].
  exists u. split; [reflexivity|]. split; [reflexivity|].
  apply list_ascii_of_string_of_list_ascii.
Qed.

(** Property X8.
    [normalizeBaseUrl] answers [null] exactly for what is no HTTP URL;
    otherwise it answers the trimmed URL without the slashes at its end:
    the base never ends with a slash. *)
Theorem normalizeBaseUrl_strips_trailing_slashes (s : option string) :
  (normalizeBaseUrl s = None <-> isHttpUrl s = false)
  /\ forall base, normalizeBaseUrl s = Some base ->
       exists u slashes,
         s = Some u
         /\ list_ascii_of_string (trimUrl u) = list_ascii_of_string base ++ slashes
         /\ Forall (fun c => c = "/"%char) slashes
         /\ last (list_ascii_of_string base) <> Some "/"%char.
Proof.
  split.
  - unfold Portal.normalizeBaseUrl. destruct (isHttpUrl s); simpl; split; congruence.
  - intros base H. apply normalizeBaseUrl_Some in H as (u & -> & _ & E).
    destruct (stripTrailingSlashes_spec (trim (list_ascii_of_string u))) as (sl & E1 & H1 & H2).
    exists u, sl. split; [reflexivity|]. rewrite E. split; [|split; assumption].
    unfold trimUrl. rewrite list_ascii_of_string_of_list_ascii. exact E1.
Qed.

Lemma explicitCandidates_spec p c :
  c ∈ explicitCandidates URL_protocol p ->
  source c = explicit
  /\ exists u, Some u ∈ [sparql_endpoint p; sparql_url p; sparql_details p]
               /\ isHttpUrl (Some u) = true /\ url c = trimUrl u.
Proof.
  unfold explicitCandidates. intros H. apply list_elem_of_omap in H as (f & Hf & E).
  destruct (isHttpUrl f) eqn:Hu; [|discriminate]. injection E as <-.
  split; [reflexivity|]. destruct f as [u|]; [|discriminate Hu]. exists u. auto.
Qed.

Lemma explicitCandidates_length p : length (explicitCandidates URL_protocol p) <= 3.
Proof.
  unfold explicitCandidates. simpl.
  destruct (isHttpUrl (sparql_endpoint p)), (isHttpUrl (sparql_url p)),
    (isHttpUrl (sparql_details p)); simpl; lia.
Qed.

Lemma guessedCandidates_spec p c :
  c ∈ guessedCandidates URL_protocol p ->
  source c = guessed
  /\ exists base suffix, normalizeBaseUrl (p_url p) = Some base /\ base <> ""%string
       /\ suffix ∈ commonEndpointPaths /\ url c = base +:+ suffix.
Proof.
  unfold guessedCandidates. destruct (normalizeBaseUrl (p_url p)) as [base|];
    [|intros H; apply elem_of_nil in H; contradiction].
  destruct (bool_decide (base = ""%string)) eqn:E;
    [intros H; apply elem_of_nil in H; contradiction|].
  apply bool_decide_eq_false in E.
  intros H. apply list_elem_of_fmap in H as (sfx & -> & Hs). split; [reflexivity|].
  exists base, sfx. auto.
Qed.

Lemma guessedCandidates_length p : length (guessedCandidates URL_protocol p) <= 16.
Proof.
  unfold guessedCandidates. destruct (normalizeBaseUrl (p_url p)) as [base|]; [|simpl; lia].
  destruct (bool_decide _); [simpl; lia|]. rewrite length_fmap. reflexivity.
Qed.

Lemma collectCandidates_split p :
  exists es gs, collectCandidates p = es ++ gs
    /\ (forall c, c ∈ es -> exists c0, c0 ∈ explicitCandidates URL_protocol p /\ c = pushed c0)
    /\ (forall c, c ∈ gs -> exists c0, c0 ∈ guessedCandidates URL_protocol p /\ c = pushed c0).
Proof.
  unfold Portal.collectCandidates, uniqueCandidates. rewrite fmap_app.
  destruct (uniqueFrom_app (Some <$> explicitCandidates URL_protocol p) ∅
              (Some <$> guessedCandidates URL_protocol p)) as [seen' ->].
  eexists _, _. split; [reflexivity|]. split.
  - intros c Hc. apply uniqueFrom_sound in Hc as (c0 & Hc0 & _ & ->).
    apply list_elem_of_fmap in Hc0 as (c1 & [= <-] & Hc1). eauto.
  - intros c Hc. apply uniqueFrom_sound in Hc as (c0 & Hc0 & _ & ->).
    apply list_elem_of_fmap in Hc0 as (c1 & [= <-] & Hc1). eauto.
Qed.

Lemma guessed_url_fixed base suffix u :
  list_ascii_of_string base = stripTrailingSlashes (trim (list_ascii_of_string u)) ->
  base <> ""%string -> suffix ∈ commonEndpointPaths ->
  trimUrl (base +:+ suffix) = base +:+ suffix.
Proof.
  intros Eb Hne Hs. unfold trimUrl. rewrite list_ascii_of_string_app.
  rewrite trim_fixed; [rewrite <- list_ascii_of_string_app;
                       apply string_of_list_ascii_of_string| |].
  - destruct (stripTrailingSlashes_spec (trim (list_ascii_of_string u))) as (sl & E1 & _).
    rewrite <- Eb in E1. pose proof (trim_head (list_ascii_of_string u)) as Hh.
    rewrite E1 in Hh. destruct (list_ascii_of_string base) as [|c l] eqn:El.
    + exfalso. apply Hne. rewrite <- (string_of_list_ascii_of_string base), El. reflexivity.
    + exact Hh.
  - pose proof commonEndpointPaths_ends as He. rewrite Forall_forall in He.
    specialize (He suffix Hs).
    destruct (last (list_ascii_of_string suffix)) as [e|] eqn:El; [|contradiction].
    apply last_Some in El as [l' ->]. rewrite app_assoc, last_snoc. exact He.
Qed.

Lemma collectCandidates_sources p :
  exists es gs, collectCandidates p = es ++ gs
    /\ (forall c, c ∈ es -> source c = explicit)
    /\ (forall c, c ∈ gs -> source c = guessed).
Proof.
  destruct (collectCandidates_split p) as (es & gs & E & Hes & Hgs).
  exists es, gs. split; [exact E|]. split.
  - intros c Hc. destruct (Hes c Hc) as (c0 & Hc0 & ->).
    apply explicitCandidates_spec in Hc0 as [Hs _]. exact Hs.
  - intros c Hc. destruct (Hgs c Hc) as (c0 & Hc0 & ->).
    apply guessedCandidates_spec in Hc0 as [Hs _]. exact Hs.
Qed.

(** Property X9.
    The candidates of a portal: distinct URLs, at most nineteen, the
    explicit ones before the guessed ones; an explicit candidate is one
    of the three declared fields, trimmed, and a guessed one is the base
    URL followed by one of the known suffixes. *)
Theorem collectCandidates_explicit_then_guessed (p : Fields) :
  NoDup (url <$> collectCandidates p)
  /\ length (collectCandidates p) <= 19
  /\ exists es gs,
       collectCandidates p = es ++ gs
       /\ (forall c, c ∈ es ->
             source c = explicit
             /\ exists u, Some u ∈ [sparql_endpoint p; sparql_url p; sparql_details p]
                          /\ isHttpUrl (Some u) = true /\ url c = trimUrl u)
       /\ (forall c, c ∈ gs ->
             source c = guessed
             /\ exists base suffix, normalizeBaseUrl (p_url p) = Some base
                  /\ suffix ∈ commonEndpointPaths /\ url c = base +:+ suffix).
Proof.
  split; [apply uniqueCandidates_NoDup|]. split.
  - unfold Portal.collectCandidates, uniqueCandidates.
    pose proof (uniqueFrom_length
                  (Some <$> (explicitCandidates URL_protocol p
                               ++ guessedCandidates URL_protocol p)) ∅) as H.
    rewrite length_fmap, length_app in H.
    pose proof (explicitCandidates_length p). pose proof (guessedCandidates_length p). lia.
  - destruct (collectCandidates_split p) as (es & gs & E & Hes & Hgs).
    exists es, gs. split; [exact E|]. split.
    + intros c Hc. destruct (Hes c Hc) as (c0 & Hc0 & ->).
      apply explicitCandidates_spec in Hc0 as (Hs & u & Hu & Hh & Eu).
      split; [exact Hs|]. exists u. split; [exact Hu|]. split; [exact Hh|].
      simpl. rewrite Eu. apply trimUrl_idem.
    + intros c Hc. destruct (Hgs c Hc) as (c0 & Hc0 & ->).
      apply guessedCandidates_spec in Hc0 as (Hs & base & sfx & Hb & Hne & Hsfx & Eu).
      split; [exact Hs|]. exists base, sfx. split; [exact Hb|]. split; [exact Hsfx|].
      simpl. rewrite Eu. apply normalizeBaseUrl_Some in Hb as (u & _ & _ & Eb).
      eapply guessed_url_fixed; eassumption.
Qed.

(** Property X10.
    With the explicit candidates in front, the selection over the
    candidates of a portal is its first candidate: in derivation-only
    mode [sparqlEndpoint] is the first entry of [sparqlCandidates]. *)
Theorem derivation_chooses_the_first_candidate {P : Type}
    (projectOutput : Prepared Fields -> P) (strict : bool) (p : Fields) :
  choosePreferred (collectCandidates p) = head (collectCandidates p)
  /\ forall row, deriveRow projectOutput strict (preparePortal URL_protocol p) = Some row ->
       c_sparqlEndpoint row = url <$> head (c_sparqlCandidates row).
Proof.
  assert (H : choosePreferred (collectCandidates p) = head (collectCandidates p)).
  { destruct (collectCandidates_sources p) as (es & gs & E & Hes & Hgs).
    rewrite E. unfold choosePreferred. destruct es as [|e es].
    - simpl app. rewrite (proj2 (find_none_iff _ gs)); [reflexivity|].
      intros c Hc. apply isExplicit_false. change (source_of c) with (source c).
      rewrite (Hgs c Hc). discriminate.
    - simpl. change (source_of e) with (source e).
      rewrite (Hes e) by apply list_elem_of_here. reflexivity. }
  split; [exact H|].
  intros row. unfold deriveRow, preparePortal. simpl sparqlCandidates.
  destruct (length _ =? 0); [discriminate|]. destruct (strict && _); [discriminate|].
  intros [= <-]. simpl. rewrite H. reflexivity.
Qed.

(** Property X11.
    A portal without a usable declared endpoint and with a base URL gets
    the sixteen guessed candidates, in the order of the suffixes; and
    every portal with a base URL has a candidate. *)
Theorem collectCandidates_guesses (p : Fields) (base : string) :
  normalizeBaseUrl (p_url p) = Some base -> base <> ""%string ->
  collectCandidates p <> []
  /\ (isHttpUrl (sparql_endpoint p) = false -> isHttpUrl (sparql_url p) = false ->
      isHttpUrl (sparql_details p) = false ->
      collectCandidates p
      = (fun suffix => mkCandidate (base +:+ suffix) guessed) <$> commonEndpointPaths).
Proof.
  intros Hb Hne.
  assert (Hg : guessedCandidates URL_protocol p
               = (fun suffix => mkCandidate (base +:+ suffix) guessed) <$> commonEndpointPaths).
  { unfold guessedCandidates. rewrite Hb. rewrite bool_decide_eq_false_2 by exact Hne.
    reflexivity. }
  split.
  - intros E.
    assert (Hin : Some (mkCandidate (base +:+ "/sparql") guessed)
                  ∈ Some <$> (explicitCandidates URL_protocol p
                                ++ guessedCandidates URL_protocol p)).
    { apply list_elem_of_fmap_2. apply elem_of_app. right. rewrite Hg.
      apply (list_elem_of_fmap_2 (fun suffix => mkCandidate (base +:+ suffix) guessed)).
      apply list_elem_of_here. }
    destruct (uniqueFrom_complete _ ∅ _ Hin) as [H|H].
    + simpl. destruct base; [congruence|discriminate].
    + apply elem_of_empty in H. exact H.
    + unfold Portal.collectCandidates, uniqueCandidates in E. rewrite E in H.
      apply elem_of_nil in H. exact H.
  - intros H1 H2 H3. unfold Portal.collectCandidates, uniqueCandidates.
    assert (He : explicitCandidates URL_protocol p = []).
    { unfold explicitCandidates. simpl. rewrite H1, H2, H3. reflexivity. }
    rewrite He, Hg. simpl app. apply uniqueFrom_fixed.
    + rewrite <- list_fmap_compose.
      assert (Hinj : Inj (=) (=) (fun suffix => base +:+ suffix))
        by (intros x y; apply append_inj_r).
      apply (NoDup_fmap_2 (fun suffix => base +:+ suffix)). apply commonEndpointPaths_NoDup.
    + intros c Hc. apply list_elem_of_fmap in Hc as (sfx & -> & Hs). simpl.
      split; [|split; [|apply not_elem_of_empty]].
      * destruct base; [congruence|discriminate].
      * apply normalizeBaseUrl_Some in Hb as (u & _ & _ & Eb).
        eapply guessed_url_fixed; eassumption.
Qed.

End CandidateFacts.

(** ** The rows *)

Lemma choosePreferred_explicit {A} `{HasSource A} (l : list A) v :
  choosePreferred l = Some v ->
  isExplicit (source_of v) = existsb (fun x => isExplicit (source_of x)) l.
Proof.
  unfold choosePreferred. destruct (List.find _ l) as [x|] eqn:E.
  - intros [= <-]. pose proof (find_some _ _ E) as [Hin Hx]. rewrite Hx. symmetry.
    apply existsb_exists. eauto.
  - intros Hh. pose proof (find_none _ _ E) as Hnone.
    assert (Hex : existsb (fun x => isExplicit (source_of x)) l = false).
    { apply not_true_is_false. intros Ht. apply existsb_exists in Ht as (x & Hin & Hx).
      rewrite (Hnone x Hin) in Hx. discriminate. }
    rewrite Hex. apply Hnone. destruct l; [discriminate|]. injection Hh as ->. left. reflexivity.
Qed.

Lemma existsb_explicit {A} `{HasSource A} (l : list A) :
  existsb (fun x => isExplicit (source_of x)) l = true
  <-> exists c, c ∈ l /\ source_of c = explicit.
Proof.
  rewrite existsb_exists. split.
  - intros (c & Hc & He). exists c. split; [apply list_elem_of_In; exact Hc|].
    apply isExplicit_true. exact He.
  - intros (c & Hc & He). exists c. split; [apply list_elem_of_In; exact Hc|].
    apply isExplicit_true. exact He.
Qed.

Lemma deriveRow_projected {R P : Type} (projectOutput : Prepared R -> P) strict p row :
  deriveRow projectOutput strict p = Some row -> c_projected row = projectOutput p.
Proof.
  unfold deriveRow. destruct (length _ =? 0); [discriminate|].
  destruct (strict && _); [discriminate|]. intros [= <-]. reflexivity.
Qed.

(** Property X12.
    Derivation-only mode.  A portal gets a row exactly when it has a
    candidate and, with [strict], an explicit one.  The row hands on the
    candidates as they are, and it is flagged guessed exactly when the
    portal has no explicit candidate: with [strict] no row is flagged
    guessed. *)
Theorem derivation_row_characterised {R P : Type} (projectOutput : Prepared R -> P) (strict : bool)
    (p : Prepared R) :
  (is_Some (deriveRow projectOutput strict p)
   <-> sparqlCandidates p <> []
       /\ (strict = true -> exists c, c ∈ sparqlCandidates p /\ source c = explicit))
  /\ forall row, deriveRow projectOutput strict p = Some row ->
       c_projected row = projectOutput p
       /\ c_sparqlCandidates row = sparqlCandidates p
       /\ (c_sparqlGuessed row = Some false
           <-> exists c, c ∈ sparqlCandidates p /\ source c = explicit)
       /\ (c_sparqlGuessed row = Some true
           <-> forall c, c ∈ sparqlCandidates p -> source c = guessed)
       /\ (strict = true -> c_sparqlGuessed row = Some false).
Proof.
  unfold deriveRow.
  pose proof (existsb_explicit (sparqlCandidates p)) as Hex.
  change (fun x : Candidate => isExplicit (source_of x))
    with (fun c : Candidate => isExplicit (source c)) in Hex.
  destruct (sparqlCandidates p) as [|c0 l] eqn:El.
  { simpl. split; [|discriminate].
    split; [intros [? ?]; discriminate|intros [? _]; congruence]. }
  rewrite <- El in *. assert (Hne : sparqlCandidates p <> []) by (rewrite El; discriminate).
  assert (Hlen : (length (sparqlCandidates p) =? 0) = false) by (rewrite El; reflexivity).
  rewrite Hlen.
  destruct (choosePreferred (sparqlCandidates p)) as [ch|] eqn:Ech;
    [|apply choosePreferred_None in Ech; contradiction].
  pose proof (choosePreferred_explicit _ _ Ech) as Hch.
  change (source_of ch) with (source ch) in Hch.
  change (fun x : Candidate => isExplicit (source_of x))
    with (fun c : Candidate => isExplicit (source c)) in Hch.
  destruct (existsb (fun c => isExplicit (source c)) (sparqlCandidates p)) eqn:Hb.
  - rewrite andb_false_r. split.
    + split; [intros _; split; [exact Hne|intros _; apply Hex; reflexivity]|eauto].
    + intros row [= <-]. simpl. rewrite Hch. simpl.
      split; [reflexivity|]. split; [reflexivity|]. split; [|split].
      * split; [intros _; apply Hex; reflexivity|reflexivity].
      * split; [discriminate|]. intros Hall. exfalso.
        destruct (proj1 Hex eq_refl) as (c & Hc & Hs). pose proof (Hall c Hc) as Hg.
        change (source_of c) with (source c) in Hs. congruence.
      * reflexivity.
  - rewrite andb_true_r. destruct strict; simpl.
    + split; [|discriminate]. split; [intros [? ?]; discriminate|].
      intros [_ H]. apply Hex in H; [discriminate|reflexivity].
    + split; [split; [intros _; split; [exact Hne|discriminate]|eauto]|].
      intros row [= <-]. simpl. rewrite Hch. simpl.
      split; [reflexivity|]. split; [reflexivity|]. split; [|split].
      * split; [discriminate|]. intros H. apply Hex in H. discriminate.
      * split; [|reflexivity]. intros _ c Hc. destruct (source c) eqn:Hs; [|reflexivity].
        exfalso. assert (Ht : false = true); [|discriminate].
        apply Hex. exists c. split; [exact Hc|exact Hs].
      * discriminate.
Qed.

Lemma derivation_row_witness :
  match deriveRow (fun _ => tt) true
          (mkPrepared tt [mkCandidate "https://x.org/sparql" explicit;
                          mkCandidate "https://x.org/query" guessed]) with
  | Some row => c_sparqlGuessed row = Some false
  | None => False
  end.
Proof.
  destruct (deriveRow _ _ _) as [row|] eqn:E.
  - apply (proj2 (derivation_row_characterised (fun _ => tt) true _) row E). reflexivity.
  - discriminate E.
Defined.

Lemma omap_imap_sublist {A B C} (g : B -> C) (h : A -> C) (l : list A) :
  forall F : nat -> A -> option B,
    (forall i x y, F i x = Some y -> g y = h x) ->
    g <$> omap id (imap F l) `sublist_of` h <$> l.
Proof.
  induction l as [|x l IH]; intros F HF; [constructor|].
  rewrite imap_cons. simpl. destruct (F 0 x) as [y|] eqn:E; simpl.
  - rewrite (HF 0 x y E). apply sublist_skip. apply IH. intros i. apply (HF (S i)).
  - apply sublist_cons. apply IH. intros i. apply (HF (S i)).
Qed.

(** Property X13.
    The rows follow the order of the portals, at most one row for a
    portal, in both modes. *)
Theorem rows_follow_the_portals {R P : Type} (projectOutput : Prepared R -> P)
    (items : list (Prepared R)) (strict : bool)
    (vm : gmap nat (list (string * VerifiedEndpoint))) :
  projected <$> rows projectOutput items strict vm `sublist_of` projectOutput <$> items
  /\ c_projected <$> deriveRows projectOutput strict items `sublist_of` projectOutput <$> items
  /\ length (rows projectOutput items strict vm) <= length items
  /\ length (deriveRows projectOutput strict items) <= length items.
Proof.
  assert (H1 : projected <$> rows projectOutput items strict vm
               `sublist_of` projectOutput <$> items).
  { unfold rows. apply omap_imap_sublist. intros i x y. unfold rowFor.
    destruct (length _ =? 0); [discriminate|]. destruct (strict && _); [discriminate|].
    intros [= <-]. reflexivity. }
  assert (H2 : c_projected <$> deriveRows projectOutput strict items
               `sublist_of` projectOutput <$> items).
  { clear H1. unfold deriveRows. induction items as [|p l IH]; [constructor|]. simpl.
    destruct (deriveRow projectOutput strict p) as [row|] eqn:E; simpl.
    - rewrite (deriveRow_projected projectOutput strict p row E).
      apply sublist_skip. exact IH.
    - apply sublist_cons. exact IH. }
  split; [exact H1|]. split; [exact H2|]. split.
  - apply sublist_length in H1. rewrite !length_fmap in H1. exact H1.
  - apply sublist_length in H2. rewrite !length_fmap in H2. exact H2.
Qed.

(** Property X14.
    Verification mode.  Without [strict] a portal gets a row exactly when
    its verified set is not empty.  The row lists the verified set as it
    is, the chosen endpoint is one of its entries with that entry's mode,
    and the row is flagged guessed exactly when no explicit candidate
    verified. *)
Theorem verification_row_characterised {R P : Type} (projectOutput : Prepared R -> P)
    (items : list (Prepared R)) (strict : bool)
    (vm : gmap nat (list (string * VerifiedEndpoint))) (i : nat) (item : Prepared R) :
  (is_Some (rowFor projectOutput items false vm i item)
   <-> Map_values (default [] (vm !! i)) <> [])
  /\ forall row, rowFor projectOutput items strict vm i item = Some row ->
       sparqlVerified row = true
       /\ sparqlEndpointsVerifiedMeta row = Map_values (default [] (vm !! i))
       /\ sparqlEndpointsVerified row = v_url <$> sparqlEndpointsVerifiedMeta row
       /\ (exists v, v ∈ sparqlEndpointsVerifiedMeta row
                     /\ sparqlEndpoint row = Some (v_url v)
                     /\ sparqlVerifiedBy row = v_mode v)
       /\ (sparqlGuessed row = Some false
           <-> exists v, v ∈ sparqlEndpointsVerifiedMeta row /\ v_source v = explicit).
Proof.
  split.
  - unfold rowFor. destruct (Map_values (default [] (vm !! i))) as [|v l]; simpl.
    + split; [intros [? ?]; discriminate|congruence].
    + split; [discriminate|eauto].
  - intros row Hrow. pose proof Hrow as Hfields.
    apply rowFor_endpoint in Hfields as (v & Ech & Hv & E1 & E2 & E3 & E4 & E5).
    split; [exact E4|]. split; [exact E5|]. split.
    { unfold rowFor in Hrow. destruct (length _ =? 0); [discriminate|].
      destruct (strict && _); [discriminate|]. injection Hrow as <-. reflexivity. }
    split; [exists v; rewrite E5; auto|].
    rewrite E2, E5, (chooseVerified_explicit _ _ Ech).
    pose proof (existsb_explicit (Map_values (default [] (vm !! i)))) as Hex.
    change (fun x : VerifiedEndpoint => isExplicit (source_of x))
      with (fun x : VerifiedEndpoint => isExplicit (v_source x)) in Hex.
    change (fun c : VerifiedEndpoint => source_of c = explicit)
      with (fun c : VerifiedEndpoint => v_source c = explicit) in Hex.
    destruct (existsb _ _); simpl.
    + split; [intros _; apply Hex; reflexivity|reflexivity].
    + split; [discriminate|]. intros H. apply Hex in H. discriminate.
Qed.

Lemma verification_row_witness :
  match rowFor (fun _ : Prepared unit => tt) xOrg true onlyGuessVerified 0
          (mkPrepared tt [mkCandidate "https://x.org/sparql" explicit;
                          mkCandidate "https://x.org/query" guessed]) with
  | Some row => sparqlVerified row = true
  | None => False
  end.
Proof.
  destruct (rowFor _ _ _ _ _ _) as [row|] eqn:E.
  - apply (proj2 (verification_row_characterised (fun _ => tt) xOrg true onlyGuessVerified 0 _) row E).
  - vm_compute in E. discriminate E.
Defined.

(** ** The start of the engine *)

Section EngineStart.
Context {R : Type}.
Variable items : list (Prepared R).

Local Arguments Nat.min : simpl never.

Lemma iter_spawn n :
  cursor (Nat.iter n (spawn items) (state0 items)) = n
  /\ workers (Nat.iter n (spawn items) (state0 items))
     = (fun k => if length (tasks items) <=? k then Finished else Awaiting k) <$> seq 0 n
  /\ verifiedMap (Nat.iter n (spawn items) (state0 items)) = verifiedMap0 items
  /\ ticks (Nat.iter n (spawn items) (state0 items)) = 0
  /\ history (Nat.iter n (spawn items) (state0 items))
     = (fun k => Claimed k k) <$> seq 0 (n `min` length (tasks items)).
Proof.
  induction n as [|n IH].
  - simpl. rewrite ?Nat.min_0_l. simpl. auto 10.
  - change (Nat.iter (S n) (spawn items) (state0 items))
      with (spawn items (Nat.iter n (spawn items) (state0 items))).
    destruct IH as (Hc & Hw & Hv & Ht & Hh).
    generalize dependent (Nat.iter n (spawn items) (state0 items)). intros st Hc Hw Hv Ht Hh.
    assert (Hlen : length (workers st) = n).
    { rewrite Hw, length_fmap, length_seq. reflexivity. }
    unfold spawn, loopHead. rewrite Hc, Hlen, seq_S, fmap_app. simpl.
    destruct (length (tasks items) <=? n) eqn:E; simpl.
    + apply Nat.leb_le in E. rewrite Hw, Hv, Ht, Hh.
      replace (S n `min` length (tasks items)) with (n `min` length (tasks items)) by lia.
      auto 10.
    + apply Nat.leb_gt in E. rewrite Hw, Hv, Ht, Hh.
      replace (S n `min` length (tasks items)) with (S n) by lia.
      replace (n `min` length (tasks items)) with n by lia.
      rewrite seq_S, fmap_app. simpl. auto 10.
Qed.

Lemma completedOf_claims l : completedOf ((fun k => Claimed k k) <$> l) = [].
Proof. induction l as [|k l IH]; [reflexivity|exact IH]. Qed.

Lemma faultedOf_claims l : faultedOf ((fun k => Claimed k k) <$> l) = [].
Proof. induction l as [|k l IH]; [reflexivity|exact IH]. Qed.

Lemma init_settled n :
  completedOf (history (init items n)) = []
  /\ faultedOf (history (init items n)) = []
  /\ ticks (init items n) = 0.
Proof.
  unfold init. destruct (iter_spawn n) as (_ & _ & _ & Ht & Hh).
  rewrite Hh, Ht, completedOf_claims, faultedOf_claims. auto.
Qed.

End EngineStart.

(** Property X15.
    When [Array.from] starts [n] workers, each runs to its first [await]
    as it is created: before any probe has answered, worker [k] has
    claimed task [k], a worker beyond the last task has returned, the
    cursor stands at [n] and the verified sets are empty.  There is at
    least one worker unless the concurrency is [NaN], and none then. *)
Theorem workers_start_on_the_first_tasks {R : Type} (items : list (Prepared R))
    (concurrency : Number) (n : nat) :
  nWorkers concurrency = Return n ->
  cursor (init items n) = n
  /\ workers (init items n)
     = (fun k => if length (tasks items) <=? k then Finished else Awaiting k) <$> seq 0 n
  /\ verifiedMap (init items n) = verifiedMap0 items
  /\ history (init items n)
     = (fun k => Claimed k k) <$> seq 0 (n `min` length (tasks items))
  /\ (concurrency <> NaN -> 1 <= n)
  /\ (concurrency = NaN -> n = 0).
Proof.
  intros Hn. destruct (iter_spawn items n) as (Hc & Hw & Hv & _ & Hh).
  unfold init. split; [exact Hc|]. split; [exact Hw|]. split; [exact Hv|].
  split; [exact Hh|]. split.
  - intros Hnan. exact (nWorkers_started _ _ Hnan Hn).
  - intros ->. rewrite nWorkers_NaN in Hn. congruence.
Qed.

Lemma workers_start_witness :
  workers (init xOrg 5) = [Awaiting 0; Awaiting 1; Finished; Finished; Finished].
Proof.
  rewrite (proj1 (proj2 (workers_start_on_the_first_tasks xOrg (ofZ 5) 5 eq_refl))).
  reflexivity.
Defined.

(** ** The progress counter *)

Section EngineTicks.
Context {R : Type}.
Variable items : list (Prepared R).
Variable probe : Task -> Outcome ProbeResult.
Variable concurrency : Number.
Variable progress : bool.

Local Abbreviation ticksCount := (ticksCount progress).

Lemma recordResult_ticks t res st st1 :
  recordResult progress t res st = Return st1 ->
  ticks st1 = if progress then S (ticks st) else ticks st.
Proof.
  unfold recordResult. destruct (ok res).
  - destruct (verifiedMap st !! portalIndex t); [|discriminate].
    intros [= <-]. reflexivity.
  - intros [= <-]. reflexivity.
Qed.

Lemma ticks_resume w st st' :
  ticksCount st -> resume items probe progress w st = Some st' -> ticksCount st'.
Proof.
  unfold Runs.ticksCount. intros HT Hw.
  apply resume_Some in Hw as [i t e _ _ _ ->|i t res st1 st2 ws _ _ _ Hrec Hl ->]; simpl.
  - rewrite completedOf_app. simpl. rewrite app_nil_r. exact HT.
  - pose proof (recordResult_ticks _ _ _ _ Hrec) as Ht.
    apply recordResult_Return in Hrec as (_ & _ & Hh & _).
    apply loopHead_spec in Hl as (_ & _ & _ & Ht2 & Hcase). simpl in Ht2, Hcase.
    rewrite Ht2, Ht, HT.
    assert (E : length (completedOf (history st2)) = S (length (completedOf (history st)))).
    { destruct Hcase as [(_ & _ & ->)|(_ & _ & ->)]; rewrite Hh, !completedOf_app; simpl;
        rewrite ?app_nil_r, length_app; simpl; lia. }
    rewrite E. destruct progress; reflexivity.
Qed.

Lemma ticks_reachable st :
  reachable items probe concurrency progress st -> ticksCount st.
Proof.
  revert st. apply reachable_ind.
  - intros n _. unfold Runs.ticksCount. destruct (init_settled items n) as (-> & _ & ->).
    destruct progress; reflexivity.
  - intros st st' _ [w Hw] IH. exact (ticks_resume _ _ _ IH Hw).
Qed.

End EngineTicks.

Lemma concat_imap_length {A B} (g : A -> nat) (l : list A) : forall F : nat -> A -> list B,
  (forall i x, length (F i x) = g x) ->
  length (concat (imap F l)) = sum_list (g <$> l).
Proof.
  induction l as [|x l IH]; intros F HF; [reflexivity|].
  rewrite imap_cons. simpl. rewrite length_app, HF, (IH (F ∘ S)); [reflexivity|].
  intros i y. apply HF.
Qed.

Lemma foldl_add_length {A} (g : A -> nat) (l : list A) : forall a,
  foldl (fun sum p => sum + g p) a l = a + sum_list (g <$> l).
Proof.
  induction l as [|x l IH]; intros a; simpl; [lia|]. rewrite IH.
  change (list_fmap A nat g l) with (g <$> l). lia.
Qed.

Lemma tasks_length {R : Type} (items : list (Prepared R)) :
  length (tasks items) = totalCandidates items.
Proof.
  unfold tasks, totalCandidates.
  rewrite (concat_imap_length (fun p => length (sparqlCandidates p))).
  - rewrite foldl_add_length. reflexivity.
  - intros i x. unfold tasksOf. apply length_map.
Qed.

(** Property X16.
    The progress bar of the check is created with the number of
    candidates of all portals, which is the number of tasks.  In every
    state of a run the ticks given are the tasks completed, so the count
    never passes the total; it reaches the total when every worker has
    returned, provided the engine has started one (the concurrency is
    not [NaN]). *)
Theorem progress_counts_the_completed_tasks {R : Type} (items : list (Prepared R))
    (probe : Task -> Outcome ProbeResult) (concurrency : Number) (st : State) :
  reachable items probe concurrency true st ->
  length (tasks items) = totalCandidates items
  /\ ticks st = length (completedOf (history st))
  /\ ticks st <= totalCandidates items
  /\ (allFinished st = true -> concurrency <> NaN -> ticks st = totalCandidates items).
Proof.
  intros Hreach. pose proof (ticks_reachable _ _ _ _ _ Hreach) as HT. unfold Runs.ticksCount in HT.
  destruct (reachable_Inv _ _ _ _ _ Hreach) as [HI _].
  pose proof (Inv_settled_bound _ _ _ HI) as Hb. unfold settledCount in Hb.
  rewrite <- tasks_length. split; [reflexivity|]. split; [exact HT|]. split; [lia|].
  intros Hall Hnan.
  rewrite HT, (finished_completed _ _ _ _ _ Hnan Hreach Hall), length_seq. reflexivity.
Qed.

Lemma progress_counts_witness :
  ticks (run xOrg explicitAnswers true [0; 1] (init xOrg 2)) <= totalCandidates xOrg.
Proof.
  apply (progress_counts_the_completed_tasks xOrg explicitAnswers (ofZ 2)).
  apply run_reachable. apply reachable_init. reflexivity.
Defined.

(** ** What the verified sets hold during a run *)

Lemma insertEntry_sub m e x : x ∈ insertEntry m e -> x ∈ m \/ x = e.
Proof.
  unfold insertEntry. destruct (Map_has m e.1) eqn:E; [auto|].
  rewrite (Map_set_fresh _ _ _ E). intros H. apply elem_of_app in H as [H|H]; [auto|].
  apply list_elem_of_singleton in H. right. rewrite H. destruct e; reflexivity.
Qed.

Lemma insertEntry_keys m e k : k ∈ m.*1 \/ k = e.1 -> k ∈ (insertEntry m e).*1.
Proof.
  unfold insertEntry. destruct (Map_has m e.1) eqn:E.
  - intros [H| ->]; [exact H|]. apply Map_has_true. exact E.
  - rewrite (Map_set_fresh _ _ _ E), fmap_app. intros [H| ->].
    + apply elem_of_app. left. exact H.
    + apply elem_of_app. right. simpl. apply list_elem_of_here.
Qed.

Lemma foldl_insertEntry_sub es : forall m x,
  x ∈ foldl insertEntry m es -> x ∈ m \/ x ∈ es.
Proof.
  induction es as [|e es IH]; intros m x H; simpl in H; [auto|].
  apply IH in H as [H|H].
  - apply insertEntry_sub in H as [H| ->]; [auto|]. right. apply list_elem_of_here.
  - right. apply list_elem_of_further. exact H.
Qed.

Lemma foldl_insertEntry_keys es : forall m k,
  k ∈ m.*1 \/ k ∈ es.*1 -> k ∈ (foldl insertEntry m es).*1.
Proof.
  induction es as [|e es IH]; intros m k H; simpl.
  - destruct H as [H|H]; [exact H|]. apply elem_of_nil in H. contradiction.
  - apply IH. destruct H as [H|H].
    + left. apply insertEntry_keys. auto.
    + rewrite fmap_cons in H. apply elem_of_cons in H as [->|H].
      * left. apply insertEntry_keys. auto.
      * right. exact H.
Qed.

Lemma verifiedMap0_lookup {R : Type} (items : list (Prepared R)) i :
  i < length items -> verifiedMap0 items !! i = Some [].
Proof.
  intros Hi. unfold verifiedMap0. rewrite lookup_map_seq_0, list_lookup_fmap.
  destruct (lookup_lt_is_Some_2 items i Hi) as [x ->]. reflexivity.
Qed.

Lemma reachable_verified {R : Type} (items : list (Prepared R))
    (probe : Task -> Outcome ProbeResult) concurrency progress st i m :
  reachable items probe concurrency progress st -> verifiedMap st !! i = Some m ->
  m = foldl insertEntry [] (omap (entryOf items probe i) (completedOf (history st))).
Proof.
  intros Hreach Hm. destruct (reachable_Inv _ _ _ _ _ Hreach) as [HI _].
  assert (Hi : i < length items).
  { apply (inv_dom _ _ _ HI). rewrite Hm. eauto. }
  rewrite (inv_map _ _ _ HI) in Hm.
  rewrite (foldl_applyCompleted_lookup items probe _ _ i [] (verifiedMap0_lookup items i Hi))
    in Hm.
  congruence.
Qed.

(** Property X17.
    In every state of a run, with any candidates and however the probes
    complete, an entry of a portal's verified set stands for a completed
    task of that portal whose probe succeeded, with the task's URL and
    source and the probe's mode; it is one of the portal's candidates.
    The other way round, the URL of every completed task whose probe
    succeeded is in the verified set of its portal. *)
Theorem verified_sets_hold_the_successful_probes {R : Type} (items : list (Prepared R))
    (probe : Task -> Outcome ProbeResult) (concurrency : Number) (progress : bool)
    (st : State) (i : nat) (m : list (string * VerifiedEndpoint)) :
  reachable items probe concurrency progress st -> verifiedMap st !! i = Some m ->
  (forall k v, (k, v) ∈ m ->
     exists idx t res,
       idx ∈ completedOf (history st) /\ tasks items !! idx = Some t /\ portalIndex t = i
       /\ probe t = Return res /\ ok res = true
       /\ k = t_url t /\ v = mkVerified (t_url t) (t_source t) (mode res))
  /\ (forall v, v ∈ Map_values m ->
        exists item c, items !! i = Some item /\ c ∈ sparqlCandidates item
                       /\ v_url v = url c /\ v_source v = source c)
  /\ (forall idx t res,
        idx ∈ completedOf (history st) -> tasks items !! idx = Some t -> portalIndex t = i ->
        probe t = Return res -> ok res = true -> Map_has m (t_url t) = true).
Proof.
  intros Hreach Hm. pose proof (reachable_verified _ _ _ _ _ _ _ Hreach Hm) as ->.
  assert (H1 : forall k v,
    (k, v) ∈ foldl insertEntry [] (omap (entryOf items probe i) (completedOf (history st))) ->
    exists idx t res,
       idx ∈ completedOf (history st) /\ tasks items !! idx = Some t /\ portalIndex t = i
       /\ probe t = Return res /\ ok res = true
       /\ k = t_url t /\ v = mkVerified (t_url t) (t_source t) (mode res)).
  { intros k v H. apply foldl_insertEntry_sub in H as [H|H].
    - apply elem_of_nil in H. contradiction.
    - apply list_elem_of_omap in H as (idx & Hidx & E).
      apply entryOf_Some in E as (t & res & Ht & Hpi & Hr & Hok & Hk & Hv).
      exists idx, t, res. auto 10. }
  split; [exact H1|]. split.
  - intros v Hv. unfold Map_values in Hv. change (map snd ?l) with (snd <$> l) in Hv.
    apply list_elem_of_fmap in Hv as ([k v'] & -> & Hin).
    apply H1 in Hin as (idx & t & res & _ & Ht & Hpi & _ & _ & _ & ->).
    assert (Hin : t ∈ tasks items) by (apply list_elem_of_lookup; eauto).
    apply tasks_elem in Hin as (j & item & c & Hj & Hc & ->). simpl in Hpi. subst j.
    exists item, c. auto.
  - intros idx t res Hidx Ht Hpi Hr Hok. apply Map_has_true.
    apply foldl_insertEntry_keys. right.
    apply list_elem_of_fmap. exists (t_url t, mkVerified (t_url t) (t_source t) (mode res)).
    split; [reflexivity|]. apply list_elem_of_omap. exists idx. split; [exact Hidx|].
    apply entryOf_intro; assumption.
Qed.

Lemma verified_sets_hold_witness :
  exists item c, xOrg !! 0 = Some item /\ c ∈ sparqlCandidates item
                 /\ v_url (mkVerified "https://x.org/query" guessed (Some ask_post)) = url c
                 /\ v_source (mkVerified "https://x.org/query" guessed (Some ask_post))
                    = source c.
Proof.
  refine (proj1 (proj2
    (verified_sets_hold_the_successful_probes xOrg guessAnswers (ofZ 2) false
       (run xOrg guessAnswers false [0; 1] (init xOrg 2)) 0
       [("https://x.org/query"%string,
         mkVerified "https://x.org/query" guessed (Some ask_post))] _ _))
    (mkVerified "https://x.org/query" guessed (Some ask_post)) _).
  - apply run_reachable. apply reachable_init. reflexivity.
  - vm_compute. reflexivity.
  - apply list_elem_of_here.
Defined.

(** ** The length of a run *)

(** Property X18.
    A run takes one step for each task whose probe has answered: after
    [k] steps from the start, [k] tasks are completed or faulted, no task
    twice; no run is longer than the list of tasks, and a run that ends
    with every worker returned has taken one step for each task,
    provided the engine has started a worker (the concurrency is not
    [NaN]). *)
Theorem a_run_takes_one_step_per_task {R : Type} (items : list (Prepared R))
    (probe : Task -> Outcome ProbeResult) (concurrency : Number) (progress : bool)
    (n k : nat) (st : State) :
  nWorkers concurrency = Return n ->
  nsteps (step items probe progress) k (init items n) st ->
  k = length (completedOf (history st)) + length (faultedOf (history st))
  /\ NoDup (completedOf (history st) ++ faultedOf (history st))
  /\ k <= length (tasks items)
  /\ (allFinished st = true -> concurrency <> NaN -> k = length (tasks items)).
Proof.
  intros Hn Hk.
  assert (HI0 : Inv items probe (init items n)).
  { apply (Inv_iter items probe n). }
  destruct (steps_bounded _ _ _ _ _ _ HI0 Hk) as [Hs HI].
  assert (H0 : settledCount (init items n) = 0).
  { unfold settledCount. destruct (init_settled items n) as (-> & -> & _).
    reflexivity. }
  rewrite H0 in Hs. simpl in Hs. unfold settledCount in Hs.
  pose proof (Inv_settled_bound _ _ _ HI) as Hb. unfold settledCount in Hb.
  split; [lia|]. split; [|split; [lia|]].
  - assert (Hnd : NoDup (completedOf (history st) ++ faultedOf (history st)
                         ++ inflight (workers st))).
    { rewrite <- (inv_held _ _ _ HI), (inv_claims _ _ _ HI). apply NoDup_seq. }
    rewrite app_assoc in Hnd. apply NoDup_app in Hnd as [Hnd _]. exact Hnd.
  - intros Hall Hnan.
    assert (Hreach : reachable items probe concurrency progress st).
    { exists n. split; [exact Hn|]. eapply rtc_nsteps_2. exact Hk. }
    pose proof (finished_completed _ _ _ _ _ Hnan Hreach Hall) as Hp.
    apply Permutation_length in Hp. rewrite length_seq in Hp. lia.
Qed.

Lemma a_run_takes_witness : 2 = length (tasks xOrg).
Proof.
  refine (proj2 (proj2 (proj2
    (a_run_takes_one_step_per_task xOrg explicitAnswers (ofZ 2) false 2 2
       (run xOrg explicitAnswers false [0; 1] (init xOrg 2)) _ _))) _ _).
  - reflexivity.
  - apply nsteps_l with (y := run xOrg explicitAnswers false [0] (init xOrg 2)).
    { exists 0. vm_compute. reflexivity. }
    apply nsteps_l with (y := run xOrg explicitAnswers false [0; 1] (init xOrg 2)).
    { exists 1. vm_compute. reflexivity. }
    apply nsteps_O.
  - vm_compute. reflexivity.
  - discriminate.
Defined.

(** ** Progress reporting *)

Section ProgressIndependence.
Context {R P : Type}.
Variable projectOutput : Prepared R -> P.
Variable items : list (Prepared R).
Variable probe : Task -> Outcome ProbeResult.
Variable strict : bool.

Lemma resume_sameButTicks p1 p2 w st1 st2 :
  sameButTicks st1 st2 ->
  match resume items probe p1 w st1, resume items probe p2 w st2 with
  | Some a, Some b => sameButTicks a b
  | None, None => True
  | _, _ => False
  end.
Proof.
  destruct st1 as [c1 w1 v1 t1 h1], st2 as [c2 w2 v2 t2 h2].
  intros (Hc & Hw & Hv & Hh). simpl in Hc, Hw, Hv, Hh. subst c2 w2 v2 h2.
  unfold resume. simpl. destruct (w1 !! w) as [[i| |e]|]; try exact I.
  destruct (tasks items !! i) as [t|]; [|exact I].
  destruct (probe t) as [res|e].
  - unfold recordResult. simpl. destruct (ok res).
    + destruct (v1 !! portalIndex t) as [m|]; simpl.
      * unfold loopHead. simpl. destruct (length (tasks items) <=? c1); simpl;
          repeat split; reflexivity.
      * repeat split; reflexivity.
    + unfold loopHead. simpl. destruct (length (tasks items) <=? c1); simpl;
        repeat split; reflexivity.
  - repeat split; reflexivity.
Qed.

Lemma run_sameButTicks p1 p2 sched : forall st1 st2,
  sameButTicks st1 st2 ->
  sameButTicks (run items probe p1 sched st1) (run items probe p2 sched st2).
Proof.
  induction sched as [|w sched IH]; intros st1 st2 H; simpl; [exact H|].
  pose proof (resume_sameButTicks p1 p2 w st1 st2 H) as Hr.
  destruct (resume items probe p1 w st1), (resume items probe p2 w st2);
    try contradiction; apply IH; assumption.
Qed.

Lemma outcome_sameButTicks st1 st2 :
  sameButTicks st1 st2 ->
  outcome projectOutput items strict st1 = outcome projectOutput items strict st2.
Proof.
  intros (_ & Hw & Hv & Hh). unfold outcome, allFinished. rewrite Hw, Hv, Hh. reflexivity.
Qed.

End ProgressIndependence.

(** Property X19.
    The engine only ticks its progress object: with it or without it,
    the same completion order leads to the same cursor, workers, verified
    sets and history at every point, and to the same result. *)
Theorem progress_reporting_leaves_the_result_alone {R P : Type}
    (projectOutput : Prepared R -> P) (items : list (Prepared R))
    (probe : Task -> Outcome ProbeResult) (concurrency : Number) (strict : bool)
    (sched : list nat) :
  (forall n, sameButTicks (run items probe true sched (init items n))
                          (run items probe false sched (init items n)))
  /\ verifyCandidatesByCandidate projectOutput items probe concurrency true strict sched
     = verifyCandidatesByCandidate projectOutput items probe concurrency false strict sched.
Proof.
  assert (H : forall n, sameButTicks (run items probe true sched (init items n))
                                     (run items probe false sched (init items n))).
  { intros n. apply run_sameButTicks. repeat split; reflexivity. }
  split; [exact H|]. unfold verifyCandidatesByCandidate.
  destruct (nWorkers concurrency) as [n|e]; [|reflexivity].
  apply outcome_sameButTicks. apply H.
Qed.

(** ** One worker *)

Section SingleWorker.
Context {R : Type}.
Variable items : list (Prepared R).
Variable probe : Task -> Outcome ProbeResult.

Lemma inTaskOrder_init : inTaskOrder items (init items 1).
Proof.
  unfold init. destruct (iter_spawn items 1) as (Hcur & Hw & _ & _ & Hh).
  exists 0. split; [rewrite Hh; apply completedOf_claims|].
  rewrite Hw, Hcur. simpl. destruct (length (tasks items)) as [|n] eqn:E; simpl.
  - right. left. auto.
  - left. split; [reflexivity|]. split; [reflexivity|]. lia.
Qed.

Lemma inTaskOrder_resume progress w st st' :
  inTaskOrder items st -> resume items probe progress w st = Some st' ->
  inTaskOrder items st'.
Proof.
  intros (n & Hdone & Hcase) Hw.
  apply resume_Some in Hw as [i t e Hwi _ _ ->|i t res st1 st2 ws Hwi Ht _ Hrec Hl ->].
  - destruct Hcase as [(Hws & _ & _)|[(Hws & _)|(e' & Hws)]]; rewrite Hws in Hwi;
      destruct w; try discriminate.
    exists n. split; [simpl; rewrite completedOf_app, Hdone; simpl; apply app_nil_r|].
    right. right. exists e. simpl. rewrite Hws. reflexivity.
  - destruct Hcase as [(Hws & Hcur & Hn)|[(Hws & _)|(e' & Hws)]]; rewrite Hws in Hwi;
      destruct w; try discriminate.
    injection Hwi as <-.
    apply recordResult_Return in Hrec as (Hc1 & Hw1 & Hh1 & _).
    apply loopHead_spec in Hl as (Hc2 & Hw2 & _ & _ & Hl). simpl in Hc2, Hw2, Hl.
    assert (Hws' : workers (setWorker 0 ws st2) = [ws]).
    { simpl. rewrite Hw2, Hw1, Hws. reflexivity. }
    destruct Hl as [(Hle & -> & Hh2)|(Hlt & -> & Hh2)].
    + exists (S n). split.
      * change (history (setWorker 0 Finished st2)) with (history st2).
        rewrite Hh2, Hh1, completedOf_app, Hdone, seq_S. reflexivity.
      * right. left. split; [exact Hws'|]. lia.
    + exists (S n). split.
      * change (history (setWorker 0 (Awaiting (cursor st1)) st2)) with (history st2).
        rewrite Hh2, Hh1, !completedOf_app, Hdone, seq_S.
        change (completedOf [Claimed 0 (cursor st1)]) with (@nil nat).
        rewrite app_nil_r. reflexivity.
      * left. split; [rewrite Hws', Hc1, Hcur; reflexivity|].
        split; [simpl; lia|]. lia.
Qed.

Lemma inTaskOrder_reachable concurrency progress st :
  numLe concurrency (ofZ 1) -> reachable items probe concurrency progress st ->
  inTaskOrder items st.
Proof.
  intros Hc. revert st. apply reachable_ind.
  - intros n Hn. rewrite (nWorkers_one _ Hc) in Hn. injection Hn as <-.
    apply inTaskOrder_init.
  - intros st st' _ [w Hw] IH. exact (inTaskOrder_resume _ _ _ _ IH Hw).
Qed.

End SingleWorker.

Lemma omap_lookup_seq {A B} (f : A -> option B) (l : list A) : forall pre,
  omap (fun idx => (pre ++ l) !! idx ≫= f) (seq (length pre) (length l)) = omap f l.
Proof.
  induction l as [|x l IH]; intros pre; [reflexivity|].
  assert (E : omap (fun idx => (pre ++ x :: l) !! idx ≫= f) (seq (S (length pre)) (length l))
              = omap f l).
  { specialize (IH (pre ++ [x])). rewrite <- app_assoc, length_app in IH. simpl in IH.
    replace (length pre + 1) with (S (length pre)) in IH by lia. exact IH. }
  change (seq (length pre) (length (x :: l)))
    with (length pre :: seq (S (length pre)) (length l)).
  change (omap f (x :: l)) with (match f x with Some y => y :: omap f l | None => omap f l end).
  rewrite <- E.
  change (omap ?g (?a :: ?r))
    with (match g a with Some y => y :: omap g r | None => omap g r end).
  cbv beta. rewrite list_lookup_middle by reflexivity. reflexivity.
Qed.

Lemma numLe_number a b : numLe a b -> a <> NaN.
Proof. intros H ->. exact H. Qed.

Lemma one_worker_verified {R : Type} (items : list (Prepared R))
    (probe : Task -> Outcome ProbeResult) concurrency progress st i :
  numLe concurrency (ofZ 1) -> reachable items probe concurrency progress st ->
  allFinished st = true -> i < length items ->
  verifiedMap st !! i
  = Some (foldl insertEntry [] (omap (taskEntry probe i) (tasks items))).
Proof.
  intros Hc Hreach Hall Hi.
  destruct (inTaskOrder_reachable items probe _ _ _ Hc Hreach) as (n & Hdone & Hcase).
  pose proof (finished_completed _ _ _ _ _ (numLe_number _ _ Hc) Hreach Hall) as Hp.
  assert (Hn : n = length (tasks items)).
  { apply Permutation_length in Hp. rewrite Hdone, !length_seq in Hp. exact Hp. }
  destruct (reachable_Inv _ _ _ _ _ Hreach) as [HI _].
  rewrite (inv_map _ _ _ HI), Hdone, Hn.
  rewrite (foldl_applyCompleted_lookup items probe _ _ i [] (verifiedMap0_lookup items i Hi)).
  f_equal. f_equal. rewrite <- (omap_lookup_seq (taskEntry probe i) (tasks items) []).
  reflexivity.
Qed.

(** Property X20.
    With one worker (a concurrency that is a number up to 1) the tasks
    are completed in the order of the task list, so a finished run
    leaves for every portal the successful candidates in the order of
    its candidates.
    Two finished runs with one worker agree on the verified sets as
    they are, order included, and on the result of the engine. *)
Theorem one_worker_runs_are_reproducible {R P : Type}
    (projectOutput : Prepared R -> P) (items : list (Prepared R))
    (probe : Task -> Outcome ProbeResult) (strict : bool)
    (concurrency1 concurrency2 : Number) (progress1 progress2 : bool) (st1 st2 : State) :
  numLe concurrency1 (ofZ 1) -> numLe concurrency2 (ofZ 1) ->
  reachable items probe concurrency1 progress1 st1 -> allFinished st1 = true ->
  reachable items probe concurrency2 progress2 st2 -> allFinished st2 = true ->
  completedOf (history st1) = seq 0 (length (tasks items))
  /\ (forall i, i < length items ->
        verifiedMap st1 !! i
        = Some (foldl insertEntry [] (omap (taskEntry probe i) (tasks items))))
  /\ verifiedMap st1 = verifiedMap st2
  /\ outcome projectOutput items strict st1 = outcome projectOutput items strict st2.
Proof.
  intros Hc1 Hc2 Hr1 Hf1 Hr2 Hf2.
  assert (Hdone : completedOf (history st1) = seq 0 (length (tasks items))).
  { destruct (inTaskOrder_reachable items probe _ _ _ Hc1 Hr1) as (n & Hdone & _).
    pose proof (finished_completed _ _ _ _ _ (numLe_number _ _ Hc1) Hr1 Hf1) as Hp.
    apply Permutation_length in Hp. rewrite Hdone, !length_seq in Hp.
    rewrite Hdone, Hp. reflexivity. }
  assert (Hvm : verifiedMap st1 = verifiedMap st2).
  { apply map_eq. intros i. destruct (decide (i < length items)) as [Hi|Hi].
    - rewrite (one_worker_verified items probe _ _ st1 i Hc1 Hr1 Hf1 Hi).
      rewrite (one_worker_verified items probe _ _ st2 i Hc2 Hr2 Hf2 Hi). reflexivity.
    - destruct (reachable_Inv _ _ _ _ _ Hr1) as [HI1 _].
      destruct (reachable_Inv _ _ _ _ _ Hr2) as [HI2 _].
      pose proof (inv_dom _ _ _ HI1 i) as H1. pose proof (inv_dom _ _ _ HI2 i) as H2.
      destruct (verifiedMap st1 !! i) as [m1|]; [exfalso; apply Hi, H1; eauto|].
      destruct (verifiedMap st2 !! i) as [m2|]; [exfalso; apply Hi, H2; eauto|].
      reflexivity. }
  split; [exact Hdone|]. split; [|split; [exact Hvm|]].
  - intros i Hi. apply (one_worker_verified items probe _ _ st1 i Hc1 Hr1 Hf1 Hi).
  - assert (Hflt : forall conc prog st,
              reachable items probe conc prog st -> allFinished st = true ->
              firstFault (history st) = None).
    { intros conc prog st Hr Hf. apply firstFault_None.
      destruct (reachable_Inv _ _ _ _ _ Hr) as [HI _].
      destruct (faultedOf (history st)) as [|j l] eqn:E; [reflexivity|]. exfalso.
      destruct (inv_faulted _ _ _ HI) as [e He]; [rewrite E; discriminate|].
      apply (proj1 (allFinished_iff st) Hf) in He. discriminate. }
    unfold outcome. rewrite (Hflt _ _ _ Hr1 Hf1), (Hflt _ _ _ Hr2 Hf2), Hf1, Hf2, Hvm.
    reflexivity.
Qed.

Lemma one_worker_witness :
  verifiedMap sequentialRun = verifiedMap sequentialRun.
Proof.
  refine (proj1 (proj2 (proj2
    (one_worker_runs_are_reproducible (fun _ => tt) twoGuesses alwaysAskGet false
       (ofZ 1) (ofZ 1) false false sequentialRun sequentialRun _ _ _ _ _ _)))).
  - unfold numLe, ofZ, Qle. simpl. lia.
  - unfold numLe, ofZ, Qle. simpl. lia.
  - apply run_reachable. apply reachable_init. reflexivity.
  - reflexivity.
  - apply run_reachable. apply reachable_init. reflexivity.
  - reflexivity.
Defined.

(** ** Prepared portals in the engine *)

Lemma prepared_urls_unique (URL_protocol : string -> option string) (raws : list Fields)
    (item : Prepared Fields) :
  item ∈ preparePortal URL_protocol <$> raws -> NoDup (url <$> sparqlCandidates item).
Proof.
  intros H. apply list_elem_of_fmap in H as (p & -> & _). apply uniqueCandidates_NoDup.
Qed.

Lemma collectCandidates_length (URL_protocol : string -> option string) (p : Fields) :
  length (collectCandidates URL_protocol p) <= 19.
Proof.
  unfold collectCandidates, uniqueCandidates.
  pose proof (uniqueFrom_length
                (Some <$> (explicitCandidates URL_protocol p
                             ++ guessedCandidates URL_protocol p)) ∅) as H.
  rewrite length_fmap, length_app in H.
  pose proof (explicitCandidates_length URL_protocol p).
  pose proof (guessedCandidates_length URL_protocol p). lia.
Qed.

(** Property X21.
    The portals as the script prepares them have no URL twice among
    their candidates.  So for them any two finished runs, with any
    concurrency values that are numbers (not [NaN], with which the
    engine starts no worker) and any completion orders, leave verified
    sets that
    are permutations of each other: the candidates whose probes
    succeeded, at most nineteen for a portal. *)
Theorem prepared_portals_verify_to_the_same_sets
    (URL_protocol : string -> option string) (raws : list Fields)
    (probe : Task -> Outcome ProbeResult)
    (concurrency1 concurrency2 : Number) (progress1 progress2 : bool) (st1 st2 : State) :
  concurrency1 <> NaN -> concurrency2 <> NaN ->
  reachable (preparePortal URL_protocol <$> raws) probe concurrency1 progress1 st1 ->
  allFinished st1 = true ->
  reachable (preparePortal URL_protocol <$> raws) probe concurrency2 progress2 st2 ->
  allFinished st2 = true ->
  forall i p, raws !! i = Some p ->
    Map_values (default [] (verifiedMap st1 !! i))
    ≡ₚ Map_values (default [] (verifiedMap st2 !! i))
    /\ (forall v, v ∈ Map_values (default [] (verifiedMap st1 !! i)) <->
          exists c res, c ∈ collectCandidates URL_protocol p
                        /\ probe (mkTask i (url c) (source c)) = Return res
                        /\ ok res = true
                        /\ v = mkVerified (url c) (source c) (mode res))
    /\ length (Map_values (default [] (verifiedMap st1 !! i))) <= 19.
Proof.
  intros Hn1 Hn2 Hr1 Hf1 Hr2 Hf2 i p Hp.
  pose proof (prepared_urls_unique URL_protocol raws) as Hu.
  assert (Hi : (preparePortal URL_protocol <$> raws) !! i = Some (preparePortal URL_protocol p)).
  { rewrite list_lookup_fmap, Hp. reflexivity. }
  pose proof (lookup_lt_Some _ _ _ Hi) as Hlt.
  destruct (finished_verified _ probe Hu _ _ st1 i Hn1 Hr1 Hf1 Hlt) as (d1 & Hd1 & E1).
  destruct (finished_verified _ probe Hu _ _ st2 i Hn2 Hr2 Hf2 Hlt) as (d2 & Hd2 & E2).
  rewrite E1, E2. cbn [default].
  assert (Hmem : forall v,
    v ∈ Map_values (omap (entryOf (preparePortal URL_protocol <$> raws) probe i) d1) <->
    exists c res, c ∈ collectCandidates URL_protocol p
                  /\ probe (mkTask i (url c) (source c)) = Return res
                  /\ ok res = true
                  /\ v = mkVerified (url c) (source c) (mode res)).
  { intros v. rewrite (entries_elem _ probe i d1 v Hd1). split.
    - intros (t & res & Ht & Hpi & Hr & Hok & ->).
      apply tasks_elem in Ht as (j & item & c & Hj & Hc & ->). simpl in Hpi. subst j.
      rewrite Hi in Hj. injection Hj as <-. exists c, res. simpl. auto.
    - intros (c & res & Hc & Hr & Hok & ->).
      exists (mkTask i (url c) (source c)), res. split; [|auto].
      apply tasks_elem. exists i, (preparePortal URL_protocol p), c. auto. }
  split; [|split; [exact Hmem|]].
  - unfold Map_values. change (map snd ?l) with (snd <$> l). rewrite Hd1, Hd2. reflexivity.
  - assert (Hnd : NoDup d1) by (rewrite Hd1; apply NoDup_seq).
    pose proof (entries_NoDup _ probe Hu i d1 Hnd) as Hk.
    unfold Map_values. rewrite length_map.
    assert (Hsub : (omap (entryOf (preparePortal URL_protocol <$> raws) probe i) d1).*1
                   ⊆+ url <$> collectCandidates URL_protocol p).
    { apply NoDup_submseteq; [exact Hk|]. intros k Hin.
      apply list_elem_of_fmap in Hin as ([k' v] & -> & Hin).
      apply list_elem_of_omap in Hin as (idx & _ & E).
      apply entryOf_Some in E as (t & res & Ht & Hpi & _ & _ & -> & _).
      assert (Hin : t ∈ tasks (preparePortal URL_protocol <$> raws))
        by (apply list_elem_of_lookup; eauto).
      apply tasks_elem in Hin as (j & item & c & Hj & Hc & ->). simpl in Hpi. subst j.
      rewrite Hi in Hj. injection Hj as <-. simpl. apply list_elem_of_fmap_2. exact Hc. }
    apply submseteq_length in Hsub. rewrite !length_fmap in Hsub.
    pose proof (collectCandidates_length URL_protocol p). unfold id. lia.
Qed.

Lemma prepared_portals_witness :
  length (Map_values (default [] (verifiedMap curatedRun !! 0))) <= 19.
Proof.
  refine (proj2 (proj2
    (prepared_portals_verify_to_the_same_sets httpOnly [curatedOrg] alwaysAskGet
       (ofZ 3) (ofZ 3) false false curatedRun curatedRun _ _ _ _ _ _ 0 curatedOrg eq_refl))).
  - discriminate.
  - discriminate.
  - unfold curatedRun. apply run_reachable. apply reachable_init. reflexivity.
  - vm_compute. reflexivity.
  - unfold curatedRun. apply run_reachable. apply reachable_init. reflexivity.
  - vm_compute. reflexivity.
Defined.

Lemma collectCandidates_guesses_witness :
  collectCandidates httpOnly bareOrg
  = (fun suffix => mkCandidate ("https://x.org" +:+ suffix) guessed) <$> commonEndpointPaths.
Proof.
  refine (proj2 (collectCandidates_guesses httpOnly bareOrg "https://x.org" _ _) _ _ _).
  - vm_compute. reflexivity.
  - discriminate.
  - reflexivity.
  - reflexivity.
  - reflexivity.
Defined.

(** ** The command line and the country filter *)

Lemma indexOf_Some a key : forall i,
  indexOf a key = Some i <-> a !! i = Some key /\ forall j, j < i -> a !! j <> Some key.
Proof.
  induction a as [|x a IH]; intros i; simpl.
  - split; [discriminate|]. intros [H _]. discriminate.
  - destruct (bool_decide (x = key)) eqn:E.
    + apply bool_decide_eq_true in E. subst x. split.
      * intros [= <-]. split; [reflexivity|]. intros j Hj. lia.
      * intros [H Hfirst]. destruct i as [|i]; [reflexivity|].
        exfalso. apply (Hfirst 0); [lia|reflexivity].
    + apply bool_decide_eq_false in E. destruct (indexOf a key) as [k|] eqn:Ek; simpl.
      * split.
        -- intros [= <-]. destruct (proj1 (IH k) eq_refl) as [H Hfirst].
           split; [exact H|]. intros [|j] Hj; simpl; [congruence|]. apply Hfirst. lia.
        -- intros [H Hfirst]. destruct i as [|i]; simpl in H; [congruence|].
           f_equal. assert (Hi : Some k = Some i); [|congruence].
           apply IH. split; [exact H|]. intros j Hj. apply (Hfirst (S j)). lia.
      * split; [discriminate|]. intros [H Hfirst]. destruct i as [|i]; simpl in H; [congruence|].
        assert (Hi : None = Some i); [|discriminate].
        apply IH. split; [exact H|]. intros j Hj. apply (Hfirst (S j)). lia.
Qed.

Lemma indexOf_None a key : indexOf a key = None <-> key ∉ a.
Proof.
  induction a as [|x a IH]; simpl.
  - split; [intros _ H; apply elem_of_nil in H; contradiction|reflexivity].
  - destruct (bool_decide (x = key)) eqn:E.
    + apply bool_decide_eq_true in E. subst x. split; [discriminate|].
      intros H. exfalso. apply H. apply list_elem_of_here.
    + apply bool_decide_eq_false in E. rewrite not_elem_of_cons.
      destruct (indexOf a key); simpl.
      * split; [discriminate|]. intros [_ H]. apply IH in H. discriminate.
      * split; [|reflexivity]. intros _. split; [congruence|]. apply IH. reflexivity.
Qed.

Lemma indexOf_app pre key rest : key ∉ pre -> indexOf (pre ++ key :: rest) key = Some (length pre).
Proof.
  intros Hpre. apply indexOf_Some. split.
  - apply list_lookup_middle. reflexivity.
  - intros j Hj E. rewrite lookup_app_l in E by exact Hj.
    apply Hpre. apply list_elem_of_lookup. eauto.
Qed.

(** Property X22.
    [getArgValue] gives the argument that follows the first occurrence
    of the key, whatever it is, a later occurrence of the key is not
    looked at, and there is no value when the key does not occur or
    when its first occurrence is the last argument. *)
Theorem getArgValue_reads_after_the_first_key (a : list string) (key : string) :
  (forall v, getArgValue a key = Some v <->
     exists i, a !! i = Some key /\ (forall j, j < i -> a !! j <> Some key)
               /\ a !! (i + 1) = Some v)
  /\ (key ∉ a -> getArgValue a key = None)
  /\ (forall pre, a = pre ++ [key] -> key ∉ pre -> getArgValue a key = None)
  /\ (forall pre v post, a = pre ++ key :: v :: post -> key ∉ pre ->
        getArgValue a key = Some v).
Proof.
  unfold getArgValue. split; [|split; [|split]].
  - intros v. destruct (indexOf a key) as [i|] eqn:E.
    + apply indexOf_Some in E as [Hi Hfirst]. split.
      * intros Hv. exists i. auto.
      * intros (i' & Hi' & Hfirst' & Hv).
        assert (i' = i) as ->; [|exact Hv].
        destruct (Nat.lt_trichotomy i' i) as [Hlt|[Heq|Hgt]]; [|exact Heq|].
        -- exfalso. exact (Hfirst i' Hlt Hi').
        -- exfalso. exact (Hfirst' i Hgt Hi).
    + split; [discriminate|]. intros (i & Hi & _). apply indexOf_None in E.
      exfalso. apply E. apply list_elem_of_lookup. eauto.
  - intros H. apply indexOf_None in H. rewrite H. reflexivity.
  - intros pre -> Hpre. rewrite (indexOf_app pre key [] Hpre).
    apply lookup_ge_None. rewrite length_app. simpl. lia.
  - intros pre v post -> Hpre. rewrite (indexOf_app pre key (v :: post) Hpre).
    rewrite lookup_app_r by lia. replace (length pre + 1 - length pre) with 1 by lia.
    reflexivity.
Qed.

Lemma getArgValue_witness : getArgValue args "--timeout" = Some "--check"%string.
Proof.
  refine (proj2 (proj2 (proj2 (getArgValue_reads_after_the_first_key args "--timeout")))
            ["in.json"; "out.json"]%string "--check"%string
            ["--timeout"; "500"]%string eq_refl _).
  intros H. repeat (apply elem_of_cons in H as [H|H]; [discriminate H|]).
  apply elem_of_nil in H. exact H.
Defined.

Lemma trimStart_toLowerCase s : trimStart (toLowerCase s) = toLowerCase (trimStart s).
Proof.
  induction s as [|c s IH]; [reflexivity|]. simpl. rewrite isWhiteSpace_lowerChar.
  destruct (isWhiteSpace c); [exact IH|reflexivity].
Qed.

Lemma rev_toLowerCase s : rev (toLowerCase s) = toLowerCase (rev s).
Proof. unfold toLowerCase. symmetry. apply map_rev. Qed.

Lemma trim_toLowerCase s : trim (toLowerCase s) = toLowerCase (trim s).
Proof.
  unfold trim, trimEnd.
  rewrite trimStart_toLowerCase, rev_toLowerCase, trimStart_toLowerCase, rev_toLowerCase.
  reflexivity.
Qed.

Lemma toLowerCase_idem s : toLowerCase (toLowerCase s) = toLowerCase s.
Proof.
  unfold toLowerCase. rewrite map_map. apply map_ext. intros c. apply lowerChar_idem.
Qed.

Lemma trim_outer_space ws1 a ws2 :
  forallb isWhiteSpace ws1 = true -> forallb isWhiteSpace ws2 = true ->
  trim (ws1 ++ a ++ ws2) = trim a.
Proof.
  intros H1 H2. unfold trim. rewrite (trimStart_ws ws1 _ H1).
  induction a as [|c a IH].
  - simpl. rewrite (trimStart_all_ws ws2 H2). reflexivity.
  - simpl. destruct (isWhiteSpace c) eqn:E; [exact IH|].
    change (c :: a ++ ws2) with ((c :: a) ++ ws2). apply trimEnd_ws. exact H2.
Qed.

(** Property X23.
    [eqCI] is false as soon as one side is not a string; on strings it
    is an equivalence that looks neither at the case of the letters nor
    at white space around the text. *)
Theorem eqCI_ignores_case_and_outer_space :
  (forall b, eqCI None b = false)
  /\ (forall a, eqCI a None = false)
  /\ (forall a, eqCI (Some a) (Some a) = true)
  /\ (forall a b, eqCI a b = eqCI b a)
  /\ (forall a b c, eqCI a b = true -> eqCI b c = true -> eqCI a c = true)
  /\ (forall a b, eqCI (Some (toLowerCase a)) b = eqCI (Some a) b)
  /\ (forall ws1 a ws2 b,
        forallb isWhiteSpace ws1 = true -> forallb isWhiteSpace ws2 = true ->
        eqCI (Some (ws1 ++ a ++ ws2)) b = eqCI (Some a) b).
Proof.
  split; [reflexivity|]. split; [intros [a|]; reflexivity|].
  split; [intros a; apply bool_decide_eq_true; reflexivity|].
  split; [|split; [|split]].
  - intros [a|] [b|]; try reflexivity. unfold eqCI.
    apply bool_decide_ext. split; congruence.
  - intros [a|] [b|] [c|]; try discriminate. unfold eqCI.
    rewrite !bool_decide_eq_true. congruence.
  - intros a [b|]; [|reflexivity]. unfold eqCI.
    rewrite trim_toLowerCase, toLowerCase_idem. reflexivity.
  - intros ws1 a ws2 [b|] H1 H2; [|reflexivity]. unfold eqCI.
    rewrite (trim_outer_space ws1 a ws2 H1 H2). reflexivity.
Qed.

Lemma filter_sublist {A} (f : A -> bool) (l : list A) : List.filter f l `sublist_of` l.
Proof.
  induction l as [|x l IH]; [constructor|]. simpl.
  destruct (f x); [apply sublist_skip|apply sublist_cons]; exact IH.
Qed.

(** Property X24.
    The country filter.  Without a filter every record is selected.
    With one, the records selected are those whose [inCountryEn] is a
    string equal to the filter up to case and outer white space, in the
    order of the input; a record without a country is never selected. *)
Theorem selectRecords_keeps_the_matching_records {R : Type}
    (inCountryEn : R -> option text) (countryFilter : text) (records : list R) :
  selectRecords inCountryEn [] records = records
  /\ selectRecords inCountryEn countryFilter records `sublist_of` records
  /\ length (selectRecords inCountryEn countryFilter records) <= length records
  /\ (countryFilter <> [] ->
      forall p, p ∈ selectRecords inCountryEn countryFilter records <->
        p ∈ records
        /\ exists c, inCountryEn p = Some c
                     /\ toLowerCase (trim c) = toLowerCase (trim countryFilter)).
Proof.
  assert (Hsub : selectRecords inCountryEn countryFilter records `sublist_of` records).
  { unfold selectRecords. destruct (bool_decide (countryFilter = [])); [reflexivity|].
    apply filter_sublist. }
  split; [reflexivity|]. split; [exact Hsub|]. split; [apply sublist_length; exact Hsub|].
  intros Hne p. unfold selectRecords. rewrite bool_decide_eq_false_2 by exact Hne.
  rewrite list_elem_of_In, filter_In, <- list_elem_of_In. unfold eqCI.
  destruct (inCountryEn p) as [c|].
  - rewrite bool_decide_eq_true. split.
    + intros [H1 H2]. split; [exact H1|]. exists c. auto.
    + intros [H1 (c' & [= <-] & H2)]. auto.
  - split; [intros [_ H]; discriminate|]. intros [_ (c & H & _)]. discriminate.
Qed.

Lemma selectRecords_witness :
  Some (str " Germany ")
  ∈ selectRecords (fun p : option text => p) (str "germany")
      [Some (str " Germany "); None; Some (str "France")].
Proof.
  refine (proj2 (proj2 (proj2 (proj2
    (selectRecords_keeps_the_matching_records (fun p : option text => p) (str "germany")
       [Some (str " Germany "); None; Some (str "France")]))) _
    (Some (str " Germany "))) _).
  - discriminate.
  - split; [apply list_elem_of_here|]. exists (str " Germany "). split; reflexivity.
Defined.

Lemma eqCI_witness :
  eqCI (Some (str " " ++ str "Germany" ++ str " ")) (Some (str "germany"))
  = eqCI (Some (str "Germany")) (Some (str "germany")).
Proof.
  refine (proj2 (proj2 (proj2 (proj2 (proj2 (proj2 eqCI_ignores_case_and_outer_space)))))
            (str " ") (str "Germany") (str " ") (Some (str "germany")) _ _).
  - reflexivity.
  - reflexivity.
Defined.

Lemma normalizeBaseUrl_witness :
  exists u slashes,
    Some " https://x.org// "%string = Some u
    /\ list_ascii_of_string (trimUrl u) = list_ascii_of_string "https://x.org" ++ slashes
    /\ Forall (fun c => c = "/"%char) slashes
    /\ last (list_ascii_of_string "https://x.org") <> Some "/"%char.
Proof.
  refine (proj2 (normalizeBaseUrl_strips_trailing_slashes httpOnly
                   (Some " https://x.org// "%string)) "https://x.org"%string _).
  vm_compute. reflexivity.
Defined.

Lemma derivation_chooses_witness :
  choosePreferred (collectCandidates httpOnly curatedOrg)
  = head (collectCandidates httpOnly curatedOrg).
Proof.
  exact (proj1 (derivation_chooses_the_first_candidate httpOnly (fun _ => tt) false
                  curatedOrg)).
Defined.
